(** * The c-ares backed DNS resolver (source/common/network/dns_impl.cc)
      and the validation resolver (source/server/config_validation/dns.cc)

    A shallow embedding.  The resolver object, the heap of self-deleting
    query objects and the requests that are in flight inside c-ares are one
    explicit state, [World]; every member function is a function on it.
    What the outside can observe (requests handed to c-ares, callbacks
    raised, objects freed, channels destroyed and created) is appended to
    the [trace] of the world, in program order. *)

From stdpp Require Import gmap strings list.
From Stdlib Require Import ZArith Lia.
From stdpp Require Import pretty.

(** ** Constants of the platform and of c-ares (ares.h, sys/socket.h) *)

Definition ARES_SUCCESS : Z := 0.
Definition ARES_ENODATA : Z := 1.
Definition ARES_ENOTFOUND : Z := 4.
Definition ARES_EBADNAME : Z := 8.
Definition ARES_EBADRESP : Z := 10.
Definition ARES_ECONNREFUSED : Z := 11.
Definition ARES_EDESTRUCTION : Z := 16.

Definition AF_INET : Z := 2.
Definition AF_INET6 : Z := 10.

(** ** Data model (include/envoy/network/dns.h) *)

Inductive DnsLookupFamily := V4Only | V6Only | Auto.

Inductive ResolutionStatus := Success | Failure.

(** An address instance: the raw [sin_addr] (4 octets) or [sin6_addr]
    (16 octets) and the port. *)
Inductive Instance :=
| Ipv4Instance (sin_addr : list Byte.byte) (sin_port : Z)
| Ipv6Instance (sin6_addr : list Byte.byte) (sin6_port : Z).

Record DnsResponse := { address_ : Instance; ttl_ : Z }.

(** One node of the linked list that [ares_getaddrinfo] hands to its
    callback.  [ai_addr] is a pointer: the model has the memory it points
    to, octet by octet from offset 0, that is the [sockaddr] storage that
    c-ares allocated and whatever lies behind it.  The [ai_next] chain is
    the Rocq list. *)
Record ares_addrinfo_node := {
  ai_family : Z;
  ai_addr : nat -> Byte.byte;
  ai_ttl : Z
}.

(** [ares_addrinfo*]: [None] is the null pointer, [Some []] is a structure
    whose [nodes] member is null. *)
Definition ares_addrinfo := option (list ares_addrinfo_node).

(** One record of a parsed SRV answer ([struct ares_srv_reply]). *)
Record ares_srv_reply := {
  host : string;
  priority : Z;
  weight : Z;
  port : Z;
  ttl : Z
}.

(** The list [srv_records] of [onAresSrvStartCallback] receives both the
    [SrvDnsResponse] built from every answer record and the
    [SrvInstanceImpl] built from every resolved address, and is then passed
    to the caller's callback: its elements are either. *)
Inductive SrvEntry :=
| SrvDnsResponse (target_ : string) (port_ : Z) (srv_ttl_ : Z) (weight_ : Z)
| SrvInstanceImpl (inst : Instance) (inst_priority : Z) (inst_weight : Z).

(** A [ResolveCb].  The caller's callbacks are opaque and identified by a
    number: what they do is not modelled, an invocation is an event of the
    trace.  The only other callback is the closure that
    [onAresSrvStartCallback] builds for each target, with its captures
    [this, finished, srv_records, current_reply], all taken by copy; for
    the pointer [current_reply] the closure holds the record it pointed to
    when the closure was built. *)
Inductive ResolveCb :=
| CallerResolveCb (c : nat)
| SrvSubResolveCb (this : nat) (finished : nat) (srv_records : list SrvEntry)
    (current_reply : ares_srv_reply).

(** A [ResolveSrvCb] is always a callback of the caller. *)
Definition ResolveSrvCb := nat.

(** Modelled from the spec: the members that the two query classes inherit
    from [PendingResolutionBase], declared in common/network/dns_impl.h;
    the spec lists the requested name, the completion flag and the
    cancellation flag, the code under src/ also reads and writes [owned_]
    and [channel_].  A query is constructed in the spec's state Created:
    not completed, not owned, not cancelled, fallback not allowed. *)
Record PendingResolutionBase := {
  ares_channel_ : nat;
  dns_name_ : string;
  completed_ : bool;
  owned_ : bool;
  cancelled_ : bool
}.

Inductive Query :=
| PendingResolution (base : PendingResolutionBase) (callback_ : ResolveCb)
    (fallback_if_failed_ : bool)
| PendingSrvResolution (base : PendingResolutionBase) (callback_ : ResolveSrvCb)
    (dns_lookup_family_ : DnsLookupFamily).

Definition query_base (q : Query) : PendingResolutionBase :=
  match q with
  | PendingResolution b _ _ => b
  | PendingSrvResolution b _ _ => b
  end.

Definition set_completed (v : bool) (b : PendingResolutionBase) :=
  {| ares_channel_ := ares_channel_ b; dns_name_ := dns_name_ b;
     completed_ := v; owned_ := owned_ b; cancelled_ := cancelled_ b |}.

Definition set_owned (v : bool) (b : PendingResolutionBase) :=
  {| ares_channel_ := ares_channel_ b; dns_name_ := dns_name_ b;
     completed_ := completed_ b; owned_ := v; cancelled_ := cancelled_ b |}.

Definition set_cancelled (v : bool) (b : PendingResolutionBase) :=
  {| ares_channel_ := ares_channel_ b; dns_name_ := dns_name_ b;
     completed_ := completed_ b; owned_ := owned_ b; cancelled_ := v |}.

Definition with_base (f : PendingResolutionBase -> PendingResolutionBase)
    (q : Query) : Query :=
  match q with
  | PendingResolution b cb fb => PendingResolution (f b) cb fb
  | PendingSrvResolution b cb fam => PendingSrvResolution (f b) cb fam
  end.

(** ** The observable trace *)

Inductive Event :=
| EvAresDestroy (channel : nat)
| EvAresInit (channel : nat)
| EvGetAddrInfo (channel : nat) (arg : nat) (name : string) (family : Z)
| EvAresQuery (channel : nat) (arg : nat) (name : string)
| EvResolveCb (query : nat) (c : nat) (status : ResolutionStatus)
    (response : list DnsResponse)
| EvResolveSrvCb (query : nat) (c : nat) (records : list SrvEntry)
| EvDelete (query : nat)
| EvUseAfterFree (query : nat).

(** ** c-ares *)

Inductive AresRequestKind := ReqGetAddrInfo (family : Z) | ReqSrvQuery.

(** A request that c-ares has accepted and not yet answered; [req_arg] is
    the [void* arg] given with the callback, the address of the query
    object. *)
Record AresRequest := {
  req_channel : nat;
  req_arg : nat;
  req_kind : AresRequestKind
}.

(** What c-ares passes to a completion callback. *)
Record AresAnswer := {
  ans_status : Z;
  ans_timeouts : Z;
  ans_addrinfo : ares_addrinfo;
  ans_buf : list Byte.byte
}.

(** The behaviour of the library that the resolver cannot see into:
    whether a request is answered from inside the call that makes it (a
    literal address, a hosts-file entry, a name that cannot be encoded)
    and how an answer buffer parses. *)
Record AresLibrary := {
  ares_getaddrinfo_now : string -> Z -> option AresAnswer;
  ares_query_now : string -> option AresAnswer;
  ares_parse_srv_reply : list Byte.byte -> Z * list ares_srv_reply
}.

(** ** The state *)

Record World := {
  dirty_channel_ : bool;
  channel_ : nat;
  objects : gmap nat Query;
  next_object : nat;
  requests : list AresRequest;
  trace : list Event
}.

Definition emit (e : Event) (w : World) : World :=
  {| dirty_channel_ := dirty_channel_ w; channel_ := channel_ w;
     objects := objects w; next_object := next_object w;
     requests := requests w; trace := trace w ++ [e] |}.

Definition set_objects (o : gmap nat Query) (w : World) : World :=
  {| dirty_channel_ := dirty_channel_ w; channel_ := channel_ w;
     objects := o; next_object := next_object w;
     requests := requests w; trace := trace w |}.

Definition set_requests (r : list AresRequest) (w : World) : World :=
  {| dirty_channel_ := dirty_channel_ w; channel_ := channel_ w;
     objects := objects w; next_object := next_object w;
     requests := r; trace := trace w |}.

Definition set_dirty_channel (v : bool) (w : World) : World :=
  {| dirty_channel_ := v; channel_ := channel_ w;
     objects := objects w; next_object := next_object w;
     requests := requests w; trace := trace w |}.

Definition set_channel (c : nat) (w : World) : World :=
  {| dirty_channel_ := dirty_channel_ w; channel_ := c;
     objects := objects w; next_object := next_object w;
     requests := requests w; trace := trace w |}.

(** Writing a member of a live object. *)
Definition store (this : nat) (q : Query) (w : World) : World :=
  set_objects (<[this := q]> (objects w)) w.

(** [new]: the object gets the next free address. *)
Definition alloc (q : Query) (w : World) : nat * World :=
  (next_object w,
   {| dirty_channel_ := dirty_channel_ w; channel_ := channel_ w;
      objects := <[next_object w := q]> (objects w);
      next_object := S (next_object w);
      requests := requests w; trace := trace w |}).

(** [delete this], and the destructor of the [unique_ptr] that still owns
    a query. *)
Definition delete_this (this : nat) (w : World) : World :=
  emit (EvDelete this) (set_objects (delete this (objects w)) w).

Definition add_request (r : AresRequest) (w : World) : World :=
  set_requests (requests w ++ [r]) w.

(** ** Translation of the answer records (dns_impl.cc, lines 133-158) *)

(** Copying [n] octets from [offset] through a pointer: the copy has [n]
    octets whatever the size of the storage behind the pointer. *)
Definition read_octets (addr : nat -> Byte.byte) (offset n : nat)
    : list Byte.byte :=
  map addr (seq offset n).

(** [reinterpret_cast<sockaddr_in*>(ai->ai_addr)->sin_addr]: the 4 octets
    at offset 4 ([sin_family] and [sin_port] take 2 octets each). *)
Definition sin_addr_of (addr : nat -> Byte.byte) : list Byte.byte :=
  read_octets addr 4 4.

(** [reinterpret_cast<sockaddr_in6*>(ai->ai_addr)->sin6_addr]: the 16
    octets at offset 8 ([sin6_family] and [sin6_port] take 2 octets each,
    [sin6_flowinfo] 4).  Through a pointer to the 16 octets of a
    [sockaddr_in] this reads its [sin_zero] and 8 octets behind it. *)
Definition sin6_addr_of (addr : nat -> Byte.byte) : list Byte.byte :=
  read_octets addr 8 16.

Definition to_ipv4_response (ai : ares_addrinfo_node) : DnsResponse :=
  {| address_ := Ipv4Instance (sin_addr_of (ai_addr ai)) 0; ttl_ := ai_ttl ai |}.

Definition to_ipv6_response (ai : ares_addrinfo_node) : DnsResponse :=
  {| address_ := Ipv6Instance (sin6_addr_of (ai_addr ai)) 0; ttl_ := ai_ttl ai |}.

(** The body of [if (addrinfo != nullptr && addrinfo->nodes != nullptr)]. *)
Definition address_list_of (addrinfo : ares_addrinfo) : list DnsResponse :=
  match addrinfo with
  | Some (first :: rest) =>
      if (ai_family first =? AF_INET)%Z then
        map to_ipv4_response (first :: rest)
      else if (ai_family first =? AF_INET6)%Z then
        map to_ipv6_response (first :: rest)
      else []
  | _ => []
  end.

Definition is_nil {A} (l : list A) : bool :=
  match l with [] => true | _ => false end.

(** The values of [address_list] and [resolution_status] that lines
    129-168 of [onAresGetAddrInfoCallback] compute from the status and the
    answer. *)
Definition answer_addresses (status : Z) (addrinfo : ares_addrinfo)
    : list DnsResponse :=
  if (status =? ARES_SUCCESS)%Z then address_list_of addrinfo else [].

Definition answer_status (status : Z) : ResolutionStatus :=
  if (status =? ARES_SUCCESS)%Z then Success else Failure.

(** Lines 124-126: a refused connection on an attempt that has no fallback
    left marks the channel. *)
Definition mark_dirty_if_refused (fallback : bool) (status : Z) (w : World)
    : World :=
  if negb fallback && (status =? ARES_ECONNREFUSED)%Z
  then set_dirty_channel true w else w.

(** [Utility::getAddressWithPort]. *)
Definition getAddressWithPort (inst : Instance) (p : Z) : Instance :=
  match inst with
  | Ipv4Instance a _ => Ipv4Instance a p
  | Ipv6Instance a _ => Ipv6Instance a p
  end.

(** ** The resolver (dns_impl.cc) *)

Section Resolver.

Variable lib : AresLibrary.

(** [PendingSrvResolution::onAresSrvFinishCallback] (lines 381-407). *)
Definition onAresSrvFinishCallback (this : nat) (srv_records : list SrvEntry)
    (w : World) : World :=
  match objects w !! this with
  | Some (PendingSrvResolution base callback family) =>
      let base1 := if is_nil srv_records then base else set_completed true base in
      let w1 := store this (PendingSrvResolution base1 callback family) w in
      if completed_ base1 then
        let w2 := if cancelled_ base1 then w1
                  else emit (EvResolveSrvCb this callback srv_records) w1 in
        if owned_ base1 then delete_this this w2 else w2
      else w1
  | _ => emit (EvUseAfterFree this) w
  end.

(** Calling a [ResolveCb].  For the closure of the SRV fan-out this is the
    body of the lambda (lines 350-361): it works on its own copies of
    [finished] and [srv_records].  The callback of a caller is taken to
    return without calling into the resolver and without throwing: its
    invocation is an event and nothing else.  [Reentrant.invoke_ResolveCb]
    leaves open what the callback does to the resolver before it returns.
    An exception of the callback is caught and posted to the dispatcher
    (lines 176-187); that path is not modelled. *)
Definition invoke_ResolveCb (query : nat) (cb : ResolveCb)
    (status : ResolutionStatus) (response : list DnsResponse) (w : World) : World :=
  match cb with
  | CallerResolveCb c => emit (EvResolveCb query c status response) w
  | SrvSubResolveCb this finished srv_records current_reply =>
      let srv_records1 :=
        srv_records ++
        map (fun instance =>
               SrvInstanceImpl
                 (getAddressWithPort (address_ instance) (port current_reply))
                 (priority current_reply) (weight current_reply))
            response in
      let finished1 := S finished in
      if finished1 =? length srv_records1
      then onAresSrvFinishCallback this srv_records1 w
      else w
  end.

(** [PendingResolution::onAresGetAddrInfoCallback] (lines 97-202) up to its
    last statement.  The boolean of the result tells that the function
    ends with [getAddrInfo(AF_INET)] (lines 195-201), after which the
    source does nothing more.  [ASSERT] is compiled out of release
    builds and the log lines are not observed. *)
Definition onAresGetAddrInfoCallback_body (this : nat) (status timeouts : Z)
    (addrinfo : ares_addrinfo) (w : World) : World * bool :=
  match objects w !! this with
  | Some (PendingResolution base callback fallback) =>
      if (status =? ARES_EDESTRUCTION)%Z then
        let w1 := if cancelled_ base then w
                  else invoke_ResolveCb this callback Failure [] w in
        (delete_this this w1, false)
      else
        let base1 := if fallback then base else set_completed true base in
        let w1 := mark_dirty_if_refused fallback status w in
        let address_list := answer_addresses status addrinfo in
        let resolution_status := answer_status status in
        let base2 :=
          if (status =? ARES_SUCCESS)%Z && negb (is_nil address_list)
          then set_completed true base1 else base1 in
        let w2 := store this (PendingResolution base2 callback fallback) w1 in
        if completed_ base2 then
          let w3 := if cancelled_ base2 then w2
                    else invoke_ResolveCb this callback resolution_status
                           address_list w2 in
          if owned_ base2 then (delete_this this w3, false) else (w3, false)
        else if fallback then
          (store this (PendingResolution base2 callback false) w2, true)
        else (w2, false)
  | _ => (emit (EvUseAfterFree this) w, false)
  end.

(** [PendingResolution::getAddrInfo] (lines 291-307).  c-ares either runs
    the callback before [ares_getaddrinfo] returns or keeps the request.
    The callback may itself end in [getAddrInfo]; the fuel bounds that
    nesting, and two levels are enough ([getAddrInfo_fuel_enough]). *)
Fixpoint getAddrInfo_fuel (fuel : nat) (this : nat) (family : Z) (w : World)
    : option World :=
  match fuel with
  | O => None
  | S fuel' =>
      match objects w !! this with
      | Some q =>
          let channel := ares_channel_ (query_base q) in
          let name := dns_name_ (query_base q) in
          let w1 := emit (EvGetAddrInfo channel this name family) w in
          match ares_getaddrinfo_now lib name family with
          | Some a =>
              let '(w2, again) :=
                onAresGetAddrInfoCallback_body this (ans_status a)
                  (ans_timeouts a) (ans_addrinfo a) w1 in
              if again then getAddrInfo_fuel fuel' this AF_INET w2 else Some w2
          | None =>
              Some (add_request
                      {| req_channel := channel; req_arg := this;
                         req_kind := ReqGetAddrInfo family |} w1)
          end
      | None => Some (emit (EvUseAfterFree this) w)
      end
  end.

Definition getAddrInfo (this : nat) (family : Z) (w : World) : World :=
  match getAddrInfo_fuel 2 this family w with
  | Some w' => w'
  | None => w
  end.

(** The whole of [onAresGetAddrInfoCallback]. *)
Definition onAresGetAddrInfoCallback (this : nat) (status timeouts : Z)
    (addrinfo : ares_addrinfo) (w : World) : World :=
  let '(w1, again) :=
    onAresGetAddrInfoCallback_body this status timeouts addrinfo w in
  if again then getAddrInfo this AF_INET w1 else w1.

(** The first branch of [PendingSrvResolution::onAresSrvStartCallback]
    (lines 321-325). *)
Definition onAresSrvStartCallback_destruction (this : nat) (w : World) : World :=
  delete_this this w.

(** [ares_destroy]: every request in flight on the channel is completed
    with [ARES_EDESTRUCTION], no answer attached. *)
Definition deliver_destruction (w : World) (r : AresRequest) : World :=
  match req_kind r with
  | ReqGetAddrInfo _ =>
      onAresGetAddrInfoCallback (req_arg r) ARES_EDESTRUCTION 0 None w
  | ReqSrvQuery => onAresSrvStartCallback_destruction (req_arg r) w
  end.

Definition ares_destroy (channel : nat) (w : World) : World :=
  let doomed := List.filter (fun r => req_channel r =? channel) (requests w) in
  let kept := List.filter (fun r => negb (req_channel r =? channel)) (requests w) in
  fold_left deliver_destruction doomed
    (set_requests kept (emit (EvAresDestroy channel) w)).

(** [DnsResolverImpl::initializeChannel] (lines 81-95): [ares_init_options]
    makes a new channel. *)
Definition initializeChannel (w : World) : World :=
  let w1 := set_dirty_channel false w in
  let channel := S (channel_ w1) in
  emit (EvAresInit channel) (set_channel channel w1).

(** [DnsResolverImpl::preparePendingResolution] (lines 246-261).  The
    [unique_ptr] frees a completed query when the function returns; the
    null handle is [None].  The timer of the event loop is not modelled. *)
Definition preparePendingResolution (pending_resolution : nat) (w : World)
    : option nat * World :=
  match objects w !! pending_resolution with
  | Some q =>
      if completed_ (query_base q) then
        (None, delete_this pending_resolution w)
      else
        (Some pending_resolution,
         store pending_resolution (with_base (set_owned true) q) w)
  | None => (None, emit (EvUseAfterFree pending_resolution) w)
  end.

(** [DnsResolverImpl::resolve] (lines 263-289). *)
Definition resolve (dns_name : string) (dns_lookup_family : DnsLookupFamily)
    (callback : ResolveCb) (w : World) : option nat * World :=
  let w1 := if dirty_channel_ w
            then initializeChannel (ares_destroy (channel_ w) w) else w in
  let '(pending_resolution, w2) :=
    alloc (PendingResolution
             {| ares_channel_ := channel_ w1; dns_name_ := dns_name;
                completed_ := false; owned_ := false; cancelled_ := false |}
             callback
             (match dns_lookup_family with Auto => true | _ => false end)) w1 in
  let w3 :=
    match dns_lookup_family with
    | V4Only => getAddrInfo pending_resolution AF_INET w2
    | _ => getAddrInfo pending_resolution AF_INET6 w2
    end in
  preparePendingResolution pending_resolution w3.

(** One turn of the fan-out loop of [onAresSrvStartCallback]
    (lines 345-363): [resolver_->resolve(current_reply->host,
    this->dns_lookup_family_, lambda)], the handle is dropped. *)
Definition srv_fan_out_step (this : nat) (srv_records : list SrvEntry)
    (w : World) (current_reply : ares_srv_reply) : World :=
  match objects w !! this with
  | Some (PendingSrvResolution _ _ family) =>
      snd (resolve (host current_reply) family
             (SrvSubResolveCb this 0 srv_records current_reply) w)
  | _ => emit (EvUseAfterFree this) w
  end.

(** [PendingSrvResolution::onAresSrvStartCallback] (lines 318-379). *)
Definition onAresSrvStartCallback (this : nat) (status timeouts : Z)
    (buf : list Byte.byte) (w : World) : World :=
  if (status =? ARES_EDESTRUCTION)%Z then
    onAresSrvStartCallback_destruction this w
  else if (status =? ARES_SUCCESS)%Z then
    let '(status1, srv_reply) := ares_parse_srv_reply lib buf in
    if (status1 =? ARES_SUCCESS)%Z then
      let srv_records :=
        map (fun current_reply =>
               SrvDnsResponse (host current_reply) (port current_reply)
                 (ttl current_reply) (weight current_reply))
            srv_reply in
      fold_left (srv_fan_out_step this srv_records) srv_reply w
    else onAresSrvFinishCallback this [] w
  else onAresSrvFinishCallback this [] w.

(** [PendingSrvResolution::getSrvByName] (lines 409-416). *)
Definition getSrvByName (this : nat) (w : World) : World :=
  match objects w !! this with
  | Some q =>
      let channel := ares_channel_ (query_base q) in
      let name := dns_name_ (query_base q) in
      let w1 := emit (EvAresQuery channel this name) w in
      match ares_query_now lib name with
      | Some a =>
          onAresSrvStartCallback this (ans_status a) (ans_timeouts a)
            (ans_buf a) w1
      | None =>
          add_request {| req_channel := channel; req_arg := this;
                         req_kind := ReqSrvQuery |} w1
      end
  | None => emit (EvUseAfterFree this) w
  end.

(** [DnsResolverImpl::resolveSrv] (lines 309-316). *)
Definition resolveSrv (dns_name : string) (dns_lookup_family : DnsLookupFamily)
    (callback : ResolveSrvCb) (w : World) : option nat * World :=
  let '(pending_srv_res, w1) :=
    alloc (PendingSrvResolution
             {| ares_channel_ := channel_ w; dns_name_ := dns_name;
                completed_ := false; owned_ := false; cancelled_ := false |}
             callback dns_lookup_family) w in
  preparePendingResolution pending_srv_res (getSrvByName pending_srv_res w1).

(** [DnsResolverImpl::~DnsResolverImpl] (lines 39-42). *)
Definition destroy_DnsResolverImpl (w : World) : World :=
  ares_destroy (channel_ w) w.

(** Modelled from the spec: [ActiveDnsQuery::cancel] of the two query
    classes is defined in common/network/dns_impl.h; the spec has it set
    the cancellation flag of the owning query object and do nothing else.
    A handle is only valid while its object lives. *)
Definition cancel (handle : nat) (w : World) : World :=
  match objects w !! handle with
  | Some q => store handle (with_base (set_cancelled true) q) w
  | None => emit (EvUseAfterFree handle) w
  end.

(** c-ares completes the request that carries [arg] while it processes
    its sockets or its timeouts ([ares_process_fd], driven from
    [onEventCallback]). *)
Fixpoint take_request (arg : nat) (rs : list AresRequest)
    : option (AresRequest * list AresRequest) :=
  match rs with
  | [] => None
  | r :: rs' =>
      if req_arg r =? arg then Some (r, rs')
      else match take_request arg rs' with
           | Some (r', rest) => Some (r', r :: rest)
           | None => None
           end
  end.

Definition ares_process (arg : nat) (a : AresAnswer) (w : World) : World :=
  match take_request arg (requests w) with
  | Some (r, rest) =>
      let w1 := set_requests rest w in
      match req_kind r with
      | ReqGetAddrInfo _ =>
          onAresGetAddrInfoCallback arg (ans_status a) (ans_timeouts a)
            (ans_addrinfo a) w1
      | ReqSrvQuery =>
          onAresSrvStartCallback arg (ans_status a) (ans_timeouts a)
            (ans_buf a) w1
      end
  | None => w
  end.

(** What can happen to a resolver, from its callers and from the event
    loop. *)
Inductive Input :=
| CallResolve (dns_name : string) (family : DnsLookupFamily) (c : nat)
| CallResolveSrv (dns_name : string) (family : DnsLookupFamily) (c : nat)
| CallCancel (handle : nat)
| AresCompletes (arg : nat) (a : AresAnswer)
| DestroyResolver.

Definition step (w : World) (i : Input) : World :=
  match i with
  | CallResolve n f c => snd (resolve n f (CallerResolveCb c) w)
  | CallResolveSrv n f c => snd (resolveSrv n f c w)
  | CallCancel h => cancel h w
  | AresCompletes arg a => ares_process arg a w
  | DestroyResolver => destroy_DnsResolverImpl w
  end.

Definition run (w : World) (inputs : list Input) : World :=
  fold_left step inputs w.

End Resolver.

(** A resolver just constructed: channel 0, clean, nothing allocated. *)
Definition initial_world : World :=
  {| dirty_channel_ := false; channel_ := 0; objects := ∅; next_object := 0;
     requests := []; trace := [] |}.

(** ** Callbacks that call into the resolver *)

(** What the callbacks of the callers do to the resolver while they run.
    A callback may call [resolve], [resolveSrv] and [cancel] or destroy
    the resolver before it returns; here it is any function on the world,
    applied where the callback is invoked.  The first argument is the
    number that identifies the callback. *)
Record CallerCallbacks := {
  resolve_callback_ :
    nat -> ResolutionStatus -> list DnsResponse -> World -> World;
  resolve_srv_callback_ : nat -> list SrvEntry -> World -> World
}.

(** Callbacks that return without calling into the resolver. *)
Definition inert_callbacks : CallerCallbacks :=
  {| resolve_callback_ := fun _ _ _ w => w;
     resolve_srv_callback_ := fun _ _ w => w |}.

(** The completion of an address query with the callbacks of the callers
    left open.  The members that the source reads after a callback has
    returned are read from the heap as the callback left it. *)
Module Reentrant.
Section Resolver.

Variable lib : AresLibrary.
Variable callers : CallerCallbacks.

(** [PendingSrvResolution::onAresSrvFinishCallback] (lines 381-407);
    [owned_] is read at line 402, after the callback. *)
Definition onAresSrvFinishCallback (this : nat) (srv_records : list SrvEntry)
    (w : World) : World :=
  match objects w !! this with
  | Some (PendingSrvResolution base callback family) =>
      let base1 := if is_nil srv_records then base else set_completed true base in
      let w1 := store this (PendingSrvResolution base1 callback family) w in
      if completed_ base1 then
        let w2 :=
          if cancelled_ base1 then w1
          else resolve_srv_callback_ callers callback srv_records
                 (emit (EvResolveSrvCb this callback srv_records) w1) in
        match objects w2 !! this with
        | Some q => if owned_ (query_base q) then delete_this this w2 else w2
        | None => emit (EvUseAfterFree this) w2
        end
      else w1
  | _ => emit (EvUseAfterFree this) w
  end.

(** Calling a [ResolveCb]: the callback of a caller, or the closure of the
    SRV fan-out (lines 350-361). *)
Definition invoke_ResolveCb (query : nat) (cb : ResolveCb)
    (status : ResolutionStatus) (response : list DnsResponse) (w : World) : World :=
  match cb with
  | CallerResolveCb c =>
      resolve_callback_ callers c status response
        (emit (EvResolveCb query c status response) w)
  | SrvSubResolveCb this finished srv_records current_reply =>
      let srv_records1 :=
        srv_records ++
        map (fun instance =>
               SrvInstanceImpl
                 (getAddressWithPort (address_ instance) (port current_reply))
                 (priority current_reply) (weight current_reply))
            response in
      let finished1 := S finished in
      if finished1 =? length srv_records1
      then onAresSrvFinishCallback this srv_records1 w
      else w
  end.

(** [PendingResolution::onAresGetAddrInfoCallback] (lines 97-202) up to its
    last statement; [owned_] is read at line 189, after the callback. *)
Definition onAresGetAddrInfoCallback_body (this : nat) (status timeouts : Z)
    (addrinfo : ares_addrinfo) (w : World) : World * bool :=
  match objects w !! this with
  | Some (PendingResolution base callback fallback) =>
      if (status =? ARES_EDESTRUCTION)%Z then
        let w1 := if cancelled_ base then w
                  else invoke_ResolveCb this callback Failure [] w in
        (delete_this this w1, false)
      else
        let base1 := if fallback then base else set_completed true base in
        let w1 := mark_dirty_if_refused fallback status w in
        let address_list := answer_addresses status addrinfo in
        let resolution_status := answer_status status in
        let base2 :=
          if (status =? ARES_SUCCESS)%Z && negb (is_nil address_list)
          then set_completed true base1 else base1 in
        let w2 := store this (PendingResolution base2 callback fallback) w1 in
        if completed_ base2 then
          let w3 := if cancelled_ base2 then w2
                    else invoke_ResolveCb this callback resolution_status
                           address_list w2 in
          match objects w3 !! this with
          | Some q =>
              if owned_ (query_base q) then (delete_this this w3, false)
              else (w3, false)
          | None => (emit (EvUseAfterFree this) w3, false)
          end
        else if fallback then
          (store this (PendingResolution base2 callback false) w2, true)
        else (w2, false)
  | _ => (emit (EvUseAfterFree this) w, false)
  end.

(** [PendingResolution::getAddrInfo] (lines 291-307), with fuel as in
    [getAddrInfo_fuel]. *)
Fixpoint getAddrInfo_fuel (fuel : nat) (this : nat) (family : Z) (w : World)
    : option World :=
  match fuel with
  | O => None
  | S fuel' =>
      match objects w !! this with
      | Some q =>
          let channel := ares_channel_ (query_base q) in
          let name := dns_name_ (query_base q) in
          let w1 := emit (EvGetAddrInfo channel this name family) w in
          match ares_getaddrinfo_now lib name family with
          | Some a =>
              let '(w2, again) :=
                onAresGetAddrInfoCallback_body this (ans_status a)
                  (ans_timeouts a) (ans_addrinfo a) w1 in
              if again then getAddrInfo_fuel fuel' this AF_INET w2 else Some w2
          | None =>
              Some (add_request
                      {| req_channel := channel; req_arg := this;
                         req_kind := ReqGetAddrInfo family |} w1)
          end
      | None => Some (emit (EvUseAfterFree this) w)
      end
  end.

Definition getAddrInfo (this : nat) (family : Z) (w : World) : World :=
  match getAddrInfo_fuel 2 this family w with
  | Some w' => w'
  | None => w
  end.

(** The whole of [onAresGetAddrInfoCallback]. *)
Definition onAresGetAddrInfoCallback (this : nat) (status timeouts : Z)
    (addrinfo : ares_addrinfo) (w : World) : World :=
  let '(w1, again) :=
    onAresGetAddrInfoCallback_body this status timeouts addrinfo w in
  if again then getAddrInfo this AF_INET w1 else w1.

End Resolver.
End Reentrant.

(** A callback that cancels the query behind handle [h]. *)
Definition cancelling_callbacks (h : nat) : CallerCallbacks :=
  {| resolve_callback_ := fun _ _ _ w => cancel h w;
     resolve_srv_callback_ := fun _ _ w => cancel h w |}.

(** A callback that asks for a new lookup of [name]. *)
Definition resolving_callbacks (lib : AresLibrary) (name : string)
    : CallerCallbacks :=
  {| resolve_callback_ :=
       fun c _ _ w => snd (resolve lib name V4Only (CallerResolveCb c) w);
     resolve_srv_callback_ := fun _ _ w => w |}.

(** ** The validation resolver (config_validation/dns.cc) *)

Module ValidationDnsResolver.

(** The validation resolver has no state; a call is described by the
    handle it returns and the callback invocations made before it
    returns. *)
Inductive Invocation :=
| InvokedResolveCb (c : nat) (status : ResolutionStatus)
    (response : list DnsResponse)
| InvokedResolveSrvCb (c : nat) (records : list SrvEntry).

Definition resolve (dns_name : string) (dns_lookup_family : DnsLookupFamily)
    (callback : nat) : option nat * list Invocation :=
  (None, [InvokedResolveCb callback Success []]).

Definition resolveSrv (dns_name : string) (dns_lookup_family : DnsLookupFamily)
    (callback : nat) : option nat * list Invocation :=
  (None, [InvokedResolveSrvCb callback []]).

End ValidationDnsResolver.

(** ** The resolvers of the constructor (dns_impl.cc, lines 44-68) *)

(** What [maybeBuildResolversCsv] reads of an [Address::Ip]:
    [addressAsString()], [port()] and whether [ipv6()] is non-null. *)
Record Ip := {
  addressAsString : string;
  ip_port : N;
  ipv6 : bool
}.

(** What it reads of an [Address::Instance]: [asString()] and [ip()],
    null for an address that is no IP address (a pipe). *)
Record InstanceConstSharedPtr := {
  asString : string;
  ip : option Ip
}.

(** A result or a thrown [EnvoyException] with its message. *)
Inductive Exceptional (A : Type) :=
| Returns (a : A)
| Throws (what : string).
Arguments Returns {A} a.
Arguments Throws {A} what.

(** [fmt::format(ipv6 ? "[{}]:{}" : "{}:{}", addressAsString(), port())]. *)
Definition format_resolver (i : Ip) : string :=
  if ipv6 i
  then "[" +:+ addressAsString i +:+ "]:" +:+ pretty (ip_port i)
  else addressAsString i +:+ ":" +:+ pretty (ip_port i).

Definition not_an_IP_address (resolver : InstanceConstSharedPtr) : string :=
  "DNS resolver '" +:+ asString resolver +:+ "' is not an IP address".

(** The loop of lines 52-66 over the resolvers that are left, with the
    vector [resolver_addrs] built so far. *)
Fixpoint resolver_addrs_loop (resolvers : list InstanceConstSharedPtr)
    (resolver_addrs : list string) : Exceptional (list string) :=
  match resolvers with
  | [] => Returns resolver_addrs
  | resolver :: rest =>
      match ip resolver with
      | None => Throws (not_an_IP_address resolver)
      | Some i => resolver_addrs_loop rest (resolver_addrs ++ [format_resolver i])
      end
  end.

(** [DnsResolverImpl::maybeBuildResolversCsv]; [absl::nullopt] is [None],
    [absl::StrJoin(resolver_addrs, ",")] is [String.concat]. *)
Definition maybeBuildResolversCsv (resolvers : list InstanceConstSharedPtr)
    : Exceptional (option string) :=
  if is_nil resolvers then Returns None
  else
    match resolver_addrs_loop resolvers [] with
    | Throws what => Throws what
    | Returns resolver_addrs => Returns (Some (String.concat "," resolver_addrs))
    end.

(** The first resolver that is no IP address. *)
Definition first_non_ip (resolvers : list InstanceConstSharedPtr)
    : option InstanceConstSharedPtr :=
  List.find (fun resolver => match ip resolver with None => true | _ => false end)
    resolvers.

(** ** The bridge to the event loop (dns_impl.cc, lines 204-244) *)

(** The bits [Event::FileReadyType::Read] and [::Write] of a readiness
    mask (envoy/event/file_event.h); the resolver only names them. *)
Record FileReadyType := { Read : Z; Write : Z }.

Record timeval := { tv_sec : Z; tv_usec : Z }.

(** What the resolver asks of the dispatcher, of its file events and of
    its timer. *)
Inductive DispatcherCall :=
| CreateFileEvent (fd : Z) (events : Z)
| DestroyFileEvent (fd : Z)
| SetEnabled (fd : Z) (events : Z)
| EnableTimer (ms : Z)
| DisableTimer.

(** [events_] maps a descriptor to its file event, which is described by
    the mask it is enabled for; [timer_] is the duration the timer is
    armed for, if it is armed. *)
Record Bridge := {
  events_ : gmap Z Z;
  timer_ : option Z;
  dispatcher_calls : list DispatcherCall
}.

Definition no_bridge : Bridge :=
  {| events_ := ∅; timer_ := None; dispatcher_calls := [] |}.

(** [DnsResolverImpl::updateAresTimer] (lines 204-216); [timeout_result]
    is what [ares_timeout] returns, [None] for the null pointer.  The
    division of C++ truncates; the sum is taken in [Z], an overflow of the
    signed members of [timeval] being undefined in C++. *)
Definition updateAresTimer (timeout_result : option timeval) (b : Bridge)
    : Bridge :=
  match timeout_result with
  | Some tv =>
      let ms := (tv_sec tv * 1000 + tv_usec tv ÷ 1000)%Z in
      {| events_ := events_ b; timer_ := Some ms;
         dispatcher_calls := dispatcher_calls b ++ [EnableTimer ms] |}
  | None =>
      {| events_ := events_ b; timer_ := None;
         dispatcher_calls := dispatcher_calls b ++ [DisableTimer] |}
  end.

(** The mask of lines 242-243; an [int] counts as true when it is not
    0. *)
Definition enabled_events (ft : FileReadyType) (read write : Z) : Z :=
  Z.lor (if (read =? 0)%Z then 0 else Read ft)
        (if (write =? 0)%Z then 0 else Write ft).

(** [DnsResolverImpl::onAresSocketStateChange] (lines 225-244). *)
Definition onAresSocketStateChange (ft : FileReadyType)
    (timeout_result : option timeval) (fd read write : Z) (b : Bridge)
    : Bridge :=
  let b1 := updateAresTimer timeout_result b in
  let it := events_ b1 !! fd in
  if (read =? 0)%Z && (write =? 0)%Z then
    match it with
    | Some _ =>
        {| events_ := delete fd (events_ b1); timer_ := timer_ b1;
           dispatcher_calls := dispatcher_calls b1 ++ [DestroyFileEvent fd] |}
    | None => b1
    end
  else
    let b2 :=
      match it with
      | None =>
          {| events_ := <[fd := Z.lor (Read ft) (Write ft)]> (events_ b1);
             timer_ := timer_ b1;
             dispatcher_calls :=
               dispatcher_calls b1
               ++ [CreateFileEvent fd (Z.lor (Read ft) (Write ft))] |}
      | Some _ => b1
      end in
    {| events_ := <[fd := enabled_events ft read write]> (events_ b2);
       timer_ := timer_ b2;
       dispatcher_calls :=
         dispatcher_calls b2 ++ [SetEnabled fd (enabled_events ft read write)] |}.

(** One call of the socket state callback by c-ares, with what
    [ares_timeout] answers at that moment. *)
Record StateChange := {
  sc_timeout : option timeval;
  sc_fd : Z;
  sc_read : Z;
  sc_write : Z
}.

Definition state_change (ft : FileReadyType) (b : Bridge) (c : StateChange)
    : Bridge :=
  onAresSocketStateChange ft (sc_timeout c) (sc_fd c) (sc_read c) (sc_write c) b.

Definition state_changes (ft : FileReadyType) (b : Bridge)
    (l : list StateChange) : Bridge :=
  fold_left (state_change ft) l b.

(** The latest state change for [fd] in a sequence. *)
Fixpoint last_change (fd : Z) (l : list StateChange) : option StateChange :=
  match l with
  | [] => None
  | c :: l' =>
      match last_change fd l' with
      | Some c' => Some c'
      | None => if (sc_fd c =? fd)%Z then Some c else None
      end
  end.

(** What the watch of a descriptor is after a state change for it. *)
Definition watch_after (ft : FileReadyType) (c : StateChange) : option Z :=
  if (sc_read c =? 0)%Z && (sc_write c =? 0)%Z then None
  else Some (enabled_events ft (sc_read c) (sc_write c)).

Definition creations (fd : Z) (calls : list DispatcherCall) : nat :=
  length (List.filter (fun c => match c with
                                | CreateFileEvent fd' _ => (fd' =? fd)%Z
                                | _ => false
                                end) calls).

Definition destructions (fd : Z) (calls : list DispatcherCall) : nat :=
  length (List.filter (fun c => match c with
                                | DestroyFileEvent fd' => (fd' =? fd)%Z
                                | _ => false
                                end) calls).

(** Every file event that was created and not destroyed is in the map,
    once. *)
Definition balanced (b : Bridge) : Prop :=
  forall fd,
    creations fd (dispatcher_calls b)
    = destructions fd (dispatcher_calls b)
      + (match events_ b !! fd with Some _ => 1 | None => 0 end).

(** ** Reading a trace *)

(** The events that a run has added to a trace. *)
Definition events_since (w w' : World) : list Event :=
  drop (length (trace w)) (trace w').

(** The families of the address requests in a trace, in order. *)
Definition issued_families (tr : list Event) : list Z :=
  omap (fun e => match e with EvGetAddrInfo _ _ _ f => Some f | _ => None end) tr.

(** An invocation of the caller's callback on behalf of query [h]. *)
Definition is_callback_of (h : nat) (e : Event) : bool :=
  match e with
  | EvResolveCb q _ _ _ => q =? h
  | EvResolveSrvCb q _ _ => q =? h
  | _ => false
  end.

Definition is_caller_callback (e : Event) : bool :=
  match e with
  | EvResolveCb _ _ _ _ => true
  | EvResolveSrvCb _ _ _ => true
  | _ => false
  end.

(** The number of times a caller's callback was invoked. *)
Definition callback_count (tr : list Event) : nat :=
  length (List.filter is_caller_callback tr).

(** Every answer record has its own entry, with the record's own TTL. *)
Definition per_record_ttl (nodes : list ares_addrinfo_node)
    (response : list DnsResponse) : Prop :=
  Forall2 (fun ai r => ttl_ r = ai_ttl ai) nodes response.

(** What the IPv4 branch (lines 135-145) makes of an answer record,
    whatever the record's own family: the 4 octets at offset 4 of its
    address, port 0, the record's TTL. *)
Definition converted_as_ipv4 (ai : ares_addrinfo_node) (r : DnsResponse)
    : Prop :=
  r = {| address_ :=
           Ipv4Instance
             [ai_addr ai 4; ai_addr ai 5; ai_addr ai 6; ai_addr ai 7] 0;
         ttl_ := ai_ttl ai |}.

(** What the IPv6 branch (lines 147-156) makes of an answer record,
    whatever the record's own family: the 16 octets at offset 8 of its
    address, port 0, the record's TTL. *)
Definition converted_as_ipv6 (ai : ares_addrinfo_node) (r : DnsResponse)
    : Prop :=
  r = {| address_ :=
           Ipv6Instance
             [ai_addr ai 8; ai_addr ai 9; ai_addr ai 10; ai_addr ai 11;
              ai_addr ai 12; ai_addr ai 13; ai_addr ai 14; ai_addr ai 15;
              ai_addr ai 16; ai_addr ai 17; ai_addr ai 18; ai_addr ai 19;
              ai_addr ai 20; ai_addr ai 21; ai_addr ai 22; ai_addr ai 23] 0;
         ttl_ := ai_ttl ai |}.

(** ** Libraries and answers used in the examples *)

(** Every request goes to the network; no SRV answer parses. *)
Definition network_only : AresLibrary :=
  {| ares_getaddrinfo_now := fun _ _ => None;
     ares_query_now := fun _ => None;
     ares_parse_srv_reply := fun _ => (ARES_EBADRESP, []) |}.

Definition addrinfo_answer (status : Z) (addrinfo : ares_addrinfo) : AresAnswer :=
  {| ans_status := status; ans_timeouts := 0; ans_addrinfo := addrinfo;
     ans_buf := [] |}.

Definition srv_answer (status : Z) (buf : list Byte.byte) : AresAnswer :=
  {| ans_status := status; ans_timeouts := 0; ans_addrinfo := None;
     ans_buf := buf |}.

(** c-ares sends every request to the network and parses every SRV answer
    into the given records. *)
Definition srv_library (records : list ares_srv_reply) : AresLibrary :=
  {| ares_getaddrinfo_now := fun _ _ => None;
     ares_query_now := fun _ => None;
     ares_parse_srv_reply := fun _ => (ARES_SUCCESS, records) |}.

(** [sockaddr_in] of 10.0.0.1 and [sockaddr_in6] of 2001:db8::1. *)
Definition sockaddr_10_0_0_1 : list Byte.byte :=
  [Byte.x02; Byte.x00; Byte.x00; Byte.x00; Byte.x0a; Byte.x00; Byte.x00; Byte.x01;
   Byte.x00; Byte.x00; Byte.x00; Byte.x00; Byte.x00; Byte.x00; Byte.x00; Byte.x00].

Definition sockaddr_2001_db8__1 : list Byte.byte :=
  [Byte.x0a; Byte.x00; Byte.x00; Byte.x00; Byte.x00; Byte.x00; Byte.x00; Byte.x00;
   Byte.x20; Byte.x01; Byte.x0d; Byte.xb8; Byte.x00; Byte.x00; Byte.x00; Byte.x00;
   Byte.x00; Byte.x00; Byte.x00; Byte.x00; Byte.x00; Byte.x00; Byte.x00; Byte.x01;
   Byte.x00; Byte.x00; Byte.x00; Byte.x00].

(** In the examples, what lies in memory behind the 16 octets of a
    [sockaddr_in]. *)
Definition behind_sockaddr_in : list Byte.byte :=
  [Byte.xde; Byte.xad; Byte.xbe; Byte.xef; Byte.xde; Byte.xad; Byte.xbe; Byte.xef].

(** Memory that starts with the given octets, zero after them. *)
Definition memory_of (octets : list Byte.byte) : nat -> Byte.byte :=
  fun offset => nth offset octets Byte.x00.

Definition node_10_0_0_1 (ttl : Z) : ares_addrinfo_node :=
  {| ai_family := AF_INET;
     ai_addr := memory_of (sockaddr_10_0_0_1 ++ behind_sockaddr_in);
     ai_ttl := ttl |}.

Definition node_2001_db8__1 (ttl : Z) : ares_addrinfo_node :=
  {| ai_family := AF_INET6; ai_addr := memory_of sockaddr_2001_db8__1;
     ai_ttl := ttl |}.

(** A record of a family that is neither [AF_INET] nor [AF_INET6]. *)
Definition node_unspec (ttl : Z) : ares_addrinfo_node :=
  {| ai_family := 0;
     ai_addr := memory_of (sockaddr_10_0_0_1 ++ behind_sockaddr_in);
     ai_ttl := ttl |}.

(** c-ares answers at once: [AF_INET] lookups from the hosts file, any
    other lookup with not-found, and it rejects the SRV name before any
    packet is sent. *)
Definition immediate_library : AresLibrary :=
  {| ares_getaddrinfo_now := fun _ family =>
       if (family =? AF_INET)%Z
       then Some (addrinfo_answer ARES_SUCCESS (Some [node_10_0_0_1 0]))
       else Some (addrinfo_answer ARES_ENOTFOUND None);
     ares_query_now := fun _ => Some (srv_answer ARES_EBADNAME []);
     ares_parse_srv_reply := fun _ => (ARES_EBADRESP, []) |}.

Definition target_a : ares_srv_reply :=
  {| host := "a.example"; priority := 10; weight := 5; port := 8080; ttl := 60 |}.

Definition target_b : ares_srv_reply :=
  {| host := "b.example"; priority := 20; weight := 1; port := 8081; ttl := 60 |}.

(** An address query is outstanding (the caller holds handle 0). *)
Definition one_auto_query : World :=
  run network_only initial_world [CallResolve "upstream.example" Auto 7].

(** A resolver whose channel a refused connection has marked dirty. *)
Definition refused_world : World :=
  run network_only initial_world
    [CallResolve "a.example" V4Only 1;
     AresCompletes 0 (addrinfo_answer ARES_ECONNREFUSED None)].

(** A lookup that fails although c-ares hands over a record. *)
Definition failed_lookup : list Input :=
  [CallResolve "a.example" V4Only 1;
   AresCompletes 0 (addrinfo_answer ARES_ENOTFOUND (Some [node_10_0_0_1 60]))].

(** A lookup answered with two records. *)
Definition answered_lookup : list Input :=
  [CallResolve "a.example" V6Only 1;
   AresCompletes 0 (addrinfo_answer ARES_SUCCESS
                      (Some [node_2001_db8__1 60; node_2001_db8__1 30]))].

(** An SRV query is in flight and a refused address lookup has marked the
    channel dirty. *)
Definition srv_pending_on_dirty_channel : World :=
  run (srv_library [target_a]) initial_world
    [CallResolveSrv "_svc._tcp.example" V4Only 9;
     CallResolve "b.example" V4Only 1;
     AresCompletes 1 (addrinfo_answer ARES_ECONNREFUSED None)].

(** An SRV query is in flight on a clean channel. *)
Definition srv_pending : World :=
  run (srv_library [target_a; target_b]) initial_world
    [CallResolveSrv "_svc._tcp.example" V4Only 9].

(** An address lookup and an SRV lookup with two targets, all for IPv4,
    answered one after the other. *)
Definition v4_only_run : list Input :=
  [CallResolve "a.example" V4Only 1;
   CallResolveSrv "_svc._tcp.example" V4Only 2;
   AresCompletes 1 (srv_answer ARES_SUCCESS []);
   AresCompletes 0 (addrinfo_answer ARES_ENOTFOUND None);
   AresCompletes 2 (addrinfo_answer ARES_SUCCESS (Some [node_10_0_0_1 60]))].

(** Two lookups; the first is cancelled and then fails, the second falls
    back to IPv4 and is still in flight when the resolver is destroyed. *)
Definition address_run : list Input :=
  [CallResolve "a.example" V4Only 1;
   CallResolve "b.example" Auto 2;
   CallCancel 0;
   AresCompletes 0 (addrinfo_answer ARES_ENOTFOUND None);
   AresCompletes 1 (addrinfo_answer ARES_ENODATA None)].

(** Two address lookups are in flight. *)
Definition two_lookups : World :=
  run network_only initial_world
    [CallResolve "a.example" V4Only 1; CallResolve "b.example" V4Only 2].

(** One address lookup was in flight and c-ares has taken its request out
    to complete it. *)
Definition one_lookup_taken : World :=
  set_requests []
    (run network_only initial_world [CallResolve "a.example" V4Only 1]).

(** ** Notions used in the proofs *)

(** The events of a completion that ends an address query of the caller:
    the callback unless cancelled, then the object is freed (always on
    destruction, else when the resolver owns it). *)
Definition final_events (this c : nat) (base : PendingResolutionBase)
    (status : Z) (addrinfo : ares_addrinfo) : list Event :=
  if (status =? ARES_EDESTRUCTION)%Z then
    (if cancelled_ base then [] else [EvResolveCb this c Failure []])
    ++ [EvDelete this]
  else
    (if cancelled_ base then []
     else [EvResolveCb this c (answer_status status)
             (answer_addresses status addrinfo)])
    ++ (if owned_ base then [EvDelete this] else []).

(** [w'] has the trace of [w] and more. *)
Definition extends (w w' : World) : Prop := exists tr, trace w' = trace w ++ tr.

(** The invariant behind cancellation.  [P] is the set of handles on which
    [cancel] has been called: their addresses are never handed out again,
    and as long as their objects live, [cancelled_] is set.  Addresses of
    live objects are below [next_object]. *)
Definition Inv (P : nat -> Prop) (w : World) : Prop :=
  (forall i, is_Some (objects w !! i) -> i < next_object w) /\
  (forall i, P i ->
     i < next_object w /\
     forall q, objects w !! i = Some q -> cancelled_ (query_base q) = true).

(** An event that is no callback of a query in [P]. *)
Definition quiet (P : nat -> Prop) (e : Event) : Prop :=
  forall i, P i -> is_callback_of i e = false.

(** From a world that satisfies the invariant, [w'] is reached with the
    invariant kept and only quiet events added. *)
Definition leads (P : nat -> Prop) (w w' : World) : Prop :=
  Inv P w ->
  Inv P w' /\ exists tr, trace w' = trace w ++ tr /\ Forall (quiet P) tr.

(** How a request of a caller's query that is not yet owned leaves the
    world: ended inside the call, with the callback invoked once and
    nothing in flight, or kept by c-ares, with no callback. *)
Definition ended_inside (this c : nat) (w w' : World) : Prop :=
  requests w' = requests w
  /\ (exists status response,
        List.filter is_caller_callback (events_since w w')
        = [EvResolveCb this c status response])
  /\ (objects w' !! this = None
      \/ exists base fb,
           objects w' !! this
           = Some (PendingResolution base (CallerResolveCb c) fb)
           /\ completed_ base = true).

Definition kept_by_ares (this c : nat) (w w' : World) : Prop :=
  (exists channel family,
     requests w' = requests w ++ [{| req_channel := channel; req_arg := this;
                                     req_kind := ReqGetAddrInfo family |}])
  /\ callback_count (events_since w w') = 0
  /\ exists base fb,
       objects w' !! this = Some (PendingResolution base (CallerResolveCb c) fb)
       /\ completed_ base = false /\ cancelled_ base = false.

(** What [ares_destroy] does to the resolver: the callbacks it runs add to
    the trace and leave the channel member alone. *)
Definition teardown (w w' : World) : Prop :=
  extends w w' /\ channel_ w' = channel_ w.

(** An invocation of the [ResolveCb] of the caller on behalf of the
    address query [h]. *)
Definition is_ResolveCb_of (h : nat) (e : Event) : bool :=
  match e with
  | EvResolveCb q _ _ _ => q =? h
  | _ => false
  end.

(** The number of times the [ResolveCb] of the address query [h] was
    invoked. *)
Definition resolve_callbacks (h : nat) (tr : list Event) : nat :=
  length (List.filter (is_ResolveCb_of h) tr).

(** Nothing is added to the requests in flight, nothing is allocated and
    no [ResolveCb] fires. *)
Definition silent (w w' : World) : Prop :=
  requests w' = requests w /\ next_object w' = next_object w
  /\ forall h, resolve_callbacks h (trace w') = resolve_callbacks h (trace w).

(** As [silent], but the [ResolveCb] of [this] may have fired once. *)
Definition fired (this : nat) (w w' : World) : Prop :=
  requests w' = requests w /\ next_object w' = next_object w
  /\ (forall h, h <> this ->
        resolve_callbacks h (trace w') = resolve_callbacks h (trace w))
  /\ resolve_callbacks this (trace w') <= S (resolve_callbacks this (trace w)).

(** One request for [this] went to c-ares and no [ResolveCb] fired. *)
Definition asked (this : nat) (w w' : World) : Prop :=
  (exists r, requests w' = requests w ++ [r] /\ req_arg r = this)
  /\ next_object w' = next_object w
  /\ forall h, resolve_callbacks h (trace w') = resolve_callbacks h (trace w).

(** The invariant of a running resolver behind "at most once": requests
    in flight have distinct owners, whose callbacks have not fired; no
    callback has fired for an address not yet handed out; no callback has
    fired twice. *)
Definition Once (w : World) : Prop :=
  NoDup (map req_arg (requests w))
  /\ (forall r, r ∈ requests w ->
        req_arg r < next_object w
        /\ resolve_callbacks (req_arg r) (trace w) = 0)
  /\ (forall h, next_object w <= h -> resolve_callbacks h (trace w) = 0)
  /\ (forall h, resolve_callbacks h (trace w) <= 1).

(** The channel that the query at address [i] was created on, while the
    query lives. *)
Definition channel_of (w : World) (i : nat) : option nat :=
  match objects w !! i with
  | Some q => Some (ares_channel_ (query_base q))
  | None => None
  end.

(** The resolver keeps its channel, and queries are only freed or updated
    in place. *)
Definition settled (w w' : World) : Prop :=
  channel_ w' = channel_ w
  /\ forall i, channel_of w' i = None \/ channel_of w' i = channel_of w i.

(** As [settled], with the same requests in flight. *)
Definition steady (w w' : World) : Prop :=
  settled w w' /\ requests w' = requests w.

(** As [settled], and at most one request was handed to c-ares: for
    [this], on the channel that [this] was created on. *)
Definition issues (this : nat) (w w' : World) : Prop :=
  settled w w'
  /\ (requests w' = requests w
      \/ exists r, requests w' = requests w ++ [r] /\ req_arg r = this
                   /\ channel_of w this = Some (req_channel r)).

(** The query at [i], if it lives, was created on the channel that the
    resolver uses now. *)
Definition on_current_channel (w : World) (i : nat) : Prop :=
  channel_of w i = None \/ channel_of w i = Some (channel_ w).

(** Every request in flight is on the channel of the resolver, and so is
    the query that waits for it. *)
Definition Current (w : World) : Prop :=
  forall r, r ∈ requests w ->
    req_channel r = channel_ w /\ on_current_channel w (req_arg r).

(** An event whose answer, if it is an invocation of a [ResolveCb] of a
    caller, satisfies [ok]. *)
Definition answers (ok : ResolutionStatus -> list DnsResponse -> Prop)
    (e : Event) : Prop :=
  match e with
  | EvResolveCb _ _ status response => ok status response
  | _ => True
  end.

(** [w'] has the trace of [w] and more, and every answer added satisfies
    [ok]. *)
Definition adds (ok : ResolutionStatus -> list DnsResponse -> Prop)
    (w w' : World) : Prop :=
  exists tr, trace w' = trace w ++ tr /\ Forall (answers ok) tr.

(** [Address::Ip::port()] and the IP version of an instance. *)
Definition port_of (inst : Instance) : Z :=
  match inst with
  | Ipv4Instance _ p => p
  | Ipv6Instance _ p => p
  end.

Definition is_Ipv4Instance (inst : Instance) : bool :=
  match inst with Ipv4Instance _ _ => true | Ipv6Instance _ _ => false end.

(** An address list as [onAresGetAddrInfoCallback] builds it: one IP
    version throughout, no port. *)
Definition plain_addresses (response : list DnsResponse) : Prop :=
  Forall (fun r => port_of (address_ r) = 0%Z) response
  /\ (Forall (fun r => is_Ipv4Instance (address_ r) = true) response
      \/ Forall (fun r => is_Ipv4Instance (address_ r) = false) response).

(** The events of [ares_destroy] and [ares_init_options]. *)
Definition is_channel_event (e : Event) : bool :=
  match e with
  | EvAresDestroy _ | EvAresInit _ => true
  | _ => false
  end.

(** The resolver keeps its channel: none is destroyed, none is made, and
    no query is allocated. *)
Definition calm (w w' : World) : Prop :=
  channel_ w' = channel_ w /\ next_object w' = next_object w
  /\ exists tr, trace w' = trace w ++ tr
                /\ Forall (fun e => is_channel_event e = false) tr.

(** The callbacks keep the channel of the resolver. *)
Definition callbacks_keep_channel (callers : CallerCallbacks) : Prop :=
  (forall c status response w,
     calm w (resolve_callback_ callers c status response w))
  /\ (forall c records w, calm w (resolve_srv_callback_ callers c records w)).

(** The callbacks leave the dirty flag as it is. *)
Definition callbacks_keep_dirty_flag (callers : CallerCallbacks) : Prop :=
  (forall c status response w,
     dirty_channel_ (resolve_callback_ callers c status response w)
     = dirty_channel_ w)
  /\ (forall c records w,
        dirty_channel_ (resolve_srv_callback_ callers c records w)
        = dirty_channel_ w).

(** The family of the first request that [resolve] makes. *)
Definition first_family (f : DnsLookupFamily) : Z :=
  match f with V4Only => AF_INET | _ => AF_INET6 end.

(** The requests and the events of a fan-out over [replies] that starts at
    object address [first] on [channel]. *)
Definition fan_out_requests (channel first : nat) (family : DnsLookupFamily)
    (replies : list ares_srv_reply) : list AresRequest :=
  imap (fun i _ => {| req_channel := channel; req_arg := first + i;
                      req_kind := ReqGetAddrInfo (first_family family) |})
       replies.

Definition fan_out_events (channel first : nat) (family : DnsLookupFamily)
    (replies : list ares_srv_reply) : list Event :=
  imap (fun i reply => EvGetAddrInfo channel (first + i) (host reply)
                         (first_family family))
       replies.

(** A call that, if it names a lookup family, names [f]. *)
Definition asks_for (f : DnsLookupFamily) (i : Input) : Prop :=
  match i with
  | CallResolve _ g _ => g = f
  | CallResolveSrv _ g _ => g = f
  | _ => True
  end.

(** [q'] is [q] updated in place: the same class, the same family for an
    SRV query, and no fallback that [q] had not. *)
Definition same_kind (q q' : Query) : Prop :=
  match q, q' with
  | PendingResolution _ _ fb, PendingResolution _ _ fb' => fb' = true -> fb = true
  | PendingSrvResolution _ _ g, PendingSrvResolution _ _ g' => g' = g
  | _, _ => False
  end.

(** Queries are freed or updated in place, and no address request is
    issued. *)
Definition keeps (w w' : World) : Prop :=
  (forall i q', objects w' !! i = Some q' ->
     exists q, objects w !! i = Some q /\ same_kind q q')
  /\ exists tr, trace w' = trace w ++ tr /\ issued_families tr = [].

(** A resolver that has only been asked for family [f]: no address query
    may fall back, every SRV query wants [f], and every address request
    so far was for the family of [f]. *)
Definition Single (f : DnsLookupFamily) (w : World) : Prop :=
  (forall i q, objects w !! i = Some q ->
     match q with
     | PendingResolution _ _ fb => fb = false
     | PendingSrvResolution _ _ g => g = f
     end)
  /\ Forall (fun fam => fam = first_family f) (issued_families (trace w)).

Definition is_use_after_free (e : Event) : bool :=
  match e with EvUseAfterFree _ => true | _ => false end.

(** c-ares reports [ARES_EDESTRUCTION] from [ares_destroy] only, never
    from inside [ares_getaddrinfo]. *)
Definition no_destruction_inside_request (lib : AresLibrary) : Prop :=
  forall name family a,
    ares_getaddrinfo_now lib name family = Some a ->
    ans_status a <> ARES_EDESTRUCTION.

(** The caller uses [resolve] only, and cancels only through handles
    whose query lives. *)
Fixpoint address_calls_only (lib : AresLibrary) (w : World)
    (inputs : list Input) : bool :=
  match inputs with
  | [] => true
  | i :: rest =>
      match i with
      | CallResolveSrv _ _ _ => false
      | CallCancel handle =>
          match objects w !! handle with Some _ => true | None => false end
      | _ => true
      end
      && address_calls_only lib (step lib w i) rest
  end.

(** Only the query at [this] is written or freed, nothing is allocated,
    and nothing is used after it was freed. *)
Definition touches (this : nat) (w w' : World) : Prop :=
  next_object w' = next_object w
  /\ (forall i, i <> this -> objects w' !! i = objects w !! i)
  /\ exists tr, trace w' = trace w ++ tr
                /\ Forall (fun e => is_use_after_free e = false) tr.

(** The query at [this] is a live address query of a caller. *)
Definition address_query (this : nat) (owned completed : bool) (w : World)
    : Prop :=
  exists base c fb,
    objects w !! this = Some (PendingResolution base (CallerResolveCb c) fb)
    /\ owned_ base = owned /\ completed_ base = completed.

(** One more request is in flight, for [this]. *)
Definition waits (this : nat) (w w' : World) : Prop :=
  exists r family,
    requests w' = requests w ++ [r] /\ req_arg r = this
    /\ req_kind r = ReqGetAddrInfo family.

(** The heap of a resolver that is used for addresses only: the live
    queries are the owners of the requests in flight, one request each,
    and all are owned by the resolver and not completed.  [pending] are
    the requests that [ares_destroy] or [ares_process] has taken out of
    c-ares and not yet completed. *)
Definition TidyWith (pending : list AresRequest) (w : World) : Prop :=
  NoDup (map req_arg (pending ++ requests w))
  /\ (forall r, r ∈ pending ++ requests w ->
        (exists family, req_kind r = ReqGetAddrInfo family)
        /\ address_query (req_arg r) true false w)
  /\ (forall i, is_Some (objects w !! i) ->
        i < next_object w
        /\ exists r, r ∈ pending ++ requests w /\ req_arg r = i)
  /\ Forall (fun e => is_use_after_free e = false) (trace w).

Definition Tidy (w : World) : Prop := TidyWith [] w.

(** ** Basic facts *)

Ltac base_simpl :=
  cbn [negb andb orb is_nil completed_ set_completed cancelled_ owned_
       set_cancelled set_owned with_base query_base
       ares_channel_ dns_name_ fst snd] in *.

Lemma events_since_app w w' tr :
  trace w' = trace w ++ tr -> events_since w w' = tr.
Proof. intros E. unfold events_since. rewrite E. apply drop_app_length. Qed.

Section Callbacks.

Variable lib : AresLibrary.

Lemma body_destruction this base cb fb timeouts addrinfo w :
  objects w !! this = Some (PendingResolution base cb fb) ->
  onAresGetAddrInfoCallback_body this ARES_EDESTRUCTION timeouts addrinfo w
  = (delete_this this
       (if cancelled_ base then w else invoke_ResolveCb this cb Failure [] w),
     false).
Proof.
  intros Hobj. unfold onAresGetAddrInfoCallback_body. rewrite Hobj.
  reflexivity.
Qed.

Lemma body_final this base cb fb status timeouts addrinfo w :
  objects w !! this = Some (PendingResolution base cb fb) ->
  status <> ARES_EDESTRUCTION ->
  fb = false \/ answer_addresses status addrinfo <> [] ->
  onAresGetAddrInfoCallback_body this status timeouts addrinfo w
  = (let w2 := store this (PendingResolution (set_completed true base) cb fb)
                 (mark_dirty_if_refused fb status w) in
     let w3 := if cancelled_ base then w2
               else invoke_ResolveCb this cb (answer_status status)
                      (answer_addresses status addrinfo) w2 in
     if owned_ base then delete_this this w3 else w3,
     false).
Proof.
  intros Hobj Hst Hfin.
  unfold onAresGetAddrInfoCallback_body, answer_addresses, answer_status,
    mark_dirty_if_refused in *.
  rewrite Hobj.
  destruct (Z.eqb_spec status ARES_EDESTRUCTION) as [|_]; [contradiction|].
  destruct (status =? ARES_SUCCESS)%Z;
    destruct (address_list_of addrinfo) as [|r rs];
    destruct fb; base_simpl;
    try (destruct Hfin as [Hfin|Hfin]; [discriminate Hfin|contradiction Hfin; reflexivity]);
    destruct (cancelled_ base), (owned_ base); reflexivity.
Qed.

Lemma body_fallback this base cb status timeouts addrinfo w :
  objects w !! this = Some (PendingResolution base cb true) ->
  status <> ARES_EDESTRUCTION ->
  completed_ base = false ->
  answer_addresses status addrinfo = [] ->
  onAresGetAddrInfoCallback_body this status timeouts addrinfo w
  = (store this (PendingResolution base cb false) w, true).
Proof.
  intros Hobj Hst Hc Hnil.
  unfold onAresGetAddrInfoCallback_body, answer_addresses in *.
  rewrite Hobj.
  destruct (Z.eqb_spec status ARES_EDESTRUCTION) as [|_]; [contradiction|].
  base_simpl.
  assert (Hb : (if (status =? ARES_SUCCESS)%Z &&
                   negb (is_nil (if (status =? ARES_SUCCESS)%Z
                                 then address_list_of addrinfo else []))
                then set_completed true base else base) = base).
  { rewrite Hnil. base_simpl. rewrite andb_false_r. reflexivity. }
  rewrite Hb, Hc.
  f_equal. unfold store, set_objects. cbn. f_equal.
  apply insert_insert_eq.
Qed.

Lemma body_again this status timeouts addrinfo w w' :
  onAresGetAddrInfoCallback_body this status timeouts addrinfo w = (w', true) ->
  exists base cb,
    objects w' !! this = Some (PendingResolution base cb false).
Proof.
  unfold onAresGetAddrInfoCallback_body.
  destruct (objects w !! this) as [[base cb fb|]|]; [|discriminate..].
  destruct (status =? ARES_EDESTRUCTION)%Z; [discriminate|].
  match goal with |- context [completed_ ?b] => set (base2 := b) end.
  destruct (completed_ base2).
  { destruct (owned_ base2); discriminate. }
  destruct fb; [|discriminate].
  intros [= <-]. exists base2, cb.
  cbn. apply lookup_insert_eq.
Qed.

Lemma body_no_fallback this base cb status timeouts addrinfo w :
  objects w !! this = Some (PendingResolution base cb false) ->
  snd (onAresGetAddrInfoCallback_body this status timeouts addrinfo w) = false.
Proof.
  intros Hobj. unfold onAresGetAddrInfoCallback_body. rewrite Hobj.
  destruct (status =? ARES_EDESTRUCTION)%Z; [reflexivity|].
  match goal with |- context [completed_ ?b] => set (base2 := b) end.
  destruct (completed_ base2); [destruct (owned_ base2)|]; reflexivity.
Qed.

Lemma getAddrInfo_fuel_S n this family w :
  getAddrInfo_fuel lib (S n) this family w
  = match objects w !! this with
    | Some q =>
        let channel := ares_channel_ (query_base q) in
        let name := dns_name_ (query_base q) in
        let w1 := emit (EvGetAddrInfo channel this name family) w in
        match ares_getaddrinfo_now lib name family with
        | Some a =>
            let '(w2, again) :=
              onAresGetAddrInfoCallback_body this (ans_status a)
                (ans_timeouts a) (ans_addrinfo a) w1 in
            if again then getAddrInfo_fuel lib n this AF_INET w2 else Some w2
        | None =>
            Some (add_request
                    {| req_channel := channel; req_arg := this;
                       req_kind := ReqGetAddrInfo family |} w1)
        end
    | None => Some (emit (EvUseAfterFree this) w)
    end.
Proof. reflexivity. Qed.

(** The request of a query whose fallback is consumed: one level is
    enough. *)
Lemma getAddrInfo_fuel_consumed n this base cb family w :
  objects w !! this = Some (PendingResolution base cb false) ->
  getAddrInfo_fuel lib (S n) this family w
  = Some
      (let w1 := emit (EvGetAddrInfo (ares_channel_ base) this (dns_name_ base)
                         family) w in
       match ares_getaddrinfo_now lib (dns_name_ base) family with
       | Some a =>
           fst (onAresGetAddrInfoCallback_body this (ans_status a)
                  (ans_timeouts a) (ans_addrinfo a) w1)
       | None =>
           add_request {| req_channel := ares_channel_ base; req_arg := this;
                          req_kind := ReqGetAddrInfo family |} w1
       end).
Proof.
  intros Hobj. rewrite getAddrInfo_fuel_S. rewrite Hobj. cbn [query_base].
  cbv zeta.
  destruct (ares_getaddrinfo_now lib (dns_name_ base) family) as [a|]; [|reflexivity].
  pose proof (body_no_fallback this base cb (ans_status a) (ans_timeouts a)
                (ans_addrinfo a)
                (emit (EvGetAddrInfo (ares_channel_ base) this (dns_name_ base)
                         family) w) Hobj) as Hs.
  destruct (onAresGetAddrInfoCallback_body _ _ _ _ _) as [w2 again].
  cbn in Hs. subst again. reflexivity.
Qed.

(** Two levels of fuel are enough: more fuel changes nothing and the
    request is always made. *)
Lemma getAddrInfo_fuel_enough n this family w :
  getAddrInfo_fuel lib (S (S n)) this family w
  = Some (getAddrInfo lib this family w).
Proof.
  unfold getAddrInfo.
  rewrite (getAddrInfo_fuel_S (S n)), (getAddrInfo_fuel_S 1).
  destruct (objects w !! this) as [q|]; [|reflexivity].
  cbv zeta.
  destruct (ares_getaddrinfo_now lib _ family) as [a|]; [|reflexivity].
  destruct (onAresGetAddrInfoCallback_body _ _ _ _ _) as [w2 [|]] eqn:Hb;
    [|reflexivity].
  destruct (body_again _ _ _ _ _ _ Hb) as (base & cb & Hobj).
  rewrite (getAddrInfo_fuel_consumed n _ _ _ _ _ Hobj).
  rewrite (getAddrInfo_fuel_consumed 0 _ _ _ _ _ Hobj).
  reflexivity.
Qed.

(** [getAddrInfo] as the source has it: the request is handed to c-ares,
    which may run the callback at once. *)
Lemma getAddrInfo_eq this family w :
  getAddrInfo lib this family w
  = match objects w !! this with
    | Some q =>
        let channel := ares_channel_ (query_base q) in
        let name := dns_name_ (query_base q) in
        let w1 := emit (EvGetAddrInfo channel this name family) w in
        match ares_getaddrinfo_now lib name family with
        | Some a =>
            onAresGetAddrInfoCallback lib this (ans_status a) (ans_timeouts a)
              (ans_addrinfo a) w1
        | None =>
            add_request {| req_channel := channel; req_arg := this;
                           req_kind := ReqGetAddrInfo family |} w1
        end
    | None => emit (EvUseAfterFree this) w
    end.
Proof.
  pose proof (getAddrInfo_fuel_enough 0 this family w) as H.
  rewrite getAddrInfo_fuel_S in H.
  destruct (objects w !! this) as [q|]; [|congruence].
  cbv zeta in *.
  destruct (ares_getaddrinfo_now lib _ family) as [a|]; [|congruence].
  unfold onAresGetAddrInfoCallback.
  destruct (onAresGetAddrInfoCallback_body _ _ _ _ _) as [w2 [|]] eqn:Hb;
    [|congruence].
  destruct (body_again _ _ _ _ _ _ Hb) as (base & cb & Hobj).
  pose proof (getAddrInfo_fuel_enough 0 this AF_INET w2) as H2.
  rewrite (getAddrInfo_fuel_consumed 1 _ _ _ _ _ Hobj) in H2.
  rewrite (getAddrInfo_fuel_consumed 0 _ _ _ _ _ Hobj) in H.
  congruence.
Qed.

(** *** Every operation only adds to the trace *)

Lemma extends_refl w : extends w w.
Proof. exists []. symmetry. apply app_nil_r. Qed.

Lemma extends_trans w1 w2 w3 : extends w1 w2 -> extends w2 w3 -> extends w1 w3.
Proof.
  intros [t1 E1] [t2 E2]. exists (t1 ++ t2). rewrite E2, E1. symmetry. apply app_assoc.
Qed.

Lemma extends_emit e w : extends w (emit e w).
Proof. exists [e]. reflexivity. Qed.

Lemma extends_same w w' : trace w' = trace w -> extends w w'.
Proof. intros E. exists []. rewrite E. symmetry. apply app_nil_r. Qed.

Lemma extends_delete_this this w : extends w (delete_this this w).
Proof. exists [EvDelete this]. reflexivity. Qed.

Ltac extends_auto :=
  lazymatch goal with
  | |- extends ?w ?w => apply extends_refl
  | |- extends ?w (if ?b then _ else _) => destruct b; extends_auto
  | |- extends ?w (emit ?e ?w') =>
      apply (extends_trans w w'); [extends_auto | apply extends_emit]
  | |- extends ?w (delete_this ?t ?w') =>
      apply (extends_trans w w'); [extends_auto | apply extends_delete_this]
  | |- extends ?w (store ?t ?q ?w') =>
      apply (extends_trans w w'); [extends_auto | apply extends_same; reflexivity]
  | |- extends ?w (set_dirty_channel ?v ?w') =>
      apply (extends_trans w w'); [extends_auto | apply extends_same; reflexivity]
  | |- extends ?w (add_request ?v ?w') =>
      apply (extends_trans w w'); [extends_auto | apply extends_same; reflexivity]
  | _ => idtac
  end.

Lemma extends_onAresSrvFinishCallback this srv_records w :
  extends w (onAresSrvFinishCallback this srv_records w).
Proof.
  unfold onAresSrvFinishCallback.
  destruct (objects w !! this) as [[|base cb fam]|]; try apply extends_emit.
  cbv zeta. extends_auto.
Qed.

Lemma extends_invoke_ResolveCb query cb status response w :
  extends w (invoke_ResolveCb query cb status response w).
Proof.
  destruct cb; cbn [invoke_ResolveCb]; [apply extends_emit|].
  cbv zeta. destruct (_ =? _);
    [apply extends_onAresSrvFinishCallback|apply extends_refl].
Qed.

Ltac extends_auto ::=
  lazymatch goal with
  | |- extends ?w ?w => apply extends_refl
  | |- extends ?w (if ?b then _ else _) => destruct b; extends_auto
  | |- extends ?w (emit ?e ?w') =>
      apply (extends_trans w w'); [extends_auto | apply extends_emit]
  | |- extends ?w (delete_this ?t ?w') =>
      apply (extends_trans w w'); [extends_auto | apply extends_delete_this]
  | |- extends ?w (store ?t ?q ?w') =>
      apply (extends_trans w w'); [extends_auto | apply extends_same; reflexivity]
  | |- extends ?w (set_dirty_channel ?v ?w') =>
      apply (extends_trans w w'); [extends_auto | apply extends_same; reflexivity]
  | |- extends ?w (add_request ?v ?w') =>
      apply (extends_trans w w'); [extends_auto | apply extends_same; reflexivity]
  | |- extends ?w (invoke_ResolveCb ?q ?cb ?s ?r ?w') =>
      apply (extends_trans w w');
      [extends_auto | apply extends_invoke_ResolveCb]
  | _ => idtac
  end.

Lemma extends_body this status timeouts addrinfo w :
  extends w (fst (onAresGetAddrInfoCallback_body this status timeouts addrinfo w)).
Proof.
  unfold onAresGetAddrInfoCallback_body, mark_dirty_if_refused.
  destruct (objects w !! this) as [[base cb fb|]|]; try apply extends_emit.
  destruct (status =? ARES_EDESTRUCTION)%Z; [cbn [fst]; extends_auto|].
  cbv zeta.
  repeat match goal with
         | |- context [if ?b then (_, _) else _] => destruct b
         end; cbn [fst]; extends_auto.
Qed.

Lemma extends_getAddrInfo_fuel n : forall this family w w',
  getAddrInfo_fuel lib n this family w = Some w' -> extends w w'.
Proof.
  induction n as [|n IH]; intros this family w w'; [discriminate|].
  cbn [getAddrInfo_fuel].
  destruct (objects w !! this) as [q|].
  2: { intros [= <-]. apply extends_emit. }
  cbv zeta.
  destruct (ares_getaddrinfo_now lib _ family) as [a|].
  2: { intros [= <-]. extends_auto. }
  match goal with
  | |- context [onAresGetAddrInfoCallback_body ?t ?s ?to ?ai ?w1] =>
      pose proof (extends_body t s to ai w1) as Hb;
      destruct (onAresGetAddrInfoCallback_body t s to ai w1) as [w2 again]
  end.
  cbn [fst] in Hb.
  assert (H1 : extends w w2).
  { eapply extends_trans; [|exact Hb]. apply extends_emit. }
  destruct again.
  - intros H. apply IH in H. eapply extends_trans; eauto.
  - intros [= <-]. exact H1.
Qed.

Lemma extends_getAddrInfo this family w : extends w (getAddrInfo lib this family w).
Proof.
  unfold getAddrInfo.
  destruct (getAddrInfo_fuel lib 2 this family w) eqn:H;
    [eapply extends_getAddrInfo_fuel; eauto|apply extends_refl].
Qed.

Lemma extends_onAresGetAddrInfoCallback this status timeouts addrinfo w :
  extends w (onAresGetAddrInfoCallback lib this status timeouts addrinfo w).
Proof.
  unfold onAresGetAddrInfoCallback.
  pose proof (extends_body this status timeouts addrinfo w) as Hb.
  destruct (onAresGetAddrInfoCallback_body _ _ _ _ _) as [w1 again].
  cbn [fst] in Hb. destruct again; [|exact Hb].
  eapply extends_trans; [exact Hb|apply extends_getAddrInfo].
Qed.

Lemma extends_preparePendingResolution this w :
  extends w (snd (preparePendingResolution this w)).
Proof.
  unfold preparePendingResolution.
  destruct (objects w !! this) as [q|]; [|apply extends_emit].
  destruct (completed_ (query_base q)); cbn [snd]; extends_auto.
Qed.
End Callbacks.

(** ** Cancelled queries stay silent *)

Section Cancelled.

Variable lib : AresLibrary.

(** The handles on which [cancel] has been called. *)
Variable P : nat -> Prop.

Lemma leads_refl w : leads P w w.
Proof. intros H. split; [exact H|]. exists []. rewrite app_nil_r. auto. Qed.

Lemma leads_trans w1 w2 w3 : leads P w1 w2 -> leads P w2 w3 -> leads P w1 w3.
Proof.
  intros H12 H23 H1. destruct (H12 H1) as (H2 & tr1 & E1 & Q1).
  destruct (H23 H2) as (H3 & tr2 & E2 & Q2). split; [exact H3|].
  exists (tr1 ++ tr2). rewrite E2, E1, app_assoc. split; [reflexivity|].
  apply Forall_app; auto.
Qed.

Lemma leads_same_heap w w' :
  objects w' = objects w -> next_object w' = next_object w ->
  trace w' = trace w -> leads P w w'.
Proof.
  intros Ho Hn Ht [Hwf Hp]. split.
  - split; rewrite Ho, Hn; auto.
  - exists []. rewrite app_nil_r. auto.
Qed.

Lemma leads_emit e w : quiet P e -> leads P w (emit e w).
Proof.
  intros Hq H. split; [exact H|]. exists [e]. split; [reflexivity|].
  constructor; auto.
Qed.

Lemma leads_store this q w :
  is_Some (objects w !! this) ->
  (P this -> cancelled_ (query_base q) = true) ->
  leads P w (store this q w).
Proof.
  intros Hlive Hc [Hwf Hp]. split.
  - split; cbn.
    + intros i Hi. destruct (decide (this = i)) as [<-|Hne]; [auto|].
      rewrite lookup_insert_ne in Hi by exact Hne. auto.
    + intros i Hi. destruct (Hp i Hi) as [Hlt Hcan]. split; [exact Hlt|].
      intros q'. destruct (decide (this = i)) as [<-|Hne].
      * rewrite lookup_insert_eq. intros [= <-]. auto.
      * rewrite lookup_insert_ne by exact Hne. auto.
  - exists []. rewrite app_nil_r. auto.
Qed.

Lemma leads_delete_this this w : leads P w (delete_this this w).
Proof.
  intros [Hwf Hp]. split.
  - split; cbn.
    + intros i [q Hi]. apply lookup_delete_Some in Hi as [_ Hi]. eauto.
    + intros i Hi. destruct (Hp i Hi) as [Hlt Hcan]. split; [exact Hlt|].
      intros q Hq. apply lookup_delete_Some in Hq as [_ Hq]. eauto.
  - exists [EvDelete this]. split; [reflexivity|].
    constructor; [intros i _; reflexivity|constructor].
Qed.

Lemma leads_alloc q w : leads P w (snd (alloc q w)).
Proof.
  intros [Hwf Hp]. split.
  - split; cbn.
    + intros i Hi. destruct (decide (next_object w = i)) as [<-|Hne]; [lia|].
      rewrite lookup_insert_ne in Hi by exact Hne. apply Hwf in Hi. lia.
    + intros i Hi. destruct (Hp i Hi) as [Hlt Hcan]. split; [lia|].
      intros q'. rewrite lookup_insert_ne by lia. auto.
  - exists []. rewrite app_nil_r. auto.
Qed.

Lemma quiet_other e : is_caller_callback e = false -> quiet P e.
Proof. intros H i _. destruct e; try reflexivity; discriminate. Qed.

Lemma leads_fold_left {A} (f : World -> A -> World) (l : list A) :
  (forall w x, leads P w (f w x)) -> forall w, leads P w (fold_left f l w).
Proof.
  intros Hf. induction l as [|x l IH]; intros w; cbn.
  - apply leads_refl.
  - eapply leads_trans; [apply Hf|apply IH].
Qed.

Lemma Inv_cancelled w this q :
  Inv P w -> objects w !! this = Some q -> P this ->
  cancelled_ (query_base q) = true.
Proof. intros [_ Hp] Hq Hi. destruct (Hp this Hi) as [_ H]. eauto. Qed.

Lemma leads_intro w w' : (Inv P w -> leads P w w') -> leads P w w'.
Proof. intros H HI. exact (H HI HI). Qed.

Ltac leads_auto :=
  lazymatch goal with
  | |- leads P ?w ?w => apply leads_refl
  | |- leads P ?w (if ?b then _ else _) => destruct b eqn:?; leads_auto
  | |- leads P ?w (emit ?e ?w') =>
      apply (leads_trans w w'); [leads_auto | apply leads_emit]
  | |- leads P ?w (store ?t ?q ?w') =>
      apply (leads_trans w w'); [leads_auto | apply leads_store]
  | |- leads P ?w (delete_this ?t ?w') =>
      apply (leads_trans w w'); [leads_auto | apply leads_delete_this]
  | |- leads P ?w (set_dirty_channel ?v ?w') =>
      apply (leads_trans w w'); [leads_auto | apply leads_same_heap; reflexivity]
  | |- leads P ?w (set_channel ?v ?w') =>
      apply (leads_trans w w'); [leads_auto | apply leads_same_heap; reflexivity]
  | |- leads P ?w (set_requests ?v ?w') =>
      apply (leads_trans w w'); [leads_auto | apply leads_same_heap; reflexivity]
  | |- leads P ?w (add_request ?v ?w') =>
      apply (leads_trans w w'); [leads_auto | apply leads_same_heap; reflexivity]
  | _ => idtac
  end.

Ltac solve_quiet := apply quiet_other; reflexivity.

Ltac side Hobj Hcan :=
  lazymatch goal with
  | |- is_Some _ =>
      cbn [objects store set_objects set_dirty_channel emit delete_this];
      first [rewrite Hobj; eauto | rewrite lookup_insert_eq; eauto]
  | |- P _ -> _ =>
      let Hi := fresh in
      intros Hi; pose proof (Hcan Hi); base_simpl; congruence
  | |- ~ P _ =>
      let Hi := fresh in
      intros Hi; pose proof (Hcan Hi); base_simpl; congruence
  | |- quiet P _ =>
      first [ solve_quiet
            | let i := fresh in let Hi := fresh in
              intros i Hi; cbn; apply Nat.eqb_neq; intros ->;
              pose proof (Hcan Hi); base_simpl; congruence ]
  | _ => idtac
  end.

Lemma leads_onAresSrvFinishCallback this srv_records w :
  leads P w (onAresSrvFinishCallback this srv_records w).
Proof.
  unfold onAresSrvFinishCallback.
  destruct (objects w !! this) as [[|base cb fam]|] eqn:Hobj;
    try (apply leads_emit; solve_quiet).
  apply leads_intro. intros HInv.
  pose proof (Inv_cancelled w this _ HInv Hobj) as Hcan.
  destruct (is_nil srv_records); base_simpl; cbv zeta; leads_auto;
    side Hobj Hcan.
Qed.

Lemma leads_invoke_ResolveCb query cb status response w :
  ~ P query -> leads P w (invoke_ResolveCb query cb status response w).
Proof.
  intros Hq. destruct cb as [c|this finished recs reply]; cbn [invoke_ResolveCb].
  - apply leads_emit. intros i Hi. cbn. apply Nat.eqb_neq. intros ->. auto.
  - cbv zeta. destruct (_ =? _); [apply leads_onAresSrvFinishCallback|apply leads_refl].
Qed.

Ltac leads_auto ::=
  lazymatch goal with
  | |- leads P ?w ?w => apply leads_refl
  | |- leads P ?w (if ?b then _ else _) => destruct b eqn:?; leads_auto
  | |- leads P ?w (emit ?e ?w') =>
      apply (leads_trans w w'); [leads_auto | apply leads_emit]
  | |- leads P ?w (store ?t ?q ?w') =>
      apply (leads_trans w w'); [leads_auto | apply leads_store]
  | |- leads P ?w (delete_this ?t ?w') =>
      apply (leads_trans w w'); [leads_auto | apply leads_delete_this]
  | |- leads P ?w (set_dirty_channel ?v ?w') =>
      apply (leads_trans w w'); [leads_auto | apply leads_same_heap; reflexivity]
  | |- leads P ?w (set_channel ?v ?w') =>
      apply (leads_trans w w'); [leads_auto | apply leads_same_heap; reflexivity]
  | |- leads P ?w (set_requests ?v ?w') =>
      apply (leads_trans w w'); [leads_auto | apply leads_same_heap; reflexivity]
  | |- leads P ?w (add_request ?v ?w') =>
      apply (leads_trans w w'); [leads_auto | apply leads_same_heap; reflexivity]
  | |- leads P ?w (invoke_ResolveCb ?q ?cb ?s ?r ?w') =>
      apply (leads_trans w w'); [leads_auto | apply leads_invoke_ResolveCb]
  | |- leads P ?w (onAresSrvFinishCallback ?t ?r ?w') =>
      apply (leads_trans w w');
      [leads_auto | apply leads_onAresSrvFinishCallback]
  | _ => idtac
  end.

Lemma leads_body this status timeouts addrinfo w :
  leads P w (fst (onAresGetAddrInfoCallback_body this status timeouts addrinfo w)).
Proof.
  unfold onAresGetAddrInfoCallback_body, mark_dirty_if_refused,
    answer_addresses, answer_status.
  destruct (objects w !! this) as [[base cb fb|]|] eqn:Hobj;
    try (apply leads_emit; solve_quiet).
  apply leads_intro. intros HInv.
  pose proof (Inv_cancelled w this _ HInv Hobj) as Hcan.
  destruct (status =? ARES_EDESTRUCTION)%Z.
  { cbn [fst]. leads_auto. intros Hi. pose proof (Hcan Hi). base_simpl. congruence. }
  destruct fb, (status =? ARES_SUCCESS)%Z, (address_list_of addrinfo),
    (status =? ARES_ECONNREFUSED)%Z; base_simpl; cbv zeta.
  all: repeat match goal with
         | |- context [if ?b then (_, _) else _] => destruct b eqn:?
         end; cbn [fst]; leads_auto; side Hobj Hcan.
Qed.

Lemma leads_getAddrInfo_fuel n : forall this family w w',
  getAddrInfo_fuel lib n this family w = Some w' -> leads P w w'.
Proof.
  induction n as [|n IH]; intros this family w w'; [discriminate|].
  cbn [getAddrInfo_fuel].
  destruct (objects w !! this) as [q|] eqn:Hobj.
  2: { intros [= <-]. apply leads_emit. solve_quiet. }
  cbv zeta.
  destruct (ares_getaddrinfo_now lib _ family) as [a|].
  2: { intros [= <-]. leads_auto. solve_quiet. }
  match goal with
  | |- context [onAresGetAddrInfoCallback_body ?t ?s ?to ?ai ?w1] =>
      pose proof (leads_body t s to ai w1) as Hb;
      destruct (onAresGetAddrInfoCallback_body t s to ai w1) as [w2 again]
  end.
  cbn [fst] in Hb.
  assert (H1 : leads P w w2).
  { eapply leads_trans; [|exact Hb]. apply leads_emit. solve_quiet. }
  destruct again.
  - intros H. apply IH in H. eapply leads_trans; eauto.
  - intros [= <-]. exact H1.
Qed.

Lemma leads_getAddrInfo this family w : leads P w (getAddrInfo lib this family w).
Proof.
  unfold getAddrInfo.
  destruct (getAddrInfo_fuel lib 2 this family w) eqn:H;
    [eapply leads_getAddrInfo_fuel; eauto|apply leads_refl].
Qed.

Lemma leads_onAresGetAddrInfoCallback this status timeouts addrinfo w :
  leads P w (onAresGetAddrInfoCallback lib this status timeouts addrinfo w).
Proof.
  unfold onAresGetAddrInfoCallback.
  pose proof (leads_body this status timeouts addrinfo w) as Hb.
  destruct (onAresGetAddrInfoCallback_body _ _ _ _ _) as [w1 again].
  cbn [fst] in Hb. destruct again; [|exact Hb].
  eapply leads_trans; [exact Hb|apply leads_getAddrInfo].
Qed.

Lemma leads_deliver_destruction w r : leads P w (deliver_destruction lib w r).
Proof.
  unfold deliver_destruction, onAresSrvStartCallback_destruction.
  destruct (req_kind r);
    [apply leads_onAresGetAddrInfoCallback|apply leads_delete_this].
Qed.

Lemma leads_ares_destroy channel w : leads P w (ares_destroy lib channel w).
Proof.
  unfold ares_destroy. cbv zeta.
  eapply leads_trans; [|apply leads_fold_left, leads_deliver_destruction].
  leads_auto. solve_quiet.
Qed.

Lemma leads_initializeChannel w : leads P w (initializeChannel w).
Proof. unfold initializeChannel. cbv zeta. leads_auto. solve_quiet. Qed.

Lemma leads_preparePendingResolution this w :
  leads P w (snd (preparePendingResolution this w)).
Proof.
  unfold preparePendingResolution.
  destruct (objects w !! this) as [q|] eqn:Hobj;
    [|apply leads_emit; solve_quiet].
  apply leads_intro. intros HInv.
  pose proof (Inv_cancelled w this _ HInv Hobj) as Hcan.
  destruct (completed_ (query_base q)); cbn [snd]; leads_auto.
  - rewrite Hobj; eauto.
  - destruct q; exact Hcan.
Qed.

Lemma leads_resolve name family cb w :
  leads P w (snd (resolve lib name family cb w)).
Proof.
  unfold resolve.
  set (w1 := if dirty_channel_ w then _ else w).
  assert (H1 : leads P w w1).
  { unfold w1. destruct (dirty_channel_ w); [|apply leads_refl].
    eapply leads_trans; [apply leads_ares_destroy|apply leads_initializeChannel]. }
  match goal with
  | |- context [alloc ?q w1] =>
      pose proof (leads_alloc q w1) as H2; destruct (alloc q w1) as [this w2]
  end.
  cbn [snd] in H2.
  eapply leads_trans; [exact H1|]. eapply leads_trans; [exact H2|].
  eapply leads_trans; [|apply leads_preparePendingResolution].
  destruct family; apply leads_getAddrInfo.
Qed.

Lemma leads_srv_fan_out_step this srv_records w current_reply :
  leads P w (srv_fan_out_step lib this srv_records w current_reply).
Proof.
  unfold srv_fan_out_step.
  destruct (objects w !! this) as [[|base cb fam]|];
    try (apply leads_emit; solve_quiet).
  apply leads_resolve.
Qed.

Lemma leads_onAresSrvStartCallback this status timeouts buf w :
  leads P w (onAresSrvStartCallback lib this status timeouts buf w).
Proof.
  unfold onAresSrvStartCallback, onAresSrvStartCallback_destruction.
  destruct (status =? ARES_EDESTRUCTION)%Z; [apply leads_delete_this|].
  destruct (status =? ARES_SUCCESS)%Z;
    [|apply leads_onAresSrvFinishCallback].
  destruct (ares_parse_srv_reply lib buf) as [status1 srv_reply].
  destruct (status1 =? ARES_SUCCESS)%Z;
    [|apply leads_onAresSrvFinishCallback].
  cbv zeta. apply leads_fold_left. intros. apply leads_srv_fan_out_step.
Qed.

Lemma leads_getSrvByName this w : leads P w (getSrvByName lib this w).
Proof.
  unfold getSrvByName.
  destruct (objects w !! this) as [q|]; [|apply leads_emit; solve_quiet].
  cbv zeta. destruct (ares_query_now lib _).
  - eapply leads_trans; [|apply leads_onAresSrvStartCallback].
    apply leads_emit. solve_quiet.
  - leads_auto. solve_quiet.
Qed.

Lemma leads_resolveSrv name family cb w :
  leads P w (snd (resolveSrv lib name family cb w)).
Proof.
  unfold resolveSrv.
  match goal with
  | |- context [alloc ?q w] =>
      pose proof (leads_alloc q w) as H2; destruct (alloc q w) as [this w2]
  end.
  cbn [snd] in H2. eapply leads_trans; [exact H2|].
  eapply leads_trans; [apply leads_getSrvByName|].
  apply leads_preparePendingResolution.
Qed.

Lemma leads_ares_process arg a w : leads P w (ares_process lib arg a w).
Proof.
  unfold ares_process.
  destruct (take_request arg (requests w)) as [[r rest]|]; [|apply leads_refl].
  cbv zeta. destruct (req_kind r).
  - eapply leads_trans; [|apply leads_onAresGetAddrInfoCallback].
    apply leads_same_heap; reflexivity.
  - eapply leads_trans; [|apply leads_onAresSrvStartCallback].
    apply leads_same_heap; reflexivity.
Qed.

Lemma leads_cancel handle w : leads P w (cancel handle w).
Proof.
  unfold cancel.
  destruct (objects w !! handle) as [q|] eqn:Hobj;
    [|apply leads_emit; solve_quiet].
  apply leads_store; [rewrite Hobj; eauto|].
  intros _. destruct q; reflexivity.
Qed.

Lemma leads_destroy_DnsResolverImpl w : leads P w (destroy_DnsResolverImpl lib w).
Proof. apply leads_ares_destroy. Qed.

Lemma leads_step w i : leads P w (step lib w i).
Proof.
  destruct i; cbn [step].
  - apply leads_resolve.
  - apply leads_resolveSrv.
  - apply leads_cancel.
  - apply leads_ares_process.
  - apply leads_destroy_DnsResolverImpl.
Qed.

Lemma leads_run inputs w : leads P w (run lib w inputs).
Proof. apply leads_fold_left, leads_step. Qed.

End Cancelled.

(** The heap of a resolver that has run from its construction is well
    formed, whatever was cancelled on the way. *)
Lemma Inv_reachable lib inputs :
  Inv (fun _ => False) (run lib initial_world inputs).
Proof.
  apply (leads_run lib (fun _ => False) inputs initial_world).
  split.
  - intros i [q Hq]. cbn in Hq. rewrite lookup_empty in Hq. discriminate.
  - intros i [].
Qed.

(** Calling [cancel] on a live handle establishes the invariant for it. *)
Lemma Inv_cancel h w :
  Inv (fun _ => False) w -> is_Some (objects w !! h) ->
  Inv (fun i => i = h) (cancel h w).
Proof.
  intros [Hwf _] [q Hq]. unfold cancel. rewrite Hq. split; cbn.
  - intros i Hi. destruct (decide (h = i)) as [<-|Hne]; [apply Hwf; eauto|].
    rewrite lookup_insert_ne in Hi by exact Hne. auto.
  - intros i ->. split; [apply Hwf; eauto|].
    intros q'. rewrite lookup_insert_eq. intros [= <-].
    destruct q; reflexivity.
Qed.

(** ** What one completion of an address query adds to the trace *)

Section Completions.

Variable lib : AresLibrary.

Lemma trace_mark_dirty_if_refused fb status w :
  trace (mark_dirty_if_refused fb status w) = trace w.
Proof. unfold mark_dirty_if_refused. destruct (_ && _); reflexivity. Qed.

Lemma final_events_no_request this c base status addrinfo :
  issued_families (final_events this c base status addrinfo) = [].
Proof.
  unfold final_events.
  destruct (status =? ARES_EDESTRUCTION)%Z, (cancelled_ base), (owned_ base);
    reflexivity.
Qed.

Lemma events_since_emit e w w' :
  extends (emit e w) w' ->
  events_since w w' = e :: events_since (emit e w) w'.
Proof.
  intros [tr E]. rewrite (events_since_app _ _ _ E).
  apply events_since_app. rewrite E. cbn. rewrite <- app_assoc. reflexivity.
Qed.

(** A completion that ends the query: the destruction sentinel, an attempt
    without fallback left, or an attempt that brought addresses. *)
Lemma completion_final this c base fb status timeouts addrinfo w :
  objects w !! this = Some (PendingResolution base (CallerResolveCb c) fb) ->
  status = ARES_EDESTRUCTION \/ fb = false
  \/ answer_addresses status addrinfo <> [] ->
  events_since w (onAresGetAddrInfoCallback lib this status timeouts addrinfo w)
  = final_events this c base status addrinfo.
Proof.
  intros Hobj Hfin. apply events_since_app.
  unfold onAresGetAddrInfoCallback, final_events.
  destruct (Z.eqb_spec status ARES_EDESTRUCTION) as [->|Hst].
  - rewrite (body_destruction _ _ _ _ _ _ _ Hobj).
    destruct (cancelled_ base); cbn; [reflexivity|].
    rewrite <- app_assoc. reflexivity.
  - destruct Hfin as [Hfin|Hfin]; [contradiction|].
    rewrite (body_final _ _ _ _ _ _ _ _ Hobj Hst Hfin). cbv zeta.
    destruct (cancelled_ base), (owned_ base); cbn;
      rewrite trace_mark_dirty_if_refused, ?app_nil_r, <- ?app_assoc;
      reflexivity.
Qed.

(** The request that follows a consumed fallback: handed to c-ares, and
    ended at once when c-ares answers at once. *)
Lemma getAddrInfo_consumed this c base family w :
  objects w !! this = Some (PendingResolution base (CallerResolveCb c) false) ->
  events_since w (getAddrInfo lib this family w)
  = EvGetAddrInfo (ares_channel_ base) this (dns_name_ base) family
    :: match ares_getaddrinfo_now lib (dns_name_ base) family with
       | Some a => final_events this c base (ans_status a) (ans_addrinfo a)
       | None => []
       end.
Proof.
  intros Hobj. rewrite getAddrInfo_eq, Hobj. cbn [query_base]. cbv zeta.
  set (e := EvGetAddrInfo _ _ _ _).
  destruct (ares_getaddrinfo_now lib (dns_name_ base) family) as [a|].
  - rewrite (events_since_emit e) by apply extends_onAresGetAddrInfoCallback.
    f_equal. apply (completion_final this c base false); [exact Hobj|auto].
  - apply events_since_app. reflexivity.
Qed.

End Completions.
(** ** The handle that [resolve] returns *)

Section ResolveHandle.
Variable lib : AresLibrary.

Lemma requests_mark_dirty_if_refused fb status w :
  requests (mark_dirty_if_refused fb status w) = requests w.
Proof. unfold mark_dirty_if_refused. destruct (_ && _); reflexivity. Qed.

Lemma completion_final_world this c base fb status timeouts addrinfo w :
  objects w !! this = Some (PendingResolution base (CallerResolveCb c) fb) ->
  cancelled_ base = false -> owned_ base = false ->
  status = ARES_EDESTRUCTION \/ fb = false
  \/ answer_addresses status addrinfo <> [] ->
  let w' := onAresGetAddrInfoCallback lib this status timeouts addrinfo w in
  requests w' = requests w
  /\ (objects w' !! this = None
      \/ exists base' fb',
           objects w' !! this
           = Some (PendingResolution base' (CallerResolveCb c) fb')
           /\ completed_ base' = true).
Proof.
  intros Hobj Hcan Hown Hfin w'. subst w'.
  unfold onAresGetAddrInfoCallback.
  destruct (Z.eqb_spec status ARES_EDESTRUCTION) as [->|Hst].
  - rewrite (body_destruction _ _ _ _ _ _ _ Hobj). rewrite Hcan.
    cbn. split; [reflexivity|]. left. apply lookup_delete_eq.
  - destruct Hfin as [Hfin|Hfin]; [contradiction|].
    rewrite (body_final _ _ _ _ _ _ _ _ Hobj Hst Hfin). cbv zeta.
    rewrite Hcan, Hown. cbn. split.
    + apply requests_mark_dirty_if_refused.
    + right. eexists _, _. rewrite lookup_insert_eq. split; reflexivity.
Qed.

Lemma getAddrInfo_consumed_outcome this c base family w :
  objects w !! this = Some (PendingResolution base (CallerResolveCb c) false) ->
  completed_ base = false -> cancelled_ base = false -> owned_ base = false ->
  let w' := getAddrInfo lib this family w in
  ended_inside this c w w' \/ kept_by_ares this c w w'.
Proof.
  intros Hobj Hc Hcan Hown w'.
  pose proof (getAddrInfo_consumed lib this c base family w Hobj) as Hev.
  fold w' in Hev. subst w'.
  rewrite getAddrInfo_eq, Hobj in *. cbn [query_base] in *. cbv zeta in *.
  destruct (ares_getaddrinfo_now lib (dns_name_ base) family) as [a|].
  - left.
    destruct (completion_final_world this c base false (ans_status a)
                (ans_timeouts a) (ans_addrinfo a)
                (emit (EvGetAddrInfo (ares_channel_ base) this (dns_name_ base)
                         family) w) Hobj Hcan Hown
                (or_intror (or_introl eq_refl))) as [Hr Ho].
    split; [exact Hr|]. split; [|exact Ho].
    rewrite Hev. unfold final_events. rewrite Hcan, Hown.
    destruct (ans_status a =? ARES_EDESTRUCTION)%Z; cbn; eauto.
  - right. split; [eauto|]. split; [rewrite Hev; reflexivity|].
    exists base, false. cbn. auto.
Qed.

Lemma getAddrInfo_outcome this c base fb family w :
  objects w !! this = Some (PendingResolution base (CallerResolveCb c) fb) ->
  completed_ base = false -> cancelled_ base = false -> owned_ base = false ->
  let w' := getAddrInfo lib this family w in
  ended_inside this c w w' \/ kept_by_ares this c w w'.
Proof.
  destruct fb; [|apply getAddrInfo_consumed_outcome].
  intros Hobj Hc Hcan Hown w'. subst w'.
  rewrite getAddrInfo_eq, Hobj. cbn [query_base]. cbv zeta.
  set (e := EvGetAddrInfo _ _ _ _).
  destruct (ares_getaddrinfo_now lib (dns_name_ base) family) as [a|].
  2: { right. split; [eauto|]. split.
       - rewrite (events_since_app w _ [e]) by reflexivity. reflexivity.
       - exists base, true. cbn. auto. }
  set (status := ans_status a). set (addrinfo := ans_addrinfo a).
  assert (Hobj1 : objects (emit e w) !! this
                  = Some (PendingResolution base (CallerResolveCb c) true))
    by exact Hobj.
  assert (Hcase : (status = ARES_EDESTRUCTION \/ true = false
                   \/ answer_addresses status addrinfo <> [])
                  \/ (status <> ARES_EDESTRUCTION
                      /\ answer_addresses status addrinfo = [])).
  { destruct (Z.eqb_spec status ARES_EDESTRUCTION); [auto|].
    destruct (answer_addresses status addrinfo); [right; auto|left].
    right. right. discriminate. }
  destruct Hcase as [Hfin|[Hst Hnil]].
  - left.
    destruct (completion_final_world this c base true status (ans_timeouts a)
                addrinfo (emit e w) Hobj1 Hcan Hown Hfin) as [Hr Ho].
    split; [exact Hr|]. split; [|exact Ho].
    rewrite (events_since_emit e)
      by apply extends_onAresGetAddrInfoCallback.
    rewrite (completion_final lib this c base true) by auto.
    unfold final_events. rewrite Hcan, Hown.
    destruct (status =? ARES_EDESTRUCTION)%Z; cbn; eauto.
  - unfold onAresGetAddrInfoCallback.
    rewrite (body_fallback _ _ _ _ _ _ _ Hobj1 Hst Hc Hnil).
    set (w2 := store this (PendingResolution base (CallerResolveCb c) false)
                 (emit e w)).
    assert (Hobj2 : objects w2 !! this
                    = Some (PendingResolution base (CallerResolveCb c) false))
      by apply lookup_insert_eq.
    assert (Hev : events_since w (getAddrInfo lib this AF_INET w2)
                  = e :: events_since w2 (getAddrInfo lib this AF_INET w2)).
    { apply (events_since_emit e w). apply (extends_getAddrInfo lib this AF_INET w2). }
    destruct (getAddrInfo_consumed_outcome this c base AF_INET w2 Hobj2 Hc Hcan
                Hown) as [(Hr & Hcb & Ho)|(Hr & Hcb & Ho)].
    + left. split; [exact Hr|]. split; [|exact Ho].
      rewrite Hev. exact Hcb.
    + right. split; [exact Hr|]. split; [|exact Ho].
      rewrite Hev. exact Hcb.
Qed.

(** [resolve] for a caller: the handle is null exactly when the request
    ended inside the call, and then the callback has been invoked and the
    query is freed; otherwise the handle is the new query, owned by the
    resolver, with its request in flight and no callback invoked. *)
Lemma resolve_handle name family c w :
  let w1 := if dirty_channel_ w
            then initializeChannel (ares_destroy lib (channel_ w) w) else w in
  let this := next_object w1 in
  let r := resolve lib name family (CallerResolveCb c) w in
  (fst r = None
   /\ requests (snd r) = requests w1
   /\ (exists status response,
         List.filter is_caller_callback (events_since w1 (snd r))
         = [EvResolveCb this c status response])
   /\ objects (snd r) !! this = None)
  \/ (fst r = Some this
      /\ (exists channel family',
            requests (snd r)
            = requests w1 ++ [{| req_channel := channel; req_arg := this;
                                 req_kind := ReqGetAddrInfo family' |}])
      /\ callback_count (events_since w1 (snd r)) = 0
      /\ exists base fb,
           objects (snd r) !! this
           = Some (PendingResolution base (CallerResolveCb c) fb)
           /\ owned_ base = true /\ completed_ base = false).
Proof.
  intros w1 this r. subst r. unfold resolve. fold w1. cbn [alloc]. fold this.
  match goal with
  | |- context [getAddrInfo lib this AF_INET ?x] => set (w2 := x)
  end.
  set (family0 := match family with V4Only => AF_INET | _ => AF_INET6 end).
  assert (Hw3 : match family with
                | V4Only => getAddrInfo lib this AF_INET w2
                | _ => getAddrInfo lib this AF_INET6 w2
                end = getAddrInfo lib this family0 w2)
    by (destruct family; reflexivity).
  rewrite Hw3. clear Hw3.
  assert (Hobj : objects w2 !! this
                 = Some (PendingResolution
                           {| ares_channel_ := channel_ w1; dns_name_ := name;
                              completed_ := false; owned_ := false;
                              cancelled_ := false |}
                           (CallerResolveCb c)
                           (match family with Auto => true | _ => false end)))
    by apply lookup_insert_eq.
  destruct (getAddrInfo_outcome this c _ _ family0 w2 Hobj eq_refl eq_refl
              eq_refl) as [(Hr & Hcb & Ho)|(Hr & Hcb & Ho)];
    set (w3 := getAddrInfo lib this family0 w2) in *;
    unfold preparePendingResolution.
  - left. destruct Ho as [Ho|(base & fb & Ho & Hc)]; rewrite Ho.
    + cbn [fst snd]. split; [reflexivity|]. split; [exact Hr|].
      split; [|exact Ho].
      destruct Hcb as (st & resp & Hcb). exists st, resp.
      destruct (extends_getAddrInfo lib this family0 w2) as [tr Htr].
      fold w3 in Htr.
      rewrite (events_since_app w2 w3 tr Htr) in Hcb.
      rewrite (events_since_app w1 _ (tr ++ [EvUseAfterFree this])).
      * rewrite List.filter_app, Hcb. reflexivity.
      * cbn. rewrite Htr. symmetry. apply app_assoc.
    + cbn [query_base]. rewrite Hc. cbn [fst snd].
      split; [reflexivity|]. split; [exact Hr|].
      split; [|apply lookup_delete_eq].
      destruct Hcb as (st & resp & Hcb). exists st, resp.
      destruct (extends_getAddrInfo lib this family0 w2) as [tr Htr].
      fold w3 in Htr.
      rewrite (events_since_app w2 w3 tr Htr) in Hcb.
      rewrite (events_since_app w1 _ (tr ++ [EvDelete this])).
      * rewrite List.filter_app, Hcb. reflexivity.
      * cbn. rewrite Htr. symmetry. apply app_assoc.
  - right. destruct Ho as (base & fb & Ho & Hc & Hcan). rewrite Ho.
    cbn [query_base]. rewrite Hc. cbn [fst snd].
    split; [reflexivity|]. split; [exact Hr|]. split; [exact Hcb|].
    exists (set_owned true base), fb. cbn. rewrite lookup_insert_eq.
    split; [reflexivity|]. split; [reflexivity|exact Hc].
Qed.

End ResolveHandle.

(** ** [resolve] on a dirty channel *)

Section DirtyChannel.
Variable lib : AresLibrary.

Lemma teardown_refl w : teardown w w.
Proof. split; [apply extends_refl|reflexivity]. Qed.

Lemma teardown_trans w1 w2 w3 :
  teardown w1 w2 -> teardown w2 w3 -> teardown w1 w3.
Proof.
  intros [E1 C1] [E2 C2]. split; [eapply extends_trans; eauto|congruence].
Qed.

Lemma teardown_onAresSrvFinishCallback this srv_records w :
  teardown w (onAresSrvFinishCallback this srv_records w).
Proof.
  split; [apply extends_onAresSrvFinishCallback|].
  unfold onAresSrvFinishCallback.
  destruct (objects w !! this) as [[|base cb fam]|]; try reflexivity.
  cbv zeta.
  repeat match goal with |- context [if ?b then _ else _] => destruct b end;
    reflexivity.
Qed.

Lemma teardown_invoke_ResolveCb query cb status response w :
  teardown w (invoke_ResolveCb query cb status response w).
Proof.
  destruct cb; cbn [invoke_ResolveCb].
  - split; [apply extends_emit|reflexivity].
  - cbv zeta. destruct (_ =? _);
      [apply teardown_onAresSrvFinishCallback|apply teardown_refl].
Qed.

Lemma teardown_deliver_destruction w r :
  teardown w (deliver_destruction lib w r).
Proof.
  unfold deliver_destruction, onAresSrvStartCallback_destruction.
  destruct (req_kind r).
  2: { split; [apply extends_delete_this|reflexivity]. }
  unfold onAresGetAddrInfoCallback.
  destruct (objects w !! req_arg r) as [[base cb fb|]|] eqn:Hobj.
  - rewrite (body_destruction _ _ _ _ _ _ _ Hobj).
    eapply teardown_trans;
      [|split; [apply extends_delete_this|reflexivity]].
    destruct (cancelled_ base);
      [apply teardown_refl|apply teardown_invoke_ResolveCb].
  - unfold onAresGetAddrInfoCallback_body. rewrite Hobj.
    split; [apply extends_emit|reflexivity].
  - unfold onAresGetAddrInfoCallback_body. rewrite Hobj.
    split; [apply extends_emit|reflexivity].
Qed.

Lemma ares_destroy_teardown channel w :
  exists tr,
    trace (ares_destroy lib channel w) = trace w ++ EvAresDestroy channel :: tr
    /\ channel_ (ares_destroy lib channel w) = channel_ w.
Proof.
  unfold ares_destroy. cbv zeta.
  set (w0 := set_requests _ (emit (EvAresDestroy channel) w)).
  assert (H : forall l w', teardown w' (fold_left (deliver_destruction lib) l w')).
  { induction l as [|r l IH]; intros w'; cbn; [apply teardown_refl|].
    eapply teardown_trans; [apply teardown_deliver_destruction|apply IH]. }
  destruct (H (List.filter (fun r => req_channel r =? channel) (requests w)) w0)
    as [[tr E] C].
  exists tr. split; [|exact C].
  rewrite E. cbn. rewrite <- app_assoc. reflexivity.
Qed.

(** [resolve] on a dirty channel: the old channel is destroyed (the
    queries in flight on it are told), a new channel is made, and the new
    request is the next thing that happens, on the new channel. *)
Lemma resolve_resets_dirty_channel name family cb w :
  dirty_channel_ w = true ->
  exists tr1 tr2,
    trace (snd (resolve lib name family cb w))
    = trace w
      ++ EvAresDestroy (channel_ w) :: tr1
      ++ EvAresInit (S (channel_ w))
         :: EvGetAddrInfo (S (channel_ w))
              (next_object (ares_destroy lib (channel_ w) w)) name
              (match family with V4Only => AF_INET | _ => AF_INET6 end)
         :: tr2.
Proof.
  intros Hdirty. unfold resolve. rewrite Hdirty.
  destruct (ares_destroy_teardown (channel_ w) w) as (tr1 & Htr & Hch).
  set (wd := ares_destroy lib (channel_ w) w) in *.
  cbn [alloc]. 
  match goal with
  | |- context [getAddrInfo lib ?t AF_INET ?x] => set (w2 := x); set (this := t)
  end.
  set (family0 := match family with V4Only => AF_INET | _ => AF_INET6 end).
  assert (Hw3 : match family with
                | V4Only => getAddrInfo lib this AF_INET w2
                | _ => getAddrInfo lib this AF_INET6 w2
                end = getAddrInfo lib this family0 w2)
    by (destruct family; reflexivity).
  rewrite Hw3. clear Hw3.
  destruct (extends_preparePendingResolution this
              (getAddrInfo lib this family0 w2)) as [tr3 E3].
  rewrite E3. rewrite getAddrInfo_eq.
  unfold w2 at 1. cbn [objects]. rewrite lookup_insert_eq.
  cbn [query_base ares_channel_ dns_name_]. cbv zeta.
  set (e := EvGetAddrInfo _ _ _ _).
  assert (Htr2 : trace w2 = trace w ++ EvAresDestroy (channel_ w) :: tr1
                            ++ [EvAresInit (S (channel_ w))]).
  { unfold w2. cbn. rewrite Htr, Hch. rewrite <- app_assoc. reflexivity. }
  assert (He : e = EvGetAddrInfo (S (channel_ w)) this name family0).
  { unfold e. cbn. rewrite Hch. reflexivity. }
  destruct (ares_getaddrinfo_now lib name family0) as [a|].
  - destruct (extends_onAresGetAddrInfoCallback lib this (ans_status a)
                (ans_timeouts a) (ans_addrinfo a) (emit e w2)) as [tr E].
    rewrite E. change (trace (emit e w2)) with (trace w2 ++ [e]).
    rewrite Htr2, He.
    exists tr1, (tr ++ tr3). rewrite <- !app_assoc. cbn.
    rewrite <- !app_assoc. reflexivity.
  - change (trace (add_request _ (emit e w2))) with (trace w2 ++ [e]).
    rewrite Htr2, He. exists tr1, tr3. rewrite <- !app_assoc. cbn.
    rewrite <- !app_assoc. reflexivity.
Qed.

End DirtyChannel.

(** ** The claims *)

(** C9: the validation resolver answers every [resolve] at once with
    [Success] and an empty address list, every [resolveSrv] at once with an
    empty endpoint list, and returns the null handle from both, whatever
    the name and the family. *)
Theorem C9_validation_resolver_answers_empty
    (dns_name : string) (family : DnsLookupFamily) (callback : nat) :
  ValidationDnsResolver.resolve dns_name family callback
  = (None, [ValidationDnsResolver.InvokedResolveCb callback Success []])
  /\ ValidationDnsResolver.resolveSrv dns_name family callback
     = (None, [ValidationDnsResolver.InvokedResolveSrvCb callback []]).
Proof. split; reflexivity. Qed.

(** C10 (as amended): on a successful answer the conversion looks at the
    family of the first record only, and every record goes through the
    branch of the first record, whatever its own family.  When the first
    record is [AF_INET] the callback of a live query that is not cancelled
    receives [Success] and one [Ipv4Instance] for every record, made of
    the 4 octets at offset 4 of the record's address; when it is
    [AF_INET6], one [Ipv6Instance] for every record, made of the 16 octets
    at offset 8.  When it is of neither family and the attempt has no
    fallback left, the callback receives [Success] and the empty list. *)
Theorem C10_conversion_follows_first_record (lib : AresLibrary)
    (this c : nat) (base : PendingResolutionBase) (fallback : bool) (w : World)
    (first : ares_addrinfo_node) (rest : list ares_addrinfo_node)
    (timeouts : Z) :
  objects w !! this
  = Some (PendingResolution base (CallerResolveCb c) fallback) ->
  cancelled_ base = false ->
  let nodes := first :: rest in
  let events :=
    events_since w
      (onAresGetAddrInfoCallback lib this ARES_SUCCESS timeouts (Some nodes) w) in
  let freed := if owned_ base then [EvDelete this] else [] in
  (ai_family first = AF_INET ->
   exists response,
     events = EvResolveCb this c Success response :: freed
     /\ Forall2 converted_as_ipv4 nodes response)
  /\ (ai_family first = AF_INET6 ->
      exists response,
        events = EvResolveCb this c Success response :: freed
        /\ Forall2 converted_as_ipv6 nodes response)
  /\ (ai_family first <> AF_INET -> ai_family first <> AF_INET6 ->
      fallback = false ->
      events = EvResolveCb this c Success [] :: freed).
Proof.
  intros Hobj Hcan nodes events freed. subst nodes events freed.
  assert (H4 : forall l, Forall2 converted_as_ipv4 l (map to_ipv4_response l)).
  { induction l as [|ai l IH]; constructor; [reflexivity|exact IH]. }
  assert (H6 : forall l, Forall2 converted_as_ipv6 l (map to_ipv6_response l)).
  { induction l as [|ai l IH]; constructor; [reflexivity|exact IH]. }
  split; [|split].
  - intros Hfam.
    assert (E : answer_addresses ARES_SUCCESS (Some (first :: rest))
                = map to_ipv4_response (first :: rest)).
    { unfold answer_addresses, address_list_of. cbn [Z.eqb ARES_SUCCESS].
      rewrite Hfam. reflexivity. }
    exists (map to_ipv4_response (first :: rest)). split; [|apply H4].
    rewrite (completion_final lib this c base fallback);
      [|exact Hobj|right; right; rewrite E; discriminate].
    unfold final_events. rewrite Hcan, E. reflexivity.
  - intros Hfam.
    assert (E : answer_addresses ARES_SUCCESS (Some (first :: rest))
                = map to_ipv6_response (first :: rest)).
    { unfold answer_addresses, address_list_of. cbn [Z.eqb ARES_SUCCESS].
      rewrite Hfam. reflexivity. }
    exists (map to_ipv6_response (first :: rest)). split; [|apply H6].
    rewrite (completion_final lib this c base fallback);
      [|exact Hobj|right; right; rewrite E; discriminate].
    unfold final_events. rewrite Hcan, E. reflexivity.
  - intros Hn4 Hn6 Hfb.
    assert (E : answer_addresses ARES_SUCCESS (Some (first :: rest)) = []).
    { unfold answer_addresses, address_list_of. cbn [Z.eqb ARES_SUCCESS].
      destruct (Z.eqb_spec (ai_family first) AF_INET); [contradiction|].
      destruct (Z.eqb_spec (ai_family first) AF_INET6); [contradiction|].
      reflexivity. }
    rewrite (completion_final lib this c base fallback);
      [|exact Hobj|right; left; exact Hfb].
    unfold final_events. rewrite Hcan, E. reflexivity.
Qed.

(** An IPv4 answer whose second record is an IPv6 one: the second record
    is read as a [sockaddr_in] all the same, and what comes out as its
    address are the octets of its flow label.  An IPv6 answer whose second
    record is an IPv4 one: the second record is read as a [sockaddr_in6],
    and what comes out as its address are the 8 octets of its [sin_zero]
    and the 8 octets that lie behind it in memory. *)
Lemma C10_witness :
  events_since
    (snd (resolve network_only "upstream.example" V4Only (CallerResolveCb 7)
            initial_world))
    (onAresGetAddrInfoCallback network_only 0 ARES_SUCCESS 0
       (Some [node_10_0_0_1 30; node_2001_db8__1 60])
       (snd (resolve network_only "upstream.example" V4Only (CallerResolveCb 7)
               initial_world)))
  = [EvResolveCb 0 7 Success
       [{| address_ := Ipv4Instance
                         [Byte.x0a; Byte.x00; Byte.x00; Byte.x01] 0;
           ttl_ := 30 |};
        {| address_ := Ipv4Instance
                         [Byte.x00; Byte.x00; Byte.x00; Byte.x00] 0;
           ttl_ := 60 |}];
     EvDelete 0]
  /\ events_since one_auto_query
       (onAresGetAddrInfoCallback network_only 0 ARES_SUCCESS 0
          (Some [node_2001_db8__1 30; node_10_0_0_1 60]) one_auto_query)
     = [EvResolveCb 0 7 Success
          [{| address_ :=
                Ipv6Instance
                  [Byte.x20; Byte.x01; Byte.x0d; Byte.xb8; Byte.x00; Byte.x00;
                   Byte.x00; Byte.x00; Byte.x00; Byte.x00; Byte.x00; Byte.x00;
                   Byte.x00; Byte.x00; Byte.x00; Byte.x01] 0;
              ttl_ := 30 |};
           {| address_ :=
                Ipv6Instance
                  [Byte.x00; Byte.x00; Byte.x00; Byte.x00; Byte.x00; Byte.x00;
                   Byte.x00; Byte.x00; Byte.xde; Byte.xad; Byte.xbe; Byte.xef;
                   Byte.xde; Byte.xad; Byte.xbe; Byte.xef] 0;
              ttl_ := 60 |}];
        EvDelete 0]
  /\ events_since
       (snd (resolve network_only "upstream.example" V4Only (CallerResolveCb 7)
               initial_world))
       (onAresGetAddrInfoCallback network_only 0 ARES_SUCCESS 0
          (Some [node_unspec 30; node_10_0_0_1 60])
          (snd (resolve network_only "upstream.example" V4Only
                  (CallerResolveCb 7) initial_world)))
     = [EvResolveCb 0 7 Success []; EvDelete 0].
Proof.
  pose (base := {| ares_channel_ := 0; dns_name_ := "upstream.example";
                   completed_ := false; owned_ := true; cancelled_ := false |}).
  split; [|split].
  - destruct (C10_conversion_follows_first_record network_only 0 7 base false
                (snd (resolve network_only "upstream.example" V4Only
                        (CallerResolveCb 7) initial_world))
                (node_10_0_0_1 30) [node_2001_db8__1 60] 0%Z eq_refl eq_refl)
      as (H4 & _ & _).
    destruct (H4 eq_refl) as (response & E & F).
    cbv zeta in E. rewrite E.
    inversion F as [|? r1 ? l1 C1 F1]; subst.
    inversion F1 as [|? r2 ? l2 C2 F2]; subst.
    inversion F2; subst. rewrite C1, C2. reflexivity.
  - destruct (C10_conversion_follows_first_record network_only 0 7 base true
                one_auto_query (node_2001_db8__1 30) [node_10_0_0_1 60] 0%Z
                eq_refl eq_refl)
      as (_ & H6 & _).
    destruct (H6 eq_refl) as (response & E & F).
    cbv zeta in E. rewrite E.
    inversion F as [|? r1 ? l1 C1 F1]; subst.
    inversion F1 as [|? r2 ? l2 C2 F2]; subst.
    inversion F2; subst. rewrite C1, C2. reflexivity.
  - destruct (C10_conversion_follows_first_record network_only 0 7 base false
                (snd (resolve network_only "upstream.example" V4Only
                        (CallerResolveCb 7) initial_world))
                (node_unspec 30) [node_10_0_0_1 60] 0%Z eq_refl eq_refl)
      as (_ & _ & Hn).
    refine (Hn _ _ eq_refl); discriminate.
Defined.

(** C10 as stated fails: a successful answer whose first record is of
    neither family, given to an [Auto] query on its first attempt, yields
    no [Success] and no list: the callback is not invoked, the fallback is
    consumed and an IPv4 request is made. *)
Lemma C10_counterexample :
  events_since one_auto_query
    (onAresGetAddrInfoCallback network_only 0 ARES_SUCCESS 0
       (Some [node_unspec 30; node_10_0_0_1 60]) one_auto_query)
  = [EvGetAddrInfo 0 0 "upstream.example" AF_INET]
  /\ callback_count
       (events_since one_auto_query
          (onAresGetAddrInfoCallback network_only 0 ARES_SUCCESS 0
             (Some [node_unspec 30; node_10_0_0_1 60]) one_auto_query))
     = 0.
Proof. split; reflexivity. Qed.

Lemma per_record_ttl_ipv4 nodes : per_record_ttl nodes (map to_ipv4_response nodes).
Proof.
  unfold per_record_ttl. induction nodes as [|ai nodes IH]; cbn;
    constructor; auto.
Qed.

Lemma per_record_ttl_ipv6 nodes : per_record_ttl nodes (map to_ipv6_response nodes).
Proof.
  unfold per_record_ttl. induction nodes as [|ai nodes IH]; cbn;
    constructor; auto.
Qed.

(** C7 (as amended): on a successful answer whose first record is of the
    IPv4 or of the IPv6 family, a query of the caller that is not cancelled
    ends with one callback, [Success], and the response has exactly one
    entry for every answer record, in order, each with the TTL of its own
    record. *)
Theorem C7_every_record_keeps_its_ttl (lib : AresLibrary)
    (this c : nat) (base : PendingResolutionBase) (fallback : bool) (w : World)
    (first : ares_addrinfo_node) (rest : list ares_addrinfo_node)
    (timeouts : Z) :
  objects w !! this
  = Some (PendingResolution base (CallerResolveCb c) fallback) ->
  cancelled_ base = false ->
  ai_family first = AF_INET \/ ai_family first = AF_INET6 ->
  exists response,
    events_since w
      (onAresGetAddrInfoCallback lib this ARES_SUCCESS timeouts
         (Some (first :: rest)) w)
    = EvResolveCb this c Success response
      :: (if owned_ base then [EvDelete this] else [])
    /\ per_record_ttl (first :: rest) response.
Proof.
  intros Hobj Hcan Hfam.
  assert (Haddr : answer_addresses ARES_SUCCESS (Some (first :: rest))
                  = map to_ipv4_response (first :: rest)
                  \/ answer_addresses ARES_SUCCESS (Some (first :: rest))
                     = map to_ipv6_response (first :: rest)).
  { unfold answer_addresses, address_list_of. cbn [Z.eqb ARES_SUCCESS].
    destruct Hfam as [-> | ->]; [left|right]; reflexivity. }
  exists (answer_addresses ARES_SUCCESS (Some (first :: rest))).
  split.
  - rewrite (completion_final lib this c base fallback).
    + unfold final_events. rewrite Hcan. reflexivity.
    + exact Hobj.
    + right. right. destruct Haddr as [-> | ->]; discriminate.
  - destruct Haddr as [-> | ->];
      [apply per_record_ttl_ipv4|apply per_record_ttl_ipv6].
Qed.

(** Two IPv4 records with TTLs 30 and 60, answered to an Auto query on its
    first attempt. *)
Lemma C7_witness :
  exists response,
    events_since one_auto_query
      (onAresGetAddrInfoCallback network_only 0 ARES_SUCCESS 0
         (Some [node_10_0_0_1 30; node_10_0_0_1 60]) one_auto_query)
    = [EvResolveCb 0 7 Success response; EvDelete 0]
    /\ per_record_ttl [node_10_0_0_1 30; node_10_0_0_1 60] response.
Proof.
  exact (C7_every_record_keeps_its_ttl network_only 0 7
           {| ares_channel_ := 0; dns_name_ := "upstream.example";
              completed_ := false; owned_ := true; cancelled_ := false |}
           true one_auto_query (node_10_0_0_1 30) [node_10_0_0_1 60] 0
           eq_refl eq_refl (or_introl eq_refl)).
Defined.

(** C7 as stated fails: a successful, final answer of two records with
    TTLs 30 and 60 whose first record is of neither family reaches the
    caller as [Success] with no entry at all. *)
Lemma C7_counterexample :
  let nodes := [node_unspec 30; node_10_0_0_1 60] in
  let w := snd (resolve network_only "upstream.example" V4Only
                  (CallerResolveCb 7) initial_world) in
  events_since w
    (ares_process network_only 0 (addrinfo_answer ARES_SUCCESS (Some nodes)) w)
  = [EvResolveCb 0 7 Success []; EvDelete 0]
  /\ ~ per_record_ttl nodes [].
Proof.
  split; [reflexivity|].
  intros H. inversion H.
Qed.

(** C5 (as amended): an Auto query asks for IPv6 first, with the fallback
    allowed.  If and only if that first attempt ends with a status other
    than the destruction sentinel and brings no address, the fallback is
    consumed and then exactly one IPv4 request is made; nothing is
    reported for the first attempt, and what the caller receives is the
    result of the IPv4 attempt.  When the first attempt brings addresses
    or ends by destruction, no further request is made and its own result
    is what the caller receives.  A query whose fallback is consumed never
    asks again. *)
Theorem C5_auto_falls_back_once (lib : AresLibrary) :
  (forall name c w,
     let w1 := if dirty_channel_ w
               then initializeChannel (ares_destroy lib (channel_ w) w)
               else w in
     let this := next_object w1 in
     let r := resolve lib name Auto (CallerResolveCb c) w in
     (exists tr,
        trace (snd r)
        = trace w1 ++ EvGetAddrInfo (channel_ w1) this name AF_INET6 :: tr)
     /\ (ares_getaddrinfo_now lib name AF_INET6 = None ->
         fst r = Some this
         /\ objects (snd r) !! this
            = Some (PendingResolution
                      {| ares_channel_ := channel_ w1; dns_name_ := name;
                         completed_ := false; owned_ := true;
                         cancelled_ := false |}
                      (CallerResolveCb c) true)))
  /\ (forall this c base w status timeouts addrinfo,
        objects w !! this
        = Some (PendingResolution base (CallerResolveCb c) true) ->
        completed_ base = false ->
        let w' := onAresGetAddrInfoCallback lib this status timeouts addrinfo w in
        (status <> ARES_EDESTRUCTION ->
         answer_addresses status addrinfo = [] ->
         w' = getAddrInfo lib this AF_INET
                (store this (PendingResolution base (CallerResolveCb c) false) w)
         /\ events_since w w'
            = EvGetAddrInfo (ares_channel_ base) this (dns_name_ base) AF_INET
              :: match ares_getaddrinfo_now lib (dns_name_ base) AF_INET with
                 | Some a =>
                     final_events this c base (ans_status a) (ans_addrinfo a)
                 | None => []
                 end
         /\ issued_families (events_since w w') = [AF_INET])
        /\ (status = ARES_EDESTRUCTION
            \/ answer_addresses status addrinfo <> [] ->
            events_since w w' = final_events this c base status addrinfo
            /\ issued_families (events_since w w') = []))
  /\ (forall this c base w status timeouts addrinfo,
        objects w !! this
        = Some (PendingResolution base (CallerResolveCb c) false) ->
        let w' := onAresGetAddrInfoCallback lib this status timeouts addrinfo w in
        events_since w w' = final_events this c base status addrinfo
        /\ issued_families (events_since w w') = []).
Proof.
  split; [|split].
  - intros name c w w1 this r. subst r. unfold resolve. fold w1.
    cbn [alloc]. fold this.
    match goal with
    | |- context [getAddrInfo lib this AF_INET6 ?x] => set (w2 := x)
    end.
    assert (Hobj : objects w2 !! this
                   = Some (PendingResolution
                             {| ares_channel_ := channel_ w1; dns_name_ := name;
                                completed_ := false; owned_ := false;
                                cancelled_ := false |}
                             (CallerResolveCb c) true))
      by apply lookup_insert_eq.
    split.
    + destruct (extends_preparePendingResolution this
                  (getAddrInfo lib this AF_INET6 w2)) as [tr2 E2].
      rewrite E2. rewrite getAddrInfo_eq, Hobj. cbn [query_base ares_channel_ dns_name_].
      cbv zeta. set (e := EvGetAddrInfo _ _ _ _).
      destruct (ares_getaddrinfo_now lib name AF_INET6) as [a|].
      * destruct (extends_onAresGetAddrInfoCallback lib this (ans_status a)
                    (ans_timeouts a) (ans_addrinfo a) (emit e w2)) as [tr1 E1].
        rewrite E1. exists (tr1 ++ tr2). cbn [trace emit].
        rewrite <- !app_assoc. reflexivity.
      * exists tr2. cbn. rewrite <- app_assoc. reflexivity.
    + intros Hnow. rewrite getAddrInfo_eq, Hobj.
      cbn [query_base ares_channel_ dns_name_]. cbv zeta. rewrite Hnow.
      unfold preparePendingResolution.
      cbn [objects add_request set_requests emit]. rewrite Hobj.
      cbn [query_base completed_ fst snd]. split; [reflexivity|].
      cbn. apply lookup_insert_eq.
  - intros this c base w status timeouts addrinfo Hobj Hc w'. subst w'.
    split.
    + intros Hst Hnil.
      assert (E : onAresGetAddrInfoCallback lib this status timeouts addrinfo w
                  = getAddrInfo lib this AF_INET
                      (store this
                         (PendingResolution base (CallerResolveCb c) false) w)).
      { unfold onAresGetAddrInfoCallback.
        rewrite (body_fallback _ _ _ _ _ _ _ Hobj Hst Hc Hnil). reflexivity. }
      split; [exact E|].
      assert (Hev : events_since w
                (onAresGetAddrInfoCallback lib this status timeouts addrinfo w)
              = EvGetAddrInfo (ares_channel_ base) this (dns_name_ base) AF_INET
                :: match ares_getaddrinfo_now lib (dns_name_ base) AF_INET with
                   | Some a =>
                       final_events this c base (ans_status a) (ans_addrinfo a)
                   | None => []
                   end).
      { rewrite E.
        apply (getAddrInfo_consumed lib this c base AF_INET
                 (store this (PendingResolution base (CallerResolveCb c) false) w)).
        apply lookup_insert_eq. }
      split; [exact Hev|]. rewrite Hev. cbn.
      destruct (ares_getaddrinfo_now lib (dns_name_ base) AF_INET);
        [rewrite final_events_no_request|]; reflexivity.
    + intros Hfin.
      rewrite (completion_final lib this c base true) by tauto.
      split; [reflexivity|apply final_events_no_request].
  - intros this c base w status timeouts addrinfo Hobj w'. subst w'.
    rewrite (completion_final lib this c base false) by auto.
    split; [reflexivity|apply final_events_no_request].
Qed.

(** The first attempt of an Auto query finds nothing: the only thing that
    happens is the IPv4 request. *)
Lemma C5_witness :
  events_since one_auto_query
    (onAresGetAddrInfoCallback network_only 0 ARES_ENOTFOUND 0 None
       one_auto_query)
  = [EvGetAddrInfo 0 0 "upstream.example" AF_INET].
Proof.
  exact (proj1 (proj2
    (proj1 (proj1 (proj2 (C5_auto_falls_back_once network_only)) 0 7
              {| ares_channel_ := 0; dns_name_ := "upstream.example";
                 completed_ := false; owned_ := true; cancelled_ := false |}
              one_auto_query ARES_ENOTFOUND 0%Z None eq_refl eq_refl)
       ltac:(discriminate) eq_refl))).
Defined.

(** C5 as stated fails: the resolver is destroyed while the first (IPv6)
    attempt of an Auto query is outstanding.  The attempt ends without an
    address, yet no IPv4 request follows and the callback fires for this
    first attempt. *)
Lemma C5_counterexample :
  trace one_auto_query = [EvGetAddrInfo 0 0 "upstream.example" AF_INET6]
  /\ events_since one_auto_query
       (destroy_DnsResolverImpl network_only one_auto_query)
     = [EvAresDestroy 0; EvResolveCb 0 7 Failure []; EvDelete 0]
  /\ issued_families
       (events_since one_auto_query
          (destroy_DnsResolverImpl network_only one_auto_query))
     = [].
Proof. repeat split; reflexivity. Qed.

(** C6: a resolver has run from its construction and [h] is the handle of
    a query that is still alive.  Once [cancel] is called on it, nothing
    that happens afterwards (completions of any request with any status,
    new calls, other cancellations, the destruction of the resolver) makes
    the callback of that query fire. *)
Theorem C6_cancelled_query_never_calls_back (lib : AresLibrary)
    (before after : list Input) (h : nat) :
  let w := run lib initial_world before in
  is_Some (objects w !! h) ->
  Forall (fun e => is_callback_of h e = false)
    (events_since w (run lib (cancel h w) after)).
Proof.
  intros w Hlive.
  pose proof (Inv_cancel h w (Inv_reachable lib before) Hlive) as HInv.
  destruct (leads_run lib (fun i => i = h) after (cancel h w) HInv)
    as (_ & tr & Htr & Hq).
  assert (Hsame : trace (cancel h w) = trace w).
  { unfold cancel. destruct Hlive as [q ->]. reflexivity. }
  rewrite Hsame in Htr. rewrite (events_since_app _ _ _ Htr).
  eapply Forall_impl; [exact Hq|].
  intros e He. apply He. reflexivity.
Qed.

(** An Auto query is cancelled; then its first attempt fails, its fallback
    succeeds, and the resolver is destroyed. *)
Lemma C6_witness :
  Forall (fun e => is_callback_of 0 e = false)
    (events_since one_auto_query
       (run network_only (cancel 0 one_auto_query)
          [AresCompletes 0 (addrinfo_answer ARES_ENOTFOUND None);
           AresCompletes 0
             (addrinfo_answer ARES_SUCCESS (Some [node_10_0_0_1 30]));
           DestroyResolver])).
Proof.
  exact (C6_cancelled_query_never_calls_back network_only
           [CallResolve "upstream.example" Auto 7]
           [AresCompletes 0 (addrinfo_answer ARES_ENOTFOUND None);
            AresCompletes 0
              (addrinfo_answer ARES_SUCCESS (Some [node_10_0_0_1 30]));
            DestroyResolver]
           0 (ex_intro _ _ eq_refl)).
Defined.

(** ** The SRV path *)

Section SrvPath.

Variable lib : AresLibrary.

(** [ares_destroy] reaches an SRV query through the first branch of its
    callback, whatever else the callback would do. *)
Lemma onAresSrvStartCallback_at_destruction this timeouts buf w :
  onAresSrvStartCallback lib this ARES_EDESTRUCTION timeouts buf w
  = onAresSrvStartCallback_destruction this w.
Proof. reflexivity. Qed.

(** An SRV lookup that ends without targets (a status other than success
    and destruction, an answer that does not parse, or no record) leaves
    the trace as it was: [completed_] stays false, so
    [onAresSrvFinishCallback] neither calls back nor frees the query. *)
Lemma srv_start_without_targets this base cb family status timeouts buf w :
  objects w !! this = Some (PendingSrvResolution base cb family) ->
  completed_ base = false ->
  status <> ARES_EDESTRUCTION ->
  status <> ARES_SUCCESS
  \/ fst (ares_parse_srv_reply lib buf) <> ARES_SUCCESS
  \/ snd (ares_parse_srv_reply lib buf) = [] ->
  trace (onAresSrvStartCallback lib this status timeouts buf w) = trace w
  /\ is_Some (objects (onAresSrvStartCallback lib this status timeouts buf w)
              !! this).
Proof.
  intros Hobj Hc Hst Hcase.
  assert (Hfin : trace (onAresSrvFinishCallback this [] w) = trace w
                 /\ is_Some (objects (onAresSrvFinishCallback this [] w) !! this)).
  { unfold onAresSrvFinishCallback. rewrite Hobj. cbn [is_nil]. rewrite Hc.
    split; [reflexivity|]. cbn. rewrite lookup_insert_eq. eauto. }
  unfold onAresSrvStartCallback.
  destruct (Z.eqb_spec status ARES_EDESTRUCTION); [contradiction|].
  destruct (Z.eqb_spec status ARES_SUCCESS) as [->|]; [|exact Hfin].
  destruct (ares_parse_srv_reply lib buf) as [status1 srv_reply].
  cbn [fst snd] in Hcase.
  destruct (Z.eqb_spec status1 ARES_SUCCESS) as [->|]; [|exact Hfin].
  destruct Hcase as [H|[H| ->]]; try contradiction.
  cbn. rewrite Hobj. eauto.
Qed.

(** On destruction an SRV query is freed and nothing else happens. *)
Lemma srv_destruction_is_silent this timeouts buf w :
  events_since w
    (onAresSrvStartCallback lib this ARES_EDESTRUCTION timeouts buf w)
  = [EvDelete this].
Proof. apply events_since_app. reflexivity. Qed.

(** The release test of the fan-out closure, as line 358 has it: the
    incremented copy of [finished] against the size of the copy of
    [srv_records], which holds the target records and the endpoints just
    appended. *)
Lemma srv_barrier_condition query this finished srv_records current_reply
    status response w :
  trace (invoke_ResolveCb query
           (SrvSubResolveCb this finished srv_records current_reply)
           status response w) <> trace w ->
  S finished = length srv_records + length response.
Proof.
  cbn [invoke_ResolveCb]. cbv zeta.
  rewrite length_app, length_map.
  destruct (Nat.eqb_spec (S finished) (length srv_records + length response));
    [auto|congruence].
Qed.

(** [resolveSrv] never looks at [dirty_channel_]: a request that goes to
    the network goes to the channel that the resolver had when the call
    began, and the flag and the channel are as before. *)
Lemma resolveSrv_keeps_channel name family cb w :
  ares_query_now lib name = None ->
  let r := resolveSrv lib name family cb w in
  fst r = Some (next_object w)
  /\ events_since w (snd r) = [EvAresQuery (channel_ w) (next_object w) name]
  /\ dirty_channel_ (snd r) = dirty_channel_ w
  /\ channel_ (snd r) = channel_ w.
Proof.
  intros Hnow r. subst r. unfold resolveSrv. cbn [alloc].
  unfold getSrvByName. cbn [objects]. rewrite lookup_insert_eq.
  cbn [query_base ares_channel_ dns_name_]. cbv zeta. rewrite Hnow.
  unfold preparePendingResolution.
  cbn [objects add_request set_requests emit]. rewrite lookup_insert_eq.
  cbn [query_base completed_ fst snd].
  repeat split. apply events_since_app. reflexivity.
Qed.

End SrvPath.

(** C1: the code does not do what the claim says.  An SRV lookup that ends
    with a status other than success, with an answer that does not parse,
    or with no record never reaches the caller's callback: the callback is
    invoked zero times, the query stays allocated and nothing is left in
    flight that could still complete it. *)
Theorem C1_srv_lookup_without_targets_is_silent :
  let asked := run network_only initial_world
                 [CallResolveSrv "_svc._tcp.example" Auto 7] in
  let not_found := ares_process network_only 0
                     (srv_answer ARES_ENOTFOUND []) asked in
  let unparsed := ares_process network_only 0
                    (srv_answer ARES_SUCCESS []) asked in
  let no_record := ares_process (srv_library []) 0
                     (srv_answer ARES_SUCCESS []) asked in
  callback_count (trace not_found) = 0
  /\ callback_count (trace unparsed) = 0
  /\ callback_count (trace no_record) = 0
  /\ requests not_found = [] /\ requests unparsed = []
  /\ requests no_record = []
  /\ is_Some (objects not_found !! 0) /\ is_Some (objects unparsed !! 0)
  /\ is_Some (objects no_record !! 0).
Proof. cbv zeta. repeat split; vm_compute; eauto. Qed.

(** C2: the code does not do what the claim says for [resolveSrv].  On a
    resolver whose channel a refused connection has marked dirty,
    [resolve] destroys channel 0 and makes channel 1 before it asks (as it
    does on every dirty channel, [resolve_resets_dirty_channel]), while
    [resolveSrv] asks on channel 0 and leaves the flag set (as it does on
    every channel, [resolveSrv_keeps_channel]). *)
Theorem C2_resolveSrv_asks_on_dirty_channel :
  dirty_channel_ refused_world = true /\ channel_ refused_world = 0
  /\ (let w := snd (resolve network_only "b.example" V4Only
                      (CallerResolveCb 2) refused_world) in
      events_since refused_world w
      = [EvAresDestroy 0; EvAresInit 1; EvGetAddrInfo 1 1 "b.example" AF_INET]
      /\ dirty_channel_ w = false)
  /\ (let w := snd (resolveSrv network_only "_svc._tcp.example" V4Only 2
                      refused_world) in
      events_since refused_world w = [EvAresQuery 0 1 "_svc._tcp.example"]
      /\ dirty_channel_ w = true /\ channel_ w = 0).
Proof. cbv zeta. repeat split; vm_compute; reflexivity. Qed.

(** C3: the code does not do what the claim says for SRV queries.  An
    address query and an SRV query are outstanding, owned by the resolver
    and not cancelled; destroying the resolver raises the callback of the
    address query with [Failure] (as for every address query,
    [completion_final]) and frees the SRV query without a call (as for
    every SRV query, [srv_destruction_is_silent]): one callback for two
    queries. *)
Theorem C3_destruction_frees_srv_query_silently :
  let w := run network_only initial_world
             [CallResolve "a.example" V4Only 1;
              CallResolveSrv "_svc._tcp.example" Auto 2] in
  let w' := destroy_DnsResolverImpl network_only w in
  length (requests w) = 2
  /\ (owned_ ∘ query_base) <$> objects w !! 0 = Some true
  /\ (owned_ ∘ query_base) <$> objects w !! 1 = Some true
  /\ (cancelled_ ∘ query_base) <$> objects w !! 0 = Some false
  /\ (cancelled_ ∘ query_base) <$> objects w !! 1 = Some false
  /\ events_since w w'
     = [EvAresDestroy 0; EvResolveCb 0 1 Failure []; EvDelete 0; EvDelete 1]
  /\ callback_count (events_since w w') = 1.
Proof. cbv zeta. repeat split; vm_compute; reflexivity. Qed.

(** C4: the code does not do what the claim says.  The closure compares
    its counter with the size of [srv_records], not with the number of
    targets.  With one target that resolves to one address, and with two
    targets of which one resolves and one fails, every sub-resolution has
    completed and the caller is never called; the SRV query stays
    allocated with nothing in flight.  With one target that fails, the
    counter meets the size and the caller receives the target record. *)
Theorem C4_srv_barrier_stalls :
  let one := run (srv_library [target_a]) initial_world
               [CallResolveSrv "_svc._tcp.example" V4Only 7;
                AresCompletes 0 (srv_answer ARES_SUCCESS [])] in
  let one_resolved :=
    ares_process (srv_library [target_a]) 1
      (addrinfo_answer ARES_SUCCESS (Some [node_10_0_0_1 30])) one in
  let one_failed :=
    ares_process (srv_library [target_a]) 1
      (addrinfo_answer ARES_ENOTFOUND None) one in
  let two := run (srv_library [target_a; target_b]) initial_world
               [CallResolveSrv "_svc._tcp.example" V4Only 7;
                AresCompletes 0 (srv_answer ARES_SUCCESS []);
                AresCompletes 1
                  (addrinfo_answer ARES_SUCCESS (Some [node_10_0_0_1 30]));
                AresCompletes 2 (addrinfo_answer ARES_ENOTFOUND None)] in
  (trace one_resolved
   = [EvAresQuery 0 0 "_svc._tcp.example"; EvGetAddrInfo 0 1 "a.example" AF_INET;
      EvDelete 1]
   /\ requests one_resolved = [] /\ is_Some (objects one_resolved !! 0))
  /\ (trace two
      = [EvAresQuery 0 0 "_svc._tcp.example";
         EvGetAddrInfo 0 1 "a.example" AF_INET;
         EvGetAddrInfo 0 2 "b.example" AF_INET; EvDelete 1; EvDelete 2]
      /\ requests two = [] /\ is_Some (objects two !! 0))
  /\ events_since one one_failed
     = [EvResolveSrvCb 0 7 [SrvDnsResponse "a.example" 8080 60 5];
        EvDelete 0; EvDelete 1].
Proof. cbv zeta. repeat split; vm_compute; eauto. Qed.

(** C8: the code does not do what the claim says for [resolveSrv].
    [resolve] returns the null handle when c-ares answered inside the
    call, after the callback, and a handle to an owned query when the
    request went to the network (as it always does, [resolve_handle]).
    [resolveSrv], when c-ares rejects the name inside the call, has
    nothing in flight and has invoked no callback, and still returns a
    handle to a query that it marks owned. *)
Theorem C8_resolveSrv_returns_handle_after_synchronous_failure :
  (let r := resolve immediate_library "localhost" V4Only (CallerResolveCb 1)
              initial_world in
   fst r = None
   /\ trace (snd r)
      = [EvGetAddrInfo 0 0 "localhost" AF_INET;
         EvResolveCb 0 1 Success
           [{| address_ := Ipv4Instance
                             [Byte.x0a; Byte.x00; Byte.x00; Byte.x01] 0;
               ttl_ := 0 |}];
         EvDelete 0]
   /\ requests (snd r) = [])
  /\ (let r := resolve network_only "upstream.example" V4Only
                 (CallerResolveCb 1) initial_world in
      fst r = Some 0
      /\ (owned_ ∘ query_base) <$> objects (snd r) !! 0 = Some true
      /\ length (requests (snd r)) = 1
      /\ callback_count (trace (snd r)) = 0)
  /\ (let r := resolveSrv immediate_library "bad..name" V4Only 1
                 initial_world in
      fst r = Some 0
      /\ (owned_ ∘ query_base) <$> objects (snd r) !! 0 = Some true
      /\ requests (snd r) = []
      /\ trace (snd r) = [EvAresQuery 0 0 "bad..name"]
      /\ callback_count (trace (snd r)) = 0).
Proof. cbv zeta. repeat split; vm_compute; reflexivity. Qed.

(** ** Further properties of the resolver *)

(** *** A callback is invoked at most once *)

Section AtMostOnce.
Variable lib : AresLibrary.

Lemma resolve_callbacks_snoc h tr e :
  resolve_callbacks h (tr ++ [e])
  = resolve_callbacks h tr + (if is_ResolveCb_of h e then 1 else 0).
Proof.
  unfold resolve_callbacks. rewrite List.filter_app, length_app.
  f_equal. cbn [List.filter]. destruct (is_ResolveCb_of h e); reflexivity.
Qed.

Lemma silent_refl w : silent w w.
Proof. repeat split. Qed.

Lemma silent_trans w1 w2 w3 : silent w1 w2 -> silent w2 w3 -> silent w1 w3.
Proof.
  intros (R1 & N1 & C1) (R2 & N2 & C2).
  split; [congruence|]. split; [congruence|].
  intros h. rewrite C2. apply C1.
Qed.

Lemma silent_same w w' :
  requests w' = requests w -> next_object w' = next_object w ->
  trace w' = trace w -> silent w w'.
Proof.
  intros R N T. split; [exact R|]. split; [exact N|].
  intros h. rewrite T. reflexivity.
Qed.

Lemma silent_emit e w :
  (forall h, is_ResolveCb_of h e = false) -> silent w (emit e w).
Proof.
  intros He. split; [reflexivity|]. split; [reflexivity|].
  intros h. change (trace (emit e w)) with (trace w ++ [e]).
  rewrite resolve_callbacks_snoc, He. lia.
Qed.

Lemma silent_delete_this this w : silent w (delete_this this w).
Proof.
  split; [reflexivity|]. split; [reflexivity|].
  intros h. change (trace (delete_this this w)) with (trace w ++ [EvDelete this]).
  rewrite resolve_callbacks_snoc. cbn. lia.
Qed.

Lemma fired_refl this w : fired this w w.
Proof.
  split; [reflexivity|]. split; [reflexivity|]. split; [reflexivity|lia].
Qed.

Lemma silent_fired this w1 w2 w3 :
  silent w1 w2 -> fired this w2 w3 -> fired this w1 w3.
Proof.
  intros (R1 & N1 & C1) (R2 & N2 & C2 & L2).
  split; [congruence|]. split; [congruence|]. split.
  - intros h Hh. rewrite C2 by exact Hh. apply C1.
  - rewrite <- C1. exact L2.
Qed.

Lemma fired_silent this w1 w2 w3 :
  fired this w1 w2 -> silent w2 w3 -> fired this w1 w3.
Proof.
  intros (R1 & N1 & C1 & L1) (R2 & N2 & C2).
  split; [congruence|]. split; [congruence|]. split.
  - intros h Hh. rewrite C2. apply C1, Hh.
  - rewrite C2. exact L1.
Qed.

Lemma silent_is_fired this w w' : silent w w' -> fired this w w'.
Proof. intros H. eapply silent_fired; [exact H|apply fired_refl]. Qed.

Ltac not_ResolveCb := intros ?; reflexivity.

Ltac silent_auto :=
  lazymatch goal with
  | |- silent ?w ?w => apply silent_refl
  | |- silent ?w (if ?b then _ else _) => destruct b; silent_auto
  | |- silent ?w (emit ?e ?w') =>
      apply (silent_trans w w'); [silent_auto | apply silent_emit; not_ResolveCb]
  | |- silent ?w (delete_this ?t ?w') =>
      apply (silent_trans w w'); [silent_auto | apply silent_delete_this]
  | |- silent ?w (store ?t ?q ?w') =>
      apply (silent_trans w w'); [silent_auto | apply silent_same; reflexivity]
  | |- silent ?w (set_dirty_channel ?v ?w') =>
      apply (silent_trans w w'); [silent_auto | apply silent_same; reflexivity]
  | |- silent ?w (set_channel ?v ?w') =>
      apply (silent_trans w w'); [silent_auto | apply silent_same; reflexivity]
  | _ => idtac
  end.

Lemma silent_onAresSrvFinishCallback this srv_records w :
  silent w (onAresSrvFinishCallback this srv_records w).
Proof.
  unfold onAresSrvFinishCallback.
  destruct (objects w !! this) as [[|base cb fam]|];
    try (apply silent_emit; not_ResolveCb).
  cbv zeta. silent_auto.
Qed.

Lemma fired_invoke_ResolveCb this cb status response w :
  fired this w (invoke_ResolveCb this cb status response w).
Proof.
  destruct cb as [c|p finished recs reply]; cbn [invoke_ResolveCb].
  - split; [reflexivity|]. split; [reflexivity|]. split.
    + intros h Hh. change (trace (emit ?e w)) with (trace w ++ [e]).
      rewrite resolve_callbacks_snoc. cbn [is_ResolveCb_of].
      destruct (Nat.eqb_spec this h); [congruence|lia].
    + change (trace (emit ?e w)) with (trace w ++ [e]).
      rewrite resolve_callbacks_snoc. cbn [is_ResolveCb_of].
      rewrite Nat.eqb_refl. lia.
  - cbv zeta. apply silent_is_fired.
    destruct (_ =? _);
      [apply silent_onAresSrvFinishCallback|apply silent_refl].
Qed.

Ltac fired_auto :=
  lazymatch goal with
  | |- fired ?t ?w ?w => apply fired_refl
  | |- fired ?t ?w (if ?b then _ else _) => destruct b; fired_auto
  | |- fired ?t ?w (invoke_ResolveCb ?t ?cb ?s ?r ?w') =>
      apply (silent_fired t w w');
      [silent_auto | apply fired_invoke_ResolveCb]
  | |- fired ?t ?w (emit ?e ?w') =>
      apply (fired_silent t w w'); [fired_auto | apply silent_emit; not_ResolveCb]
  | |- fired ?t ?w (delete_this ?x ?w') =>
      apply (fired_silent t w w'); [fired_auto | apply silent_delete_this]
  | |- fired ?t ?w (store ?x ?q ?w') =>
      apply (fired_silent t w w'); [fired_auto | apply silent_same; reflexivity]
  | |- fired ?t ?w (set_dirty_channel ?v ?w') =>
      apply (fired_silent t w w'); [fired_auto | apply silent_same; reflexivity]
  | _ => idtac
  end.

Lemma fired_body this status timeouts addrinfo w :
  fired this w (fst (onAresGetAddrInfoCallback_body this status timeouts addrinfo w)).
Proof.
  unfold onAresGetAddrInfoCallback_body, mark_dirty_if_refused.
  destruct (objects w !! this) as [[base cb fb|]|];
    try (apply silent_is_fired, silent_emit; not_ResolveCb).
  destruct (status =? ARES_EDESTRUCTION)%Z; [cbn [fst]; fired_auto|].
  cbv zeta.
  repeat match goal with
         | |- context [if ?b then (_, _) else _] => destruct b
         end; cbn [fst]; fired_auto.
Qed.

Lemma silent_body_again this status timeouts addrinfo w w1 :
  onAresGetAddrInfoCallback_body this status timeouts addrinfo w = (w1, true) ->
  silent w w1.
Proof.
  unfold onAresGetAddrInfoCallback_body, mark_dirty_if_refused.
  destruct (objects w !! this) as [[base cb fb|]|]; [|discriminate..].
  destruct (status =? ARES_EDESTRUCTION)%Z; [discriminate|].
  cbv zeta.
  match goal with |- context [completed_ ?b] => set (base2 := b) end.
  destruct (completed_ base2); [destruct (owned_ base2); discriminate|].
  destruct fb; [|discriminate].
  intros [= <-]. silent_auto.
Qed.


Lemma silent_asked this w1 w2 w3 :
  silent w1 w2 -> asked this w2 w3 -> asked this w1 w3.
Proof.
  intros (R1 & N1 & C1) ((r & R2 & A) & N2 & C2).
  split; [exists r; split; [congruence|exact A]|].
  split; [congruence|]. intros h. rewrite C2. apply C1.
Qed.

Lemma attempt_getAddrInfo_fuel n : forall this family w w',
  getAddrInfo_fuel lib n this family w = Some w' ->
  fired this w w' \/ asked this w w'.
Proof.
  induction n as [|n IH]; intros this family w w'; [discriminate|].
  rewrite getAddrInfo_fuel_S.
  destruct (objects w !! this) as [q|].
  2: { intros [= <-]. left. apply silent_is_fired, silent_emit. not_ResolveCb. }
  cbv zeta. set (e := EvGetAddrInfo _ _ _ _).
  assert (He : silent w (emit e w)) by (apply silent_emit; not_ResolveCb).
  destruct (ares_getaddrinfo_now lib _ family) as [a|].
  2: { intros [= <-]. right. split; [eexists; split; reflexivity|].
       split; [reflexivity|]. apply He. }
  pose proof (fired_body this (ans_status a) (ans_timeouts a) (ans_addrinfo a)
                (emit e w)) as Hf.
  pose proof (silent_body_again this (ans_status a) (ans_timeouts a)
                (ans_addrinfo a) (emit e w)) as Hs.
  destruct (onAresGetAddrInfoCallback_body _ _ _ _ _) as [w2 [|]].
  - specialize (Hs w2 eq_refl). intros H. apply IH in H.
    pose proof (silent_trans _ _ _ He Hs) as H2.
    destruct H as [H|H]; [left; eapply silent_fired|right; eapply silent_asked];
      eauto.
  - intros [= <-]. left. eapply silent_fired; [exact He|exact Hf].
Qed.

Lemma attempt_getAddrInfo this family w :
  fired this w (getAddrInfo lib this family w)
  \/ asked this w (getAddrInfo lib this family w).
Proof.
  pose proof (getAddrInfo_fuel_enough lib 0 this family w) as H.
  apply attempt_getAddrInfo_fuel in H. exact H.
Qed.

Lemma attempt_onAresGetAddrInfoCallback this status timeouts addrinfo w :
  let w' := onAresGetAddrInfoCallback lib this status timeouts addrinfo w in
  fired this w w' \/ asked this w w'.
Proof.
  unfold onAresGetAddrInfoCallback.
  pose proof (fired_body this status timeouts addrinfo w) as Hf.
  pose proof (silent_body_again this status timeouts addrinfo w) as Hs.
  destruct (onAresGetAddrInfoCallback_body _ _ _ _ _) as [w1 [|]]; cbv zeta.
  - specialize (Hs w1 eq_refl).
    destruct (attempt_getAddrInfo this AF_INET w1) as [H|H];
      [left; eapply silent_fired|right; eapply silent_asked]; eauto.
  - left. exact Hf.
Qed.

Lemma Once_silent w w' : Once w -> silent w w' -> Once w'.
Proof.
  intros (D & Q & F & L) (R & N & C).
  split; [rewrite R; exact D|]. split.
  - intros r Hr. rewrite R in Hr. rewrite N, C. auto.
  - split; intros h; rewrite ?N, C; auto.
Qed.

Lemma Once_fired this w w' :
  Once w -> this < next_object w ->
  resolve_callbacks this (trace w) = 0 ->
  (forall r, r ∈ requests w -> req_arg r <> this) ->
  fired this w w' -> Once w'.
Proof.
  intros (D & Q & F & L) Hlt Hz Hr (R & N & C & L1).
  split; [rewrite R; exact D|]. split; [|split].
  - intros r Hin. rewrite R in Hin. rewrite N.
    rewrite C by (apply Hr, Hin). auto.
  - intros h Hh. rewrite N in Hh. rewrite C by lia. auto.
  - intros h. destruct (decide (h = this)) as [->|Hne].
    + lia.
    + rewrite C by exact Hne. auto.
Qed.

Lemma Once_asked this w w' :
  Once w -> this < next_object w ->
  resolve_callbacks this (trace w) = 0 ->
  (forall r, r ∈ requests w -> req_arg r <> this) ->
  asked this w w' -> Once w'.
Proof.
  intros (D & Q & F & L) Hlt Hz Hr ((r & R & A) & N & C).
  split; [|split; [|split]].
  - rewrite R, map_app. cbn. apply NoDup_app. split; [exact D|].
    split; [|apply NoDup_singleton].
    intros x Hx Hx'. apply list_elem_of_singleton in Hx'. subst x.
    apply list_elem_of_fmap in Hx as (r' & E & Hin).
    apply (Hr r' Hin). congruence.
  - intros r' Hin. rewrite R in Hin. rewrite N, C.
    apply elem_of_app in Hin as [Hin|Hin]; [auto|].
    apply list_elem_of_singleton in Hin. subst r'. rewrite A. auto.
  - intros h Hh. rewrite N in Hh. rewrite C. auto.
  - intros h. rewrite C. auto.
Qed.

Lemma Once_attempt this w w' :
  Once w -> this < next_object w ->
  resolve_callbacks this (trace w) = 0 ->
  (forall r, r ∈ requests w -> req_arg r <> this) ->
  fired this w w' \/ asked this w w' -> Once w'.
Proof.
  intros HO Hlt Hz Hr [H|H];
    [eapply Once_fired|eapply Once_asked]; eauto.
Qed.

(** What an attempt leaves for the owners of other requests. *)
Lemma attempt_frame this w w' :
  fired this w w' \/ asked this w w' ->
  next_object w' = next_object w
  /\ (forall h, h <> this ->
        resolve_callbacks h (trace w') = resolve_callbacks h (trace w))
  /\ (forall r, r ∈ requests w' -> r ∈ requests w \/ req_arg r = this).
Proof.
  intros [(R & N & C & _)|((r & R & A) & N & C)].
  - split; [exact N|]. split; [exact C|]. intros x Hx. rewrite R in Hx. auto.
  - split; [exact N|]. split; [intros h _; apply C|].
    intros x Hx. rewrite R in Hx. apply elem_of_app in Hx as [Hx|Hx]; [auto|].
    apply list_elem_of_singleton in Hx. subst x. auto.
Qed.

Lemma attempt_deliver_destruction w r :
  fired (req_arg r) w (deliver_destruction lib w r)
  \/ asked (req_arg r) w (deliver_destruction lib w r).
Proof.
  unfold deliver_destruction, onAresSrvStartCallback_destruction.
  destruct (req_kind r).
  - apply attempt_onAresGetAddrInfoCallback.
  - left. apply silent_is_fired, silent_delete_this.
Qed.

Lemma Once_fold_destruction l : forall w,
  NoDup (map req_arg l) -> Once w ->
  (forall r, r ∈ l ->
     req_arg r < next_object w
     /\ resolve_callbacks (req_arg r) (trace w) = 0
     /\ forall r', r' ∈ requests w -> req_arg r' <> req_arg r) ->
  Once (fold_left (deliver_destruction lib) l w)
  /\ next_object (fold_left (deliver_destruction lib) l w) = next_object w.
Proof.
  induction l as [|r l IH]; intros w Hnd HO Hl; cbn [fold_left]; [auto|].
  cbn in Hnd. apply NoDup_cons in Hnd as [Hnotin Hnd].
  destruct (Hl r ltac:(left)) as (Hlt & Hz & Hr).
  pose proof (attempt_deliver_destruction w r) as Ha.
  pose proof (Once_attempt _ _ _ HO Hlt Hz Hr Ha) as HO'.
  destruct (attempt_frame _ _ _ Ha) as (N & C & Rq).
  destruct (IH (deliver_destruction lib w r) Hnd HO') as [H1 H2].
  - intros r2 Hr2.
    assert (Hne : req_arg r2 <> req_arg r).
    { intros E. apply Hnotin. rewrite <- E. apply list_elem_of_fmap.
      exists r2. auto. }
    destruct (Hl r2 ltac:(right; exact Hr2)) as (Hlt2 & Hz2 & Hr2').
    rewrite N, C by exact Hne. split; [exact Hlt2|]. split; [exact Hz2|].
    intros r' Hr'. destruct (Rq r' Hr') as [Hin|E]; [auto|congruence].
  - split; [exact H1|congruence].
Qed.

(** Cutting the requests in flight by channel keeps their owners apart. *)
Lemma requests_by_channel (p : AresRequest -> bool) (l : list AresRequest) :
  NoDup (map req_arg l) ->
  NoDup (map req_arg (List.filter p l))
  /\ NoDup (map req_arg (List.filter (fun r => negb (p r)) l))
  /\ (forall d k, d ∈ List.filter p l ->
        k ∈ List.filter (fun r => negb (p r)) l -> req_arg k <> req_arg d)
  /\ (forall r, r ∈ List.filter p l -> r ∈ l)
  /\ (forall r, r ∈ List.filter (fun r => negb (p r)) l -> r ∈ l).
Proof.
  induction l as [|x l IH]; intros Hnd.
  - cbn. repeat split; try constructor; intros; auto;
      exfalso; eapply not_elem_of_nil; eauto.
  - cbn in Hnd. apply NoDup_cons in Hnd as [Hx Hnd].
    destruct (IH Hnd) as (D1 & D2 & Hdk & S1 & S2).
    assert (Hfresh : forall r, r ∈ l -> req_arg r <> req_arg x).
    { intros r Hr E. apply Hx. rewrite <- E. apply list_elem_of_fmap. eauto. }
    cbn [List.filter]. destruct (p x); cbn [negb map].
    + split; [|split; [exact D2|split; [|split]]].
      * cbn. apply NoDup_cons. split; [|exact D1].
        intros Hin. apply list_elem_of_fmap in Hin as (r & E & Hr).
        apply (Hfresh r (S1 r Hr)). congruence.
      * intros d k Hd Hk. apply elem_of_cons in Hd as [->|Hd].
        -- apply Hfresh, S2, Hk.
        -- apply Hdk; assumption.
      * intros r Hr. apply elem_of_cons in Hr as [->|Hr];
          [left|right; auto].
      * intros r Hr. right. auto.
    + split; [exact D1|split; [|split; [|split]]].
      * cbn. apply NoDup_cons. split; [|exact D2].
        intros Hin. apply list_elem_of_fmap in Hin as (r & E & Hr).
        apply (Hfresh r (S2 r Hr)). congruence.
      * intros d k Hd Hk. apply elem_of_cons in Hk as [->|Hk].
        -- intros E. apply (Hfresh d (S1 d Hd)). congruence.
        -- apply Hdk; assumption.
      * intros r Hr. right. auto.
      * intros r Hr. apply elem_of_cons in Hr as [->|Hr];
          [left|right; auto].
Qed.

Lemma Once_ares_destroy channel w :
  Once w ->
  Once (ares_destroy lib channel w)
  /\ next_object (ares_destroy lib channel w) = next_object w.
Proof.
  intros HO. pose proof HO as (D & Q & F & L).
  unfold ares_destroy. cbv zeta.
  destruct (requests_by_channel (fun r => req_channel r =? channel)
              (requests w) D) as (D1 & D2 & Hdk & S1 & S2).
  set (w0 := set_requests _ (emit (EvAresDestroy channel) w)).
  assert (Hz : forall h, resolve_callbacks h (trace w0)
                         = resolve_callbacks h (trace w)).
  { intros h. change (trace w0) with (trace w ++ [EvAresDestroy channel]).
    rewrite resolve_callbacks_snoc. cbn. lia. }
  assert (HO0 : Once w0).
  { split; [exact D2|]. split; [|split].
    - intros r Hr. rewrite Hz. apply Q, S2, Hr.
    - intros h Hh. rewrite Hz. apply F, Hh.
    - intros h. rewrite Hz. apply L. }
  destruct (Once_fold_destruction
              (List.filter (fun r => req_channel r =? channel) (requests w))
              w0 D1 HO0) as [H1 H2].
  - intros r Hr. destruct (Q r (S1 r Hr)) as [Q1 Q2].
    split; [exact Q1|]. split; [rewrite Hz; exact Q2|].
    intros r' Hr'. apply Hdk; assumption.
  - split; [exact H1|exact H2].
Qed.

Lemma silent_preparePendingResolution p w :
  silent w (snd (preparePendingResolution p w)).
Proof.
  unfold preparePendingResolution.
  destruct (objects w !! p) as [q|]; [|apply silent_emit; not_ResolveCb].
  destruct (completed_ (query_base q)); cbn [snd]; silent_auto.
Qed.

Lemma silent_cancel handle w : silent w (cancel handle w).
Proof.
  unfold cancel. destruct (objects w !! handle) as [q|]; silent_auto.
Qed.

Lemma silent_initializeChannel w : silent w (initializeChannel w).
Proof. unfold initializeChannel. cbv zeta. silent_auto. Qed.

(** A query just allocated has no request in flight and has not called
    back. *)
Lemma Once_alloc q w :
  Once w ->
  Once (snd (alloc q w))
  /\ fst (alloc q w) < next_object (snd (alloc q w))
  /\ resolve_callbacks (fst (alloc q w)) (trace (snd (alloc q w))) = 0
  /\ (forall r, r ∈ requests (snd (alloc q w)) -> req_arg r <> fst (alloc q w)).
Proof.
  intros (D & Q & F & L). cbn [alloc fst snd].
  split; [|split; [cbn; lia|split; [cbn; apply F; lia|]]].
  - split; [exact D|]. split; [|split; [|exact L]].
    + intros r Hr. destruct (Q r Hr). cbn. split; [lia|assumption].
    + intros h Hh. cbn in Hh. apply F. lia.
  - intros r Hr. cbn in Hr. destruct (Q r Hr). lia.
Qed.

Lemma Once_resolve dns_name family callback w :
  Once w -> Once (snd (resolve lib dns_name family callback w)).
Proof.
  intros HO. unfold resolve.
  set (w1 := if dirty_channel_ w then _ else w).
  assert (HO1 : Once w1).
  { subst w1. destruct (dirty_channel_ w); [|exact HO].
    eapply Once_silent; [|apply silent_initializeChannel].
    apply Once_ares_destroy, HO. }
  cbv zeta. set (q := PendingResolution _ _ _).
  destruct (Once_alloc q w1 HO1) as (HO2 & Hlt & Hz & Hr).
  destruct (alloc q w1) as [p w2] eqn:Ea. cbn [fst snd] in *.
  eapply Once_silent; [|apply silent_preparePendingResolution].
  destruct family;
    (eapply Once_attempt; [exact HO2|exact Hlt|exact Hz|exact Hr|];
     apply attempt_getAddrInfo).
Qed.

Lemma Once_srv_fan_out_step this srv_records w current_reply :
  Once w -> Once (srv_fan_out_step lib this srv_records w current_reply).
Proof.
  intros HO. unfold srv_fan_out_step.
  destruct (objects w !! this) as [[|base cb fam]|];
    try (eapply Once_silent; [exact HO|apply silent_emit; not_ResolveCb]).
  apply Once_resolve, HO.
Qed.

Lemma Once_onAresSrvStartCallback this status timeouts buf w :
  Once w -> Once (onAresSrvStartCallback lib this status timeouts buf w).
Proof.
  intros HO. unfold onAresSrvStartCallback, onAresSrvStartCallback_destruction.
  destruct (status =? ARES_EDESTRUCTION)%Z;
    [eapply Once_silent; [exact HO|apply silent_delete_this]|].
  destruct (status =? ARES_SUCCESS)%Z;
    [|eapply Once_silent; [exact HO|apply silent_onAresSrvFinishCallback]].
  destruct (ares_parse_srv_reply lib buf) as [status1 srv_reply].
  destruct (status1 =? ARES_SUCCESS)%Z;
    [|eapply Once_silent; [exact HO|apply silent_onAresSrvFinishCallback]].
  cbv zeta. generalize (map (fun current_reply : ares_srv_reply =>
     SrvDnsResponse (host current_reply) (port current_reply)
       (ttl current_reply) (weight current_reply)) srv_reply) as recs.
  intros recs. revert w HO.
  induction srv_reply as [|r l IH]; intros w HO; cbn [fold_left]; [exact HO|].
  apply IH, Once_srv_fan_out_step, HO.
Qed.

Lemma Once_getSrvByName this w :
  Once w -> this < next_object w ->
  resolve_callbacks this (trace w) = 0 ->
  (forall r, r ∈ requests w -> req_arg r <> this) ->
  Once (getSrvByName lib this w).
Proof.
  intros HO Hlt Hz Hr. unfold getSrvByName.
  destruct (objects w !! this) as [q|];
    [|eapply Once_silent; [exact HO|apply silent_emit; not_ResolveCb]].
  cbv zeta. set (e := EvAresQuery _ _ _).
  assert (He : silent w (emit e w)) by (apply silent_emit; not_ResolveCb).
  destruct (ares_query_now lib _) as [a|].
  - apply Once_onAresSrvStartCallback. eapply Once_silent; eauto.
  - eapply (Once_asked this w); eauto.
    eapply silent_asked; [exact He|].
    split; [eexists; split; reflexivity|]. split; reflexivity.
Qed.

Lemma Once_resolveSrv dns_name family callback w :
  Once w -> Once (snd (resolveSrv lib dns_name family callback w)).
Proof.
  intros HO. unfold resolveSrv.
  set (q := PendingSrvResolution _ _ _).
  destruct (Once_alloc q w HO) as (HO2 & Hlt & Hz & Hr).
  destruct (alloc q w) as [p w2] eqn:Ea. cbn [fst snd] in *.
  eapply Once_silent; [|apply silent_preparePendingResolution].
  apply Once_getSrvByName; assumption.
Qed.

Lemma take_request_spec arg : forall rs r rest,
  take_request arg rs = Some (r, rest) ->
  req_arg r = arg /\ r ∈ rs
  /\ (forall x, x ∈ rest -> x ∈ rs)
  /\ (NoDup (map req_arg rs) ->
       NoDup (map req_arg rest) /\ forall x, x ∈ rest -> req_arg x <> arg).
Proof.
  induction rs as [|x rs IH]; intros r rest; cbn [take_request]; [discriminate|].
  destruct (Nat.eqb_spec (req_arg x) arg) as [E|E].
  - intros [= <- <-]. split; [exact E|]. split; [left|].
    split; [intros y Hy; right; exact Hy|].
    intros Hnd. cbn in Hnd. apply NoDup_cons in Hnd as [Hx Hnd].
    split; [exact Hnd|]. intros y Hy Ey. apply Hx.
    apply list_elem_of_fmap. exists y. split; [congruence|exact Hy].
  - destruct (take_request arg rs) as [[r' rest']|]; [|discriminate].
    intros [= <- <-]. destruct (IH r' rest' eq_refl) as (A & I & S & N).
    split; [exact A|]. split; [right; exact I|]. split.
    + intros y Hy. apply elem_of_cons in Hy as [->|Hy]; [left|right; auto].
    + intros Hnd. cbn in Hnd. apply NoDup_cons in Hnd as [Hx Hnd].
      destruct (N Hnd) as [N1 N2]. split.
      * cbn. apply NoDup_cons. split; [|exact N1].
        intros Hin. apply Hx. apply list_elem_of_fmap in Hin as (y & Ey & Hy).
        apply list_elem_of_fmap. exists y. split; [exact Ey|apply S, Hy].
      * intros y Hy. apply elem_of_cons in Hy as [->|Hy]; [exact E|auto].
Qed.

Lemma Once_ares_process arg a w :
  Once w -> Once (ares_process lib arg a w).
Proof.
  intros HO. pose proof HO as (D & Q & F & L). unfold ares_process.
  destruct (take_request arg (requests w)) as [[r rest]|] eqn:Et; [|exact HO].
  destruct (take_request_spec arg _ _ _ Et) as (A & I & S & N).
  destruct (N D) as [N1 N2]. destruct (Q r I) as [Q1 Q2]. rewrite A in Q1, Q2.
  assert (HO1 : Once (set_requests rest w)).
  { split; [exact N1|]. split; [|split; [exact F|exact L]].
    intros x Hx. apply (Q x), S, Hx. }
  cbv zeta. destruct (req_kind r).
  - eapply Once_attempt; [exact HO1|exact Q1|exact Q2|exact N2|].
    apply attempt_onAresGetAddrInfoCallback.
  - apply Once_onAresSrvStartCallback, HO1.
Qed.

Lemma Once_step w i : Once w -> Once (step lib w i).
Proof.
  intros HO. destruct i; cbn [step].
  - apply Once_resolve, HO.
  - apply Once_resolveSrv, HO.
  - eapply Once_silent; [exact HO|apply silent_cancel].
  - apply Once_ares_process, HO.
  - apply Once_ares_destroy, HO.
Qed.

Lemma Once_run inputs : forall w, Once w -> Once (run lib w inputs).
Proof.
  induction inputs as [|i l IH]; intros w HO; [exact HO|].
  apply IH, Once_step, HO.
Qed.

Lemma Once_initial_world : Once initial_world.
Proof.
  split; [constructor|]. split; [|split]; cbn; intros; try lia.
  exfalso. eapply not_elem_of_nil; eauto.
Qed.

End AtMostOnce.

(** X1: in every run of a resolver in which the callbacks of the callers
    return without calling into the resolver (the runs of [run], where the
    invocation of a caller's callback is an event and nothing else),
    whatever the answers of c-ares and whatever is cancelled or destroyed
    in between, the callback that a caller gave to [resolve] is invoked at
    most once for each query.  Counted are the invocations of callers'
    callbacks ([EvResolveCb]); the closures that the fan-out of an SRV
    answer gives to [resolve] are not counted, and a run in which a
    callback calls [resolve] or [cancel] before it returns is not covered. *)
Theorem resolve_callback_at_most_once lib inputs h :
  resolve_callbacks h (trace (run lib initial_world inputs)) <= 1.
Proof.
  destruct (Once_run lib inputs initial_world Once_initial_world)
    as (_ & _ & _ & L).
  apply L.
Qed.

(** *** The requests in flight and the channel *)

Section CurrentChannel.
Variable lib : AresLibrary.

Lemma settled_refl w : settled w w.
Proof. split; [reflexivity|]. intros i. right. reflexivity. Qed.

Lemma settled_trans w1 w2 w3 : settled w1 w2 -> settled w2 w3 -> settled w1 w3.
Proof.
  intros [C1 O1] [C2 O2]. split; [congruence|].
  intros i. destruct (O2 i) as [H|H]; [left; exact H|].
  rewrite H. apply O1.
Qed.

Lemma steady_refl w : steady w w.
Proof. split; [apply settled_refl|reflexivity]. Qed.

Lemma steady_trans w1 w2 w3 : steady w1 w2 -> steady w2 w3 -> steady w1 w3.
Proof.
  intros [S1 R1] [S2 R2]. split; [eapply settled_trans; eauto|congruence].
Qed.

Lemma steady_same w w' :
  channel_ w' = channel_ w -> objects w' = objects w ->
  requests w' = requests w -> steady w w'.
Proof.
  intros C O R. split; [|exact R]. split; [exact C|].
  intros i. right. unfold channel_of. rewrite O. reflexivity.
Qed.

Lemma steady_emit e w : steady w (emit e w).
Proof. apply steady_same; reflexivity. Qed.

Lemma channel_of_store this q w i :
  channel_of (store this q w) i
  = if decide (i = this) then Some (ares_channel_ (query_base q))
    else channel_of w i.
Proof.
  unfold channel_of, store, set_objects. cbn [objects].
  destruct (decide (i = this)) as [->|Hne].
  - rewrite lookup_insert_eq. reflexivity.
  - rewrite lookup_insert_ne by congruence. reflexivity.
Qed.

Lemma channel_of_delete_this this w i :
  channel_of (delete_this this w) i
  = if decide (i = this) then None else channel_of w i.
Proof.
  unfold channel_of, delete_this, emit, set_objects. cbn [objects].
  destruct (decide (i = this)) as [->|Hne].
  - rewrite lookup_delete_eq. reflexivity.
  - rewrite lookup_delete_ne by congruence. reflexivity.
Qed.

Lemma steady_store this q w :
  channel_of w this = Some (ares_channel_ (query_base q)) ->
  steady w (store this q w).
Proof.
  intros H. split; [|reflexivity]. split; [reflexivity|].
  intros i. right. rewrite channel_of_store.
  destruct (decide (i = this)) as [->|]; [symmetry; exact H|reflexivity].
Qed.

Lemma steady_delete_this this w : steady w (delete_this this w).
Proof.
  split; [|reflexivity]. split; [reflexivity|].
  intros i. rewrite channel_of_delete_this.
  destruct (decide (i = this)); [left|right]; reflexivity.
Qed.

Lemma channel_of_live this q w :
  objects w !! this = Some q ->
  channel_of w this = Some (ares_channel_ (query_base q)).
Proof. intros H. unfold channel_of. rewrite H. reflexivity. Qed.

Lemma steady_onAresSrvFinishCallback this srv_records w :
  steady w (onAresSrvFinishCallback this srv_records w).
Proof.
  unfold onAresSrvFinishCallback.
  destruct (objects w !! this) as [[|base cb fam]|] eqn:Hobj;
    try apply steady_emit.
  cbv zeta.
  set (base1 := if is_nil srv_records then base else set_completed true base).
  assert (Hs : steady w (store this (PendingSrvResolution base1 cb fam) w)).
  { apply steady_store. rewrite (channel_of_live _ _ _ Hobj).
    subst base1. destruct (is_nil srv_records); reflexivity. }
  destruct (completed_ base1); [|exact Hs].
  destruct (cancelled_ base1), (owned_ base1);
    repeat first [exact Hs
                 | eapply steady_trans; [|apply steady_delete_this]
                 | eapply steady_trans; [|apply steady_emit] ].
Qed.

Lemma steady_invoke_ResolveCb query cb status response w :
  steady w (invoke_ResolveCb query cb status response w).
Proof.
  destruct cb; cbn [invoke_ResolveCb]; [apply steady_emit|].
  cbv zeta. destruct (_ =? _);
    [apply steady_onAresSrvFinishCallback|apply steady_refl].
Qed.

Lemma steady_mark_dirty_if_refused fb status w :
  steady w (mark_dirty_if_refused fb status w).
Proof.
  unfold mark_dirty_if_refused. destruct (_ && _);
    [apply steady_same; reflexivity|apply steady_refl].
Qed.

Lemma steady_body this status timeouts addrinfo w :
  steady w (fst (onAresGetAddrInfoCallback_body this status timeouts addrinfo w)).
Proof.
  unfold onAresGetAddrInfoCallback_body.
  destruct (objects w !! this) as [[base cb fb|]|] eqn:Hobj;
    try apply steady_emit.
  destruct (status =? ARES_EDESTRUCTION)%Z.
  { cbn [fst]. eapply steady_trans; [|apply steady_delete_this].
    destruct (cancelled_ base);
      [apply steady_refl|apply steady_invoke_ResolveCb]. }
  cbv zeta.
  set (w1 := mark_dirty_if_refused fb status w).
  match goal with |- context [completed_ ?b] => set (base2 := b) end.
  assert (Hb2 : ares_channel_ base2 = ares_channel_ base).
  { subst base2. destruct (_ && _), fb; reflexivity. }
  set (w2 := store this (PendingResolution base2 cb fb) w1).
  assert (H1 : steady w w1) by apply steady_mark_dirty_if_refused.
  assert (H2 : steady w w2).
  { eapply steady_trans; [exact H1|]. apply steady_store.
    assert (E : channel_of w1 this = channel_of w this).
    { unfold w1, mark_dirty_if_refused.
      destruct (negb fb && (status =? ARES_ECONNREFUSED)%Z); reflexivity. }
    rewrite E, (channel_of_live _ _ _ Hobj). cbn [query_base]. congruence. }
  destruct (completed_ base2).
  - assert (H3 : steady w (if cancelled_ base2 then w2
                           else invoke_ResolveCb this cb (answer_status status)
                                  (answer_addresses status addrinfo) w2)).
    { destruct (cancelled_ base2); [exact H2|].
      eapply steady_trans; [exact H2|apply steady_invoke_ResolveCb]. }
    destruct (owned_ base2); cbn [fst]; [|exact H3].
    eapply steady_trans; [exact H3|apply steady_delete_this].
  - destruct fb; cbn [fst]; [|exact H2].
    eapply steady_trans; [exact H2|]. apply steady_store.
    unfold w2. rewrite channel_of_store.
    destruct (decide (this = this)); [reflexivity|contradiction].
Qed.

Lemma steady_is_issues this w w' : steady w w' -> issues this w w'.
Proof. intros [S R]. split; [exact S|left; exact R]. Qed.

Lemma steady_issues this w1 w2 w3 :
  steady w1 w2 -> issues this w2 w3 -> issues this w1 w3.
Proof.
  intros [S1 R1] [S2 R2]. split; [eapply settled_trans; eauto|].
  destruct R2 as [R2|(r & R2 & A & C)]; [left; congruence|right].
  exists r. split; [congruence|]. split; [exact A|].
  destruct S1 as [_ O1]. destruct (O1 this) as [H|H]; congruence.
Qed.

Lemma issues_getAddrInfo_fuel n : forall this family w w',
  getAddrInfo_fuel lib n this family w = Some w' -> issues this w w'.
Proof.
  induction n as [|n IH]; intros this family w w'; [discriminate|].
  rewrite getAddrInfo_fuel_S.
  destruct (objects w !! this) as [q|] eqn:Hobj.
  2: { intros [= <-]. apply steady_is_issues, steady_emit. }
  cbv zeta. set (e := EvGetAddrInfo _ _ _ _).
  destruct (ares_getaddrinfo_now lib _ family) as [a|].
  2: { intros [= <-]. split.
       - split; [reflexivity|]. intros i. right. reflexivity.
       - right. eexists. split; [reflexivity|]. split; [reflexivity|].
         apply (channel_of_live _ _ _ Hobj). }
  pose proof (steady_body this (ans_status a) (ans_timeouts a) (ans_addrinfo a)
                (emit e w)) as Hs.
  destruct (onAresGetAddrInfoCallback_body _ _ _ _ _) as [w2 [|]];
    cbn [fst] in Hs.
  - intros H. apply IH in H. eapply steady_issues; [|exact H].
    eapply steady_trans; [apply steady_emit|exact Hs].
  - intros [= <-]. apply steady_is_issues.
    eapply steady_trans; [apply steady_emit|exact Hs].
Qed.

Lemma issues_getAddrInfo this family w :
  issues this w (getAddrInfo lib this family w).
Proof.
  eapply issues_getAddrInfo_fuel. apply (getAddrInfo_fuel_enough lib 0).
Qed.

Lemma issues_onAresGetAddrInfoCallback this status timeouts addrinfo w :
  issues this w (onAresGetAddrInfoCallback lib this status timeouts addrinfo w).
Proof.
  unfold onAresGetAddrInfoCallback.
  pose proof (steady_body this status timeouts addrinfo w) as Hs.
  destruct (onAresGetAddrInfoCallback_body _ _ _ _ _) as [w1 [|]];
    cbn [fst] in Hs.
  - eapply steady_issues; [exact Hs|apply issues_getAddrInfo].
  - apply steady_is_issues, Hs.
Qed.

(** The destruction sentinel ends a query whatever is left of it. *)
Lemma destruction_never_asks this timeouts addrinfo w :
  snd (onAresGetAddrInfoCallback_body this ARES_EDESTRUCTION timeouts addrinfo w)
  = false.
Proof.
  unfold onAresGetAddrInfoCallback_body.
  destruct (objects w !! this) as [[base cb fb|]|]; reflexivity.
Qed.

Lemma steady_deliver_destruction w r : steady w (deliver_destruction lib w r).
Proof.
  unfold deliver_destruction, onAresSrvStartCallback_destruction.
  destruct (req_kind r); [|apply steady_delete_this].
  unfold onAresGetAddrInfoCallback.
  pose proof (steady_body (req_arg r) ARES_EDESTRUCTION 0 None w) as Hs.
  pose proof (destruction_never_asks (req_arg r) 0 None w) as Hn.
  destruct (onAresGetAddrInfoCallback_body _ _ _ _ _) as [w1 again].
  cbn [fst snd] in *. subst again. exact Hs.
Qed.

Lemma steady_fold_destruction l : forall w,
  steady w (fold_left (deliver_destruction lib) l w).
Proof.
  induction l as [|r l IH]; intros w; cbn [fold_left]; [apply steady_refl|].
  eapply steady_trans; [apply steady_deliver_destruction|apply IH].
Qed.

(** [ares_destroy] leaves in flight what is in flight on other channels,
    and nothing else: no callback that it runs asks again. *)
Lemma ares_destroy_requests channel w :
  requests (ares_destroy lib channel w)
  = List.filter (fun r => negb (req_channel r =? channel)) (requests w)
  /\ settled w (ares_destroy lib channel w).
Proof.
  unfold ares_destroy. cbv zeta.
  set (w0 := set_requests _ (emit (EvAresDestroy channel) w)).
  destruct (steady_fold_destruction
              (List.filter (fun r => req_channel r =? channel) (requests w)) w0)
    as [S R].
  split; [rewrite R; reflexivity|].
  eapply settled_trans; [|exact S]. split; [reflexivity|].
  intros i. right. reflexivity.
Qed.

Lemma Current_nothing_in_flight w : requests w = [] -> Current w.
Proof. intros E r Hr. rewrite E in Hr. exfalso. eapply not_elem_of_nil; eauto. Qed.

Lemma Current_ares_destroy w :
  Current w ->
  requests (ares_destroy lib (channel_ w) w) = []
  /\ channel_ (ares_destroy lib (channel_ w) w) = channel_ w.
Proof.
  intros HC. destruct (ares_destroy_requests (channel_ w) w) as [R [C _]].
  split; [|exact C]. rewrite R.
  assert (H : forall l, (forall r, r ∈ l -> req_channel r = channel_ w) ->
              List.filter (fun r => negb (req_channel r =? channel_ w)) l = []).
  { induction l as [|x l IH]; intros Hl; [reflexivity|]. cbn [List.filter].
    rewrite (Hl x) by left. rewrite Nat.eqb_refl. cbn [negb].
    apply IH. intros r Hr. apply Hl. right. exact Hr. }
  apply H. intros r Hr. apply HC, Hr.
Qed.

Lemma Current_steady w w' : Current w -> steady w w' -> Current w'.
Proof.
  intros HC [[C O] R] r Hr. rewrite R in Hr. destruct (HC r Hr) as [H1 H2].
  split; [congruence|]. unfold on_current_channel in *. rewrite C.
  destruct (O (req_arg r)) as [H|H]; [left; exact H|]. rewrite H. exact H2.
Qed.

Lemma Current_issues this w w' :
  Current w -> on_current_channel w this -> issues this w w' -> Current w'.
Proof.
  intros HC Hthis [[C O] R] r Hr.
  assert (Hold : forall x, x ∈ requests w ->
            req_channel x = channel_ w' /\ on_current_channel w' (req_arg x)).
  { intros x Hx. destruct (HC x Hx) as [H1 H2].
    split; [congruence|]. unfold on_current_channel in *. rewrite C.
    destruct (O (req_arg x)) as [H|H]; [left; exact H|]. rewrite H. exact H2. }
  destruct R as [R|(x & R & A & Cx)]; rewrite R in Hr; [auto|].
  apply elem_of_app in Hr as [Hr|Hr]; [auto|].
  apply list_elem_of_singleton in Hr. subst r.
  destruct Hthis as [Hthis|Hthis]; [congruence|].
  split; [congruence|]. rewrite A. unfold on_current_channel. rewrite C.
  destruct (O this) as [H|H]; [left; exact H|]. right. congruence.
Qed.

Lemma steady_preparePendingResolution p w :
  steady w (snd (preparePendingResolution p w)).
Proof.
  unfold preparePendingResolution.
  destruct (objects w !! p) as [q|] eqn:Hobj; [|apply steady_emit].
  destruct (completed_ (query_base q)); cbn [snd];
    [apply steady_delete_this|].
  apply steady_store. rewrite (channel_of_live _ _ _ Hobj).
  destruct q; reflexivity.
Qed.

Lemma steady_cancel handle w : steady w (cancel handle w).
Proof.
  unfold cancel. destruct (objects w !! handle) as [q|] eqn:Hobj;
    [|apply steady_emit].
  apply steady_store. rewrite (channel_of_live _ _ _ Hobj).
  destruct q; reflexivity.
Qed.

(** A query created on the channel of the resolver. *)
Lemma Current_alloc q w :
  Current w -> ares_channel_ (query_base q) = channel_ w ->
  Current (snd (alloc q w))
  /\ on_current_channel (snd (alloc q w)) (fst (alloc q w)).
Proof.
  intros HC Hq.
  assert (Hch : forall i, channel_of (snd (alloc q w)) i
                = if decide (i = next_object w) then Some (channel_ w)
                  else channel_of w i).
  { intros i. unfold channel_of. cbn [alloc snd objects].
    destruct (decide (i = next_object w)) as [->|Hne].
    - rewrite lookup_insert_eq. rewrite Hq. reflexivity.
    - rewrite lookup_insert_ne by congruence. reflexivity. }
  split.
  - intros r Hr. destruct (HC r Hr) as [H1 H2]. split; [exact H1|].
    unfold on_current_channel. rewrite Hch.
    destruct (decide (req_arg r = next_object w)); [right; reflexivity|exact H2].
  - unfold on_current_channel. rewrite Hch. cbn [alloc fst].
    destruct (decide (next_object w = next_object w)); [right; reflexivity|contradiction].
Qed.

Lemma Current_resolve dns_name family callback w :
  Current w -> Current (snd (resolve lib dns_name family callback w)).
Proof.
  intros HC. unfold resolve.
  set (w1 := if dirty_channel_ w then _ else w).
  assert (HC1 : Current w1).
  { subst w1. destruct (dirty_channel_ w); [|exact HC].
    apply Current_nothing_in_flight.
    destruct (Current_ares_destroy w HC) as [R _]. exact R. }
  cbv zeta. set (q := PendingResolution _ _ _).
  destruct (Current_alloc q w1 HC1 eq_refl) as [HC2 Hthis].
  destruct (alloc q w1) as [p w2]. cbn [fst snd] in *.
  eapply Current_steady; [|apply steady_preparePendingResolution].
  destruct family;
    (eapply Current_issues; [exact HC2|exact Hthis|apply issues_getAddrInfo]).
Qed.

Lemma Current_srv_fan_out_step this srv_records w current_reply :
  Current w -> Current (srv_fan_out_step lib this srv_records w current_reply).
Proof.
  intros HC. unfold srv_fan_out_step.
  destruct (objects w !! this) as [[|base cb fam]|];
    try (eapply Current_steady; [exact HC|apply steady_emit]).
  apply Current_resolve, HC.
Qed.

Lemma Current_onAresSrvStartCallback this status timeouts buf w :
  Current w -> Current (onAresSrvStartCallback lib this status timeouts buf w).
Proof.
  intros HC. unfold onAresSrvStartCallback, onAresSrvStartCallback_destruction.
  destruct (status =? ARES_EDESTRUCTION)%Z;
    [eapply Current_steady; [exact HC|apply steady_delete_this]|].
  destruct (status =? ARES_SUCCESS)%Z;
    [|eapply Current_steady; [exact HC|apply steady_onAresSrvFinishCallback]].
  destruct (ares_parse_srv_reply lib buf) as [status1 srv_reply].
  destruct (status1 =? ARES_SUCCESS)%Z;
    [|eapply Current_steady; [exact HC|apply steady_onAresSrvFinishCallback]].
  cbv zeta. generalize (map (fun current_reply : ares_srv_reply =>
     SrvDnsResponse (host current_reply) (port current_reply)
       (ttl current_reply) (weight current_reply)) srv_reply) as recs.
  intros recs. revert w HC.
  induction srv_reply as [|r l IH]; intros w HC; cbn [fold_left]; [exact HC|].
  apply IH, Current_srv_fan_out_step, HC.
Qed.

Lemma Current_getSrvByName this w :
  Current w -> on_current_channel w this ->
  Current (getSrvByName lib this w).
Proof.
  intros HC Hthis. unfold getSrvByName.
  destruct (objects w !! this) as [q|] eqn:Hobj;
    [|eapply Current_steady; [exact HC|apply steady_emit]].
  cbv zeta. set (e := EvAresQuery _ _ _).
  destruct (ares_query_now lib _) as [a|].
  - apply Current_onAresSrvStartCallback.
    eapply Current_steady; [exact HC|apply steady_emit].
  - eapply (Current_issues this w); [exact HC|exact Hthis|].
    split; [split; [reflexivity|intros i; right; reflexivity]|].
    right. eexists. split; [reflexivity|]. split; [reflexivity|].
    apply (channel_of_live _ _ _ Hobj).
Qed.

Lemma Current_resolveSrv dns_name family callback w :
  Current w -> Current (snd (resolveSrv lib dns_name family callback w)).
Proof.
  intros HC. unfold resolveSrv.
  set (q := PendingSrvResolution _ _ _).
  destruct (Current_alloc q w HC eq_refl) as [HC2 Hthis].
  destruct (alloc q w) as [p w2]. cbn [fst snd] in *.
  eapply Current_steady; [|apply steady_preparePendingResolution].
  apply Current_getSrvByName; assumption.
Qed.

Lemma take_request_elem arg : forall rs r rest,
  take_request arg rs = Some (r, rest) ->
  req_arg r = arg /\ r ∈ rs /\ forall x, x ∈ rest -> x ∈ rs.
Proof.
  induction rs as [|x rs IH]; intros r rest; cbn [take_request]; [discriminate|].
  destruct (Nat.eqb_spec (req_arg x) arg) as [E|E].
  - intros [= <- <-]. split; [exact E|]. split; [left|].
    intros y Hy. right. exact Hy.
  - destruct (take_request arg rs) as [[r' rest']|]; [|discriminate].
    intros [= <- <-]. destruct (IH r' rest' eq_refl) as (A & I & S).
    split; [exact A|]. split; [right; exact I|].
    intros y Hy. apply elem_of_cons in Hy as [->|Hy]; [left|right; auto].
Qed.

Lemma Current_ares_process arg a w :
  Current w -> Current (ares_process lib arg a w).
Proof.
  intros HC. unfold ares_process.
  destruct (take_request arg (requests w)) as [[r rest]|] eqn:Et; [|exact HC].
  destruct (take_request_elem arg _ _ _ Et) as (A & I & S).
  assert (HC1 : Current (set_requests rest w)).
  { intros x Hx. apply (HC x), S, Hx. }
  cbv zeta. destruct (req_kind r).
  - eapply Current_issues; [exact HC1| |apply issues_onAresGetAddrInfoCallback].
    destruct (HC r I) as [_ H]. rewrite A in H. exact H.
  - apply Current_onAresSrvStartCallback, HC1.
Qed.

Lemma Current_step w i : Current w -> Current (step lib w i).
Proof.
  intros HC. destruct i; cbn [step].
  - apply Current_resolve, HC.
  - apply Current_resolveSrv, HC.
  - eapply Current_steady; [exact HC|apply steady_cancel].
  - apply Current_ares_process, HC.
  - apply Current_nothing_in_flight.
    destruct (Current_ares_destroy w HC) as [R _]. exact R.
Qed.

Lemma Current_run inputs : forall w, Current w -> Current (run lib w inputs).
Proof.
  induction inputs as [|i l IH]; intros w HC; [exact HC|].
  apply IH, Current_step, HC.
Qed.

End CurrentChannel.



(** *** What a callback is given *)

Section Answers.
Variable lib : AresLibrary.
Variable ok : ResolutionStatus -> list DnsResponse -> Prop.
Hypothesis ok_failure : ok Failure [].
Hypothesis ok_answer :
  forall status addrinfo,
    ok (answer_status status) (answer_addresses status addrinfo).

Lemma adds_refl w : adds ok w w.
Proof. exists []. split; [symmetry; apply app_nil_r|constructor]. Qed.

Lemma adds_trans w1 w2 w3 : adds ok w1 w2 -> adds ok w2 w3 -> adds ok w1 w3.
Proof.
  intros (t1 & E1 & F1) (t2 & E2 & F2). exists (t1 ++ t2). split.
  - rewrite E2, E1. symmetry. apply app_assoc.
  - apply Forall_app. auto.
Qed.

Lemma adds_same w w' : trace w' = trace w -> adds ok w w'.
Proof. intros E. exists []. split; [rewrite E; symmetry; apply app_nil_r|constructor]. Qed.

Lemma adds_emit e w : answers ok e -> adds ok w (emit e w).
Proof. intros He. exists [e]. split; [reflexivity|]. constructor; [exact He|constructor]. Qed.

Lemma adds_delete_this this w : adds ok w (delete_this this w).
Proof. exists [EvDelete this]. split; [reflexivity|]. repeat constructor. Qed.

Ltac adds_auto :=
  lazymatch goal with
  | |- adds _ ?w ?w => apply adds_refl
  | |- adds _ ?w (if ?b then _ else _) => destruct b; adds_auto
  | |- adds _ ?w (emit ?e ?w') =>
      apply (adds_trans w w'); [adds_auto | apply adds_emit; try exact I]
  | |- adds _ ?w (delete_this ?t ?w') =>
      apply (adds_trans w w'); [adds_auto | apply adds_delete_this]
  | |- adds _ ?w (store ?t ?q ?w') =>
      apply (adds_trans w w'); [adds_auto | apply adds_same; reflexivity]
  | |- adds _ ?w (set_dirty_channel ?v ?w') =>
      apply (adds_trans w w'); [adds_auto | apply adds_same; reflexivity]
  | |- adds _ ?w (set_channel ?v ?w') =>
      apply (adds_trans w w'); [adds_auto | apply adds_same; reflexivity]
  | |- adds _ ?w (set_requests ?v ?w') =>
      apply (adds_trans w w'); [adds_auto | apply adds_same; reflexivity]
  | |- adds _ ?w (add_request ?v ?w') =>
      apply (adds_trans w w'); [adds_auto | apply adds_same; reflexivity]
  | _ => idtac
  end.

Lemma adds_onAresSrvFinishCallback this srv_records w :
  adds ok w (onAresSrvFinishCallback this srv_records w).
Proof.
  unfold onAresSrvFinishCallback.
  destruct (objects w !! this) as [[|base cb fam]|]; cbv zeta; adds_auto.
Qed.

Lemma adds_invoke_ResolveCb query cb status response w :
  ok status response -> adds ok w (invoke_ResolveCb query cb status response w).
Proof.
  intros Hok. destruct cb; cbn [invoke_ResolveCb].
  - apply adds_emit. exact Hok.
  - cbv zeta. destruct (_ =? _);
      [apply adds_onAresSrvFinishCallback|apply adds_refl].
Qed.

Ltac adds_auto ::=
  lazymatch goal with
  | |- adds _ ?w ?w => apply adds_refl
  | |- adds _ ?w (if ?b then _ else _) => destruct b; adds_auto
  | |- adds _ ?w (invoke_ResolveCb ?t ?cb ?s ?r ?w') =>
      apply (adds_trans w w');
      [adds_auto | apply adds_invoke_ResolveCb; auto]
  | |- adds _ ?w (emit ?e ?w') =>
      apply (adds_trans w w'); [adds_auto | apply adds_emit; try exact I]
  | |- adds _ ?w (delete_this ?t ?w') =>
      apply (adds_trans w w'); [adds_auto | apply adds_delete_this]
  | |- adds _ ?w (store ?t ?q ?w') =>
      apply (adds_trans w w'); [adds_auto | apply adds_same; reflexivity]
  | |- adds _ ?w (set_dirty_channel ?v ?w') =>
      apply (adds_trans w w'); [adds_auto | apply adds_same; reflexivity]
  | |- adds _ ?w (set_channel ?v ?w') =>
      apply (adds_trans w w'); [adds_auto | apply adds_same; reflexivity]
  | |- adds _ ?w (set_requests ?v ?w') =>
      apply (adds_trans w w'); [adds_auto | apply adds_same; reflexivity]
  | |- adds _ ?w (add_request ?v ?w') =>
      apply (adds_trans w w'); [adds_auto | apply adds_same; reflexivity]
  | _ => idtac
  end.

Lemma adds_body this status timeouts addrinfo w :
  adds ok w (fst (onAresGetAddrInfoCallback_body this status timeouts addrinfo w)).
Proof.
  unfold onAresGetAddrInfoCallback_body, mark_dirty_if_refused.
  destruct (objects w !! this) as [[base cb fb|]|]; cbn [fst]; adds_auto.
  destruct (status =? ARES_EDESTRUCTION)%Z; [cbn [fst]; adds_auto|].
  cbv zeta.
  repeat match goal with
         | |- context [if ?b then (_, _) else _] => destruct b
         end; cbn [fst]; adds_auto.
Qed.

Lemma adds_getAddrInfo_fuel n : forall this family w w',
  getAddrInfo_fuel lib n this family w = Some w' -> adds ok w w'.
Proof.
  induction n as [|n IH]; intros this family w w'; [discriminate|].
  rewrite getAddrInfo_fuel_S.
  destruct (objects w !! this) as [q|].
  2: { intros [= <-]. adds_auto. }
  cbv zeta. set (e := EvGetAddrInfo _ _ _ _).
  assert (He : adds ok w (emit e w)) by (apply adds_emit; exact I).
  destruct (ares_getaddrinfo_now lib _ family) as [a|].
  2: { intros [= <-]. eapply adds_trans; [exact He|apply adds_same; reflexivity]. }
  pose proof (adds_body this (ans_status a) (ans_timeouts a) (ans_addrinfo a)
                (emit e w)) as Hb.
  destruct (onAresGetAddrInfoCallback_body _ _ _ _ _) as [w2 [|]];
    cbn [fst] in Hb.
  - intros H. apply IH in H.
    eapply adds_trans; [exact He|]. eapply adds_trans; eauto.
  - intros [= <-]. eapply adds_trans; eauto.
Qed.

Lemma adds_getAddrInfo this family w : adds ok w (getAddrInfo lib this family w).
Proof. eapply adds_getAddrInfo_fuel. apply (getAddrInfo_fuel_enough lib 0). Qed.

Lemma adds_onAresGetAddrInfoCallback this status timeouts addrinfo w :
  adds ok w (onAresGetAddrInfoCallback lib this status timeouts addrinfo w).
Proof.
  unfold onAresGetAddrInfoCallback.
  pose proof (adds_body this status timeouts addrinfo w) as Hb.
  destruct (onAresGetAddrInfoCallback_body _ _ _ _ _) as [w1 [|]];
    cbn [fst] in Hb; [|exact Hb].
  eapply adds_trans; [exact Hb|apply adds_getAddrInfo].
Qed.

Lemma adds_fold_left {A} (f : World -> A -> World) (l : list A) :
  (forall w a, adds ok w (f w a)) -> forall w, adds ok w (fold_left f l w).
Proof.
  intros Hf. induction l as [|a l IH]; intros w; cbn [fold_left];
    [apply adds_refl|].
  eapply adds_trans; [apply Hf|apply IH].
Qed.

Lemma adds_ares_destroy channel w : adds ok w (ares_destroy lib channel w).
Proof.
  unfold ares_destroy. cbv zeta.
  eapply adds_trans; [|apply adds_fold_left].
  - adds_auto.
  - intros w' r. unfold deliver_destruction, onAresSrvStartCallback_destruction.
    destruct (req_kind r);
      [apply adds_onAresGetAddrInfoCallback|apply adds_delete_this].
Qed.

Lemma adds_preparePendingResolution p w :
  adds ok w (snd (preparePendingResolution p w)).
Proof.
  unfold preparePendingResolution.
  destruct (objects w !! p) as [q|]; [|cbn [snd]; adds_auto].
  destruct (completed_ (query_base q)); cbn [snd]; adds_auto.
Qed.

Lemma adds_resolve name family cb w :
  adds ok w (snd (resolve lib name family cb w)).
Proof.
  unfold resolve.
  set (w1 := if dirty_channel_ w then _ else w).
  assert (H1 : adds ok w w1).
  { subst w1. destruct (dirty_channel_ w); [|apply adds_refl].
    unfold initializeChannel. cbv zeta.
    eapply adds_trans; [apply (adds_ares_destroy (channel_ w))|]. adds_auto. }
  cbv zeta. cbn [alloc].
  match goal with
  | |- context [getAddrInfo lib ?t AF_INET ?x] => set (w2 := x); set (this := t)
  end.
  apply (adds_trans w w1); [exact H1|].
  apply (adds_trans w1 w2); [apply adds_same; reflexivity|].
  eapply adds_trans; [|apply adds_preparePendingResolution].
  destruct family; apply adds_getAddrInfo.
Qed.

Lemma adds_onAresSrvStartCallback this status timeouts buf w :
  adds ok w (onAresSrvStartCallback lib this status timeouts buf w).
Proof.
  unfold onAresSrvStartCallback, onAresSrvStartCallback_destruction.
  destruct (status =? ARES_EDESTRUCTION)%Z; [apply adds_delete_this|].
  destruct (status =? ARES_SUCCESS)%Z; [|apply adds_onAresSrvFinishCallback].
  destruct (ares_parse_srv_reply lib buf) as [status1 srv_reply].
  destruct (status1 =? ARES_SUCCESS)%Z; [|apply adds_onAresSrvFinishCallback].
  cbv zeta. apply adds_fold_left. intros w' r. unfold srv_fan_out_step.
  destruct (objects w' !! this) as [[|base cb fam]|]; adds_auto.
  apply adds_resolve.
Qed.

Lemma adds_resolveSrv name family cb w :
  adds ok w (snd (resolveSrv lib name family cb w)).
Proof.
  unfold resolveSrv. cbn [alloc].
  match goal with
  | |- context [getSrvByName lib ?t ?x] => set (w1 := x); set (this := t)
  end.
  eapply adds_trans; [|apply adds_preparePendingResolution].
  apply (adds_trans w w1); [apply adds_same; reflexivity|].
  unfold getSrvByName. destruct (objects w1 !! this) as [q|]; [|adds_auto].
  cbv zeta. set (e := EvAresQuery _ _ _).
  assert (He : adds ok w1 (emit e w1)) by (apply adds_emit; exact I).
  destruct (ares_query_now lib _) as [a|].
  - eapply adds_trans; [exact He|apply adds_onAresSrvStartCallback].
  - eapply adds_trans; [exact He|apply adds_same; reflexivity].
Qed.

Lemma adds_step w i : adds ok w (step lib w i).
Proof.
  destruct i; cbn [step].
  - apply adds_resolve.
  - apply adds_resolveSrv.
  - unfold cancel. destruct (objects w !! handle); adds_auto.
  - unfold ares_process.
    destruct (take_request arg (requests w)) as [[r rest]|]; [|apply adds_refl].
    cbv zeta. apply (adds_trans w (set_requests rest w));
      [apply adds_same; reflexivity|].
    destruct (req_kind r);
      [apply adds_onAresGetAddrInfoCallback|apply adds_onAresSrvStartCallback].
  - apply adds_ares_destroy.
Qed.

Lemma adds_run inputs : forall w, adds ok w (run lib w inputs).
Proof. apply adds_fold_left, adds_step. Qed.

Lemma answers_of_run inputs :
  Forall (answers ok) (trace (run lib initial_world inputs)).
Proof.
  destruct (adds_run inputs initial_world) as (tr & E & F).
  rewrite E. exact F.
Qed.

End Answers.

Lemma plain_addresses_answer status addrinfo :
  plain_addresses (answer_addresses status addrinfo).
Proof.
  unfold answer_addresses, address_list_of, plain_addresses.
  destruct (status =? ARES_SUCCESS)%Z; [|split; [constructor|left; constructor]].
  destruct addrinfo as [[|first rest]|];
    try (split; [constructor|left; constructor]).
  destruct (ai_family first =? AF_INET)%Z;
    [|destruct (ai_family first =? AF_INET6)%Z;
      [|split; [constructor|left; constructor]]].
  - split; [|left]; apply Forall_forall; intros r Hr;
      apply list_elem_of_fmap in Hr as (n & -> & _); reflexivity.
  - split; [|right]; apply Forall_forall; intros r Hr;
      apply list_elem_of_fmap in Hr as (n & -> & _); reflexivity.
Qed.

(** X4: in every run of a resolver, a [ResolveCb] that is told [Failure]
    is given no address: a failed final attempt and the destruction of the
    resolver both answer with the empty list, whatever c-ares handed
    over. *)
Theorem failure_carries_no_address lib inputs q c response :
  EvResolveCb q c Failure response ∈ trace (run lib initial_world inputs) ->
  response = [].
Proof.
  intros Hin.
  pose proof (answers_of_run lib (fun st r => st = Failure -> r = [])) as H.
  assert (Hall : Forall (answers (fun st r => st = Failure -> r = []))
                   (trace (run lib initial_world inputs))).
  { apply H; [reflexivity|].
    intros status addrinfo. unfold answer_status, answer_addresses.
    destruct (status =? ARES_SUCCESS)%Z; [discriminate|reflexivity]. }
  rewrite Forall_forall in Hall. apply (Hall _ Hin). reflexivity.
Qed.

Lemma failure_carries_no_address_witness :
  exists response,
    EvResolveCb 0 1 Failure response
      ∈ trace (run network_only initial_world failed_lookup)
    /\ response = [].
Proof.
  assert (H : EvResolveCb 0 1 Failure []
              ∈ trace (run network_only initial_world failed_lookup)).
  { apply list_elem_of_further, list_elem_of_here. }
  exists []. split; [exact H|].
  exact (failure_carries_no_address network_only failed_lookup 0 1 [] H).
Defined.

(** X5: in every run of a resolver, the addresses given to a [ResolveCb]
    are all of one IP version and all carry port 0. *)
Theorem answers_are_plain_addresses lib inputs q c status response :
  EvResolveCb q c status response ∈ trace (run lib initial_world inputs) ->
  plain_addresses response.
Proof.
  intros Hin.
  assert (Hall : Forall (answers (fun _ r => plain_addresses r))
                   (trace (run lib initial_world inputs))).
  { apply answers_of_run.
    - split; [constructor|left; constructor].
    - intros st ai. apply plain_addresses_answer. }
  rewrite Forall_forall in Hall. apply (Hall _ Hin).
Qed.

Lemma answers_are_plain_addresses_witness :
  exists response,
    EvResolveCb 0 1 Success response
      ∈ trace (run network_only initial_world answered_lookup)
    /\ length response = 2
    /\ plain_addresses response.
Proof.
  eexists. split; [apply list_elem_of_further, list_elem_of_here|].
  split; [reflexivity|].
  eapply (answers_are_plain_addresses network_only answered_lookup 0 1 Success).
  apply list_elem_of_further, list_elem_of_here.
Defined.

(** *** Completions and the channel *)

Section Calm.
Variable lib : AresLibrary.

Lemma calm_refl w : calm w w.
Proof.
  split; [reflexivity|]. split; [reflexivity|].
  exists []. split; [symmetry; apply app_nil_r|constructor].
Qed.

Lemma calm_trans w1 w2 w3 : calm w1 w2 -> calm w2 w3 -> calm w1 w3.
Proof.
  intros (C1 & N1 & t1 & E1 & F1) (C2 & N2 & t2 & E2 & F2).
  split; [congruence|]. split; [congruence|].
  exists (t1 ++ t2). split.
  - rewrite E2, E1. symmetry. apply app_assoc.
  - apply Forall_app. auto.
Qed.

Lemma calm_same w w' :
  channel_ w' = channel_ w -> next_object w' = next_object w ->
  trace w' = trace w -> calm w w'.
Proof.
  intros C N E. split; [exact C|]. split; [exact N|].
  exists []. split; [rewrite E; symmetry; apply app_nil_r|constructor].
Qed.

Lemma calm_emit e w : is_channel_event e = false -> calm w (emit e w).
Proof.
  intros He. split; [reflexivity|]. split; [reflexivity|].
  exists [e]. split; [reflexivity|]. constructor; [exact He|constructor].
Qed.

Lemma calm_delete_this this w : calm w (delete_this this w).
Proof.
  split; [reflexivity|]. split; [reflexivity|].
  exists [EvDelete this]. split; [reflexivity|]. repeat constructor.
Qed.

Lemma extends_fold_left {A} (f : World -> A -> World) (l : list A) :
  (forall w a, extends w (f w a)) -> forall w, extends w (fold_left f l w).
Proof.
  intros Hf. induction l as [|a l IH]; intros w; cbn [fold_left];
    [apply extends_refl|].
  eapply extends_trans; [apply Hf|apply IH].
Qed.

Lemma extends_resolve name family cb w :
  extends w (snd (resolve lib name family cb w)).
Proof.
  unfold resolve.
  set (w1 := if dirty_channel_ w then _ else w).
  assert (H1 : extends w w1).
  { subst w1. destruct (dirty_channel_ w); [|apply extends_refl].
    destruct (ares_destroy_teardown lib (channel_ w) w) as (t & E & _).
    unfold initializeChannel. cbv zeta.
    eexists (_ ++ [_]). cbn. rewrite E. rewrite <- app_assoc. reflexivity. }
  cbv zeta. cbn [alloc].
  match goal with
  | |- context [getAddrInfo lib ?t AF_INET ?x] => set (w2 := x); set (p := t)
  end.
  apply (extends_trans w w1); [exact H1|].
  apply (extends_trans w1 w2); [apply extends_same; reflexivity|].
  eapply extends_trans; [|apply extends_preparePendingResolution].
  destruct family; apply extends_getAddrInfo.
Qed.

Lemma extends_srv_fan_out_step this srv_records w current_reply :
  extends w (srv_fan_out_step lib this srv_records w current_reply).
Proof.
  unfold srv_fan_out_step.
  destruct (objects w !! this) as [[|b c f]|]; try apply extends_emit.
  apply extends_resolve.
Qed.

End Calm.

(** *** Callbacks that call into the resolver *)

Section ReentrantCallbacks.
Variable lib : AresLibrary.
Variable callers : CallerCallbacks.

Lemma reentrant_body_again this status timeouts addrinfo w w' :
  Reentrant.onAresGetAddrInfoCallback_body callers this status timeouts addrinfo w
  = (w', true) ->
  exists base cb,
    objects w !! this = Some (PendingResolution base cb true)
    /\ status <> ARES_EDESTRUCTION
    /\ exists base2,
         w' = store this (PendingResolution base2 cb false)
                (store this (PendingResolution base2 cb true)
                   (mark_dirty_if_refused true status w))
         /\ dns_name_ base2 = dns_name_ base
         /\ ares_channel_ base2 = ares_channel_ base.
Proof.
  unfold Reentrant.onAresGetAddrInfoCallback_body.
  destruct (objects w !! this) as [[base cb fb|]|]; [|discriminate..].
  destruct (Z.eqb_spec status ARES_EDESTRUCTION) as [|Hst]; [discriminate|].
  cbv zeta.
  match goal with |- context [completed_ ?b] => set (base2 := b) end.
  destruct (completed_ base2).
  { match goal with
    | |- context [objects ?x !! this] => destruct (objects x !! this) as [q|]
    end; [destruct (owned_ (query_base q))|]; discriminate. }
  destruct fb; [|discriminate].
  intros [= <-]. exists base, cb. split; [reflexivity|]. split; [exact Hst|].
  exists base2. split; [reflexivity|].
  subst base2. destruct (_ && _); split; reflexivity.
Qed.

Lemma reentrant_body_no_fallback this base cb status timeouts addrinfo w :
  objects w !! this = Some (PendingResolution base cb false) ->
  snd (Reentrant.onAresGetAddrInfoCallback_body callers this status timeouts
         addrinfo w) = false.
Proof.
  intros Hobj. unfold Reentrant.onAresGetAddrInfoCallback_body. rewrite Hobj.
  destruct (status =? ARES_EDESTRUCTION)%Z; [reflexivity|].
  cbv zeta.
  match goal with |- context [completed_ ?b] => set (base2 := b) end.
  destruct (completed_ base2); [|reflexivity].
  match goal with
  | |- context [objects ?x !! this] => destruct (objects x !! this) as [q|]
  end; [destruct (owned_ (query_base q))|]; reflexivity.
Qed.

Lemma reentrant_getAddrInfo_fuel_S n this family w :
  Reentrant.getAddrInfo_fuel lib callers (S n) this family w
  = match objects w !! this with
    | Some q =>
        let channel := ares_channel_ (query_base q) in
        let name := dns_name_ (query_base q) in
        let w1 := emit (EvGetAddrInfo channel this name family) w in
        match ares_getaddrinfo_now lib name family with
        | Some a =>
            let '(w2, again) :=
              Reentrant.onAresGetAddrInfoCallback_body callers this
                (ans_status a) (ans_timeouts a) (ans_addrinfo a) w1 in
            if again then Reentrant.getAddrInfo_fuel lib callers n this AF_INET w2
            else Some w2
        | None =>
            Some (add_request
                    {| req_channel := channel; req_arg := this;
                       req_kind := ReqGetAddrInfo family |} w1)
        end
    | None => Some (emit (EvUseAfterFree this) w)
    end.
Proof. reflexivity. Qed.

(** A request of a query whose fallback is consumed never asks again: one
    level of fuel is enough. *)
Lemma reentrant_getAddrInfo_fuel_consumed n this base cb family w :
  objects w !! this = Some (PendingResolution base cb false) ->
  Reentrant.getAddrInfo_fuel lib callers (S n) this family w
  = Reentrant.getAddrInfo_fuel lib callers 1 this family w
  /\ is_Some (Reentrant.getAddrInfo_fuel lib callers 1 this family w).
Proof.
  intros Hobj. rewrite !reentrant_getAddrInfo_fuel_S, Hobj. cbv zeta.
  cbn [query_base].
  destruct (ares_getaddrinfo_now lib (dns_name_ base) family) as [a|];
    [|split; [reflexivity|eauto]].
  pose proof (reentrant_body_no_fallback this base cb (ans_status a)
                (ans_timeouts a) (ans_addrinfo a)
                (emit (EvGetAddrInfo (ares_channel_ base) this (dns_name_ base)
                         family) w) Hobj) as Hs.
  destruct (Reentrant.onAresGetAddrInfoCallback_body _ _ _ _ _ _) as [w2 again].
  cbn in Hs. subst again. split; [reflexivity|eauto].
Qed.

(** Two levels of fuel are enough, whatever the callbacks do: the request
    is always made, and more fuel changes nothing. *)
Lemma reentrant_getAddrInfo_fuel_enough n this family w :
  Reentrant.getAddrInfo_fuel lib callers (S (S n)) this family w
  = Some (Reentrant.getAddrInfo lib callers this family w).
Proof.
  unfold Reentrant.getAddrInfo.
  rewrite (reentrant_getAddrInfo_fuel_S (S n)), (reentrant_getAddrInfo_fuel_S 1).
  destruct (objects w !! this) as [q|]; [|reflexivity].
  cbv zeta.
  destruct (ares_getaddrinfo_now lib _ family) as [a|]; [|reflexivity].
  destruct (Reentrant.onAresGetAddrInfoCallback_body _ _ _ _ _ _)
    as [w2 [|]] eqn:Hb; [|reflexivity].
  destruct (reentrant_body_again _ _ _ _ _ _ Hb)
    as (base & cb & _ & _ & base2 & -> & _).
  match goal with
  | |- context [Reentrant.getAddrInfo_fuel lib callers (S n) this AF_INET ?x] =>
      set (w3 := x)
  end.
  assert (Hobj : objects w3 !! this = Some (PendingResolution base2 cb false))
    by apply lookup_insert_eq.
  destruct (reentrant_getAddrInfo_fuel_consumed n this base2 cb AF_INET w3 Hobj)
    as [E [w4 E4]].
  rewrite E, E4. reflexivity.
Qed.

(** *** Callbacks that keep the channel *)

Hypothesis keep_channel : callbacks_keep_channel callers.

Lemma calm_reentrant_onAresSrvFinishCallback this srv_records w :
  calm w (Reentrant.onAresSrvFinishCallback callers this srv_records w).
Proof.
  unfold Reentrant.onAresSrvFinishCallback.
  destruct (objects w !! this) as [[|base cb fam]|];
    try (apply calm_emit; reflexivity).
  cbv zeta.
  set (base1 := if is_nil srv_records then base else set_completed true base).
  set (w1 := store this _ w).
  assert (H1 : calm w w1) by (apply calm_same; reflexivity).
  destruct (completed_ base1); [|exact H1].
  set (w2 := if cancelled_ base1 then w1 else _).
  assert (H2 : calm w w2).
  { subst w2. destruct (cancelled_ base1); [exact H1|].
    eapply calm_trans; [|apply keep_channel].
    eapply calm_trans; [exact H1|apply calm_emit; reflexivity]. }
  destruct (objects w2 !! this) as [q|].
  - destruct (owned_ (query_base q)); [|exact H2].
    eapply calm_trans; [exact H2|apply calm_delete_this].
  - eapply calm_trans; [exact H2|apply calm_emit; reflexivity].
Qed.

Lemma calm_reentrant_invoke_ResolveCb query cb status response w :
  calm w (Reentrant.invoke_ResolveCb callers query cb status response w).
Proof.
  destruct cb; cbn [Reentrant.invoke_ResolveCb].
  - eapply calm_trans; [|apply keep_channel]. apply calm_emit. reflexivity.
  - cbv zeta. destruct (_ =? _);
      [apply calm_reentrant_onAresSrvFinishCallback|apply calm_refl].
Qed.

Lemma calm_reentrant_body this status timeouts addrinfo w :
  calm w (fst (Reentrant.onAresGetAddrInfoCallback_body callers this status
                 timeouts addrinfo w)).
Proof.
  unfold Reentrant.onAresGetAddrInfoCallback_body.
  destruct (objects w !! this) as [[base cb fb|]|];
    try (apply calm_emit; reflexivity).
  destruct (status =? ARES_EDESTRUCTION)%Z.
  { cbn [fst]. eapply calm_trans; [|apply calm_delete_this].
    destruct (cancelled_ base);
      [apply calm_refl|apply calm_reentrant_invoke_ResolveCb]. }
  cbv zeta.
  set (w1 := mark_dirty_if_refused fb status w).
  match goal with |- context [completed_ ?b] => set (base2 := b) end.
  set (w2 := store this (PendingResolution base2 cb fb) w1).
  assert (H2 : calm w w2).
  { apply (calm_trans w w1); [|apply calm_same; reflexivity].
    unfold w1, mark_dirty_if_refused.
    destruct (negb fb && (status =? ARES_ECONNREFUSED)%Z);
      [apply calm_same; reflexivity|apply calm_refl]. }
  destruct (completed_ base2).
  - set (w3 := if cancelled_ base2 then w2 else _).
    assert (H3 : calm w w3).
    { subst w3. destruct (cancelled_ base2); [exact H2|].
      eapply calm_trans; [exact H2|apply calm_reentrant_invoke_ResolveCb]. }
    destruct (objects w3 !! this) as [q|]; cbn [fst].
    + destruct (owned_ (query_base q)); cbn [fst]; [|exact H3].
      eapply calm_trans; [exact H3|apply calm_delete_this].
    + eapply calm_trans; [exact H3|apply calm_emit; reflexivity].
  - destruct fb; cbn [fst]; [|exact H2].
    eapply calm_trans; [exact H2|apply calm_same; reflexivity].
Qed.

Lemma calm_reentrant_getAddrInfo_fuel n : forall this family w w',
  Reentrant.getAddrInfo_fuel lib callers n this family w = Some w' -> calm w w'.
Proof.
  induction n as [|n IH]; intros this family w w'; [discriminate|].
  rewrite reentrant_getAddrInfo_fuel_S.
  destruct (objects w !! this) as [q|].
  2: { intros [= <-]. apply calm_emit. reflexivity. }
  cbv zeta. set (e := EvGetAddrInfo _ _ _ _).
  assert (He : calm w (emit e w)) by (apply calm_emit; reflexivity).
  destruct (ares_getaddrinfo_now lib _ family) as [a|].
  2: { intros [= <-]. eapply calm_trans; [exact He|apply calm_same; reflexivity]. }
  pose proof (calm_reentrant_body this (ans_status a) (ans_timeouts a)
                (ans_addrinfo a) (emit e w)) as Hb.
  destruct (Reentrant.onAresGetAddrInfoCallback_body _ _ _ _ _ _) as [w2 [|]];
    cbn [fst] in Hb.
  - intros H. apply IH in H.
    eapply calm_trans; [exact He|]. eapply calm_trans; eauto.
  - intros [= <-]. eapply calm_trans; eauto.
Qed.

Lemma calm_reentrant_onAresGetAddrInfoCallback this status timeouts addrinfo w :
  calm w (Reentrant.onAresGetAddrInfoCallback lib callers this status timeouts
            addrinfo w).
Proof.
  unfold Reentrant.onAresGetAddrInfoCallback.
  pose proof (calm_reentrant_body this status timeouts addrinfo w) as Hb.
  destruct (Reentrant.onAresGetAddrInfoCallback_body _ _ _ _ _ _) as [w1 [|]];
    cbn [fst] in Hb; [|exact Hb].
  eapply calm_trans; [exact Hb|].
  eapply calm_reentrant_getAddrInfo_fuel.
  apply (reentrant_getAddrInfo_fuel_enough 0).
Qed.

End ReentrantCallbacks.

(** *** Callbacks that return at once *)

Section InertCallbacks.
Variable lib : AresLibrary.

Lemma inert_onAresSrvFinishCallback this srv_records w :
  Reentrant.onAresSrvFinishCallback inert_callbacks this srv_records w
  = onAresSrvFinishCallback this srv_records w.
Proof.
  unfold Reentrant.onAresSrvFinishCallback, onAresSrvFinishCallback.
  destruct (objects w !! this) as [[|base cb fam]|]; try reflexivity.
  cbv zeta.
  set (base1 := if is_nil srv_records then base else set_completed true base).
  destruct (completed_ base1); [|reflexivity].
  destruct (cancelled_ base1); cbn [inert_callbacks resolve_srv_callback_];
    cbn [objects emit store set_objects]; rewrite lookup_insert_eq;
    reflexivity.
Qed.

Lemma inert_invoke_ResolveCb query cb status response w :
  Reentrant.invoke_ResolveCb inert_callbacks query cb status response w
  = invoke_ResolveCb query cb status response w.
Proof.
  destruct cb; cbn [Reentrant.invoke_ResolveCb invoke_ResolveCb]; [reflexivity|].
  cbv zeta. destruct (_ =? _); [apply inert_onAresSrvFinishCallback|reflexivity].
Qed.

(** Calling a callback leaves an address query where it is. *)
Lemma invoke_ResolveCb_keeps_address_query this base cb fb query cb' status
    response w :
  objects w !! this = Some (PendingResolution base cb fb) ->
  objects (invoke_ResolveCb query cb' status response w) !! this
  = Some (PendingResolution base cb fb).
Proof.
  intros Hobj. destruct cb' as [c|p finished recs reply];
    cbn [invoke_ResolveCb]; [exact Hobj|].
  cbv zeta. destruct (_ =? _); [|exact Hobj].
  unfold onAresSrvFinishCallback.
  destruct (decide (p = this)) as [->|Hne].
  { rewrite Hobj. exact Hobj. }
  destruct (objects w !! p) as [[|pb pcb pfam]|]; try exact Hobj.
  cbv zeta.
  repeat match goal with |- context [if ?b then _ else _] => destruct b end;
    cbn [objects emit store set_objects delete_this];
    rewrite ?lookup_delete_ne, ?lookup_insert_ne by congruence; exact Hobj.
Qed.

Lemma inert_body this status timeouts addrinfo w :
  Reentrant.onAresGetAddrInfoCallback_body inert_callbacks this status timeouts
    addrinfo w
  = onAresGetAddrInfoCallback_body this status timeouts addrinfo w.
Proof.
  unfold Reentrant.onAresGetAddrInfoCallback_body, onAresGetAddrInfoCallback_body.
  destruct (objects w !! this) as [[base cb fb|]|]; try reflexivity.
  destruct (status =? ARES_EDESTRUCTION)%Z.
  { rewrite inert_invoke_ResolveCb. reflexivity. }
  cbv zeta.
  set (w1 := mark_dirty_if_refused fb status w).
  match goal with |- context [completed_ ?b] => set (base2 := b) end.
  set (w2 := store this (PendingResolution base2 cb fb) w1).
  assert (Hobj2 : objects w2 !! this = Some (PendingResolution base2 cb fb))
    by apply lookup_insert_eq.
  destruct (completed_ base2); [|reflexivity].
  rewrite inert_invoke_ResolveCb.
  destruct (cancelled_ base2).
  - rewrite Hobj2. reflexivity.
  - rewrite (invoke_ResolveCb_keeps_address_query this base2 cb fb _ _ _ _ _ Hobj2).
    reflexivity.
Qed.

Lemma inert_getAddrInfo_fuel n : forall this family w,
  Reentrant.getAddrInfo_fuel lib inert_callbacks n this family w
  = getAddrInfo_fuel lib n this family w.
Proof.
  induction n as [|n IH]; intros this family w; [reflexivity|].
  cbn [Reentrant.getAddrInfo_fuel getAddrInfo_fuel].
  destruct (objects w !! this) as [q|]; [|reflexivity].
  cbv zeta. destruct (ares_getaddrinfo_now lib _ family) as [a|]; [|reflexivity].
  rewrite inert_body.
  destruct (onAresGetAddrInfoCallback_body _ _ _ _ _) as [w2 [|]];
    [apply IH|reflexivity].
Qed.

(** With callbacks that return at once the completion is the one of
    [onAresGetAddrInfoCallback]. *)
Lemma inert_onAresGetAddrInfoCallback this status timeouts addrinfo w :
  Reentrant.onAresGetAddrInfoCallback lib inert_callbacks this status timeouts
    addrinfo w
  = onAresGetAddrInfoCallback lib this status timeouts addrinfo w.
Proof.
  unfold Reentrant.onAresGetAddrInfoCallback, onAresGetAddrInfoCallback.
  rewrite inert_body.
  destruct (onAresGetAddrInfoCallback_body _ _ _ _ _) as [w1 [|]];
    [|reflexivity].
  unfold Reentrant.getAddrInfo, getAddrInfo. rewrite inert_getAddrInfo_fuel.
  reflexivity.
Qed.

End InertCallbacks.

Lemma calm_cancel handle w : calm w (cancel handle w).
Proof.
  unfold cancel. destruct (objects w !! handle);
    [apply calm_same; reflexivity|apply calm_emit; reflexivity].
Qed.

Lemma cancelling_callbacks_keep_channel h :
  callbacks_keep_channel (cancelling_callbacks h).
Proof. split; intros; apply calm_cancel. Defined.

(** X6: the completion callback of an address query does not itself
    replace the channel.  Whatever the status and the answer, if the
    callbacks of the callers that it raises leave the channel alone (they
    make no [ares_destroy] and no [ares_init_options], which a call of
    [resolve] on a dirty channel would, and allocate no query), then so
    does the completion: the channel member is unchanged, no
    [ares_destroy] and no [ares_init_options] happens before it returns,
    and no query is allocated.  The fallback request and a synchronous
    answer to it are included. *)
Theorem address_completion_keeps_channel lib callers this status timeouts
    addrinfo w :
  callbacks_keep_channel callers ->
  let w' := Reentrant.onAresGetAddrInfoCallback lib callers this status timeouts
              addrinfo w in
  channel_ w' = channel_ w
  /\ next_object w' = next_object w
  /\ List.filter is_channel_event (events_since w w') = [].
Proof.
  intros Hkeep w'. subst w'.
  destruct (calm_reentrant_onAresGetAddrInfoCallback lib callers Hkeep this
              status timeouts addrinfo w) as (C & N & tr & E & F).
  split; [exact C|]. split; [exact N|].
  rewrite (events_since_app _ _ _ E).
  clear E. induction F as [|e tr He _ IH]; [reflexivity|].
  cbn [List.filter]. rewrite He. exact IH.
Qed.

(** Two lookups are in flight; the first ends with a refused connection
    and its callback cancels the second. *)
Lemma address_completion_keeps_channel_witness :
  channel_
    (Reentrant.onAresGetAddrInfoCallback network_only (cancelling_callbacks 1)
       0 ARES_ECONNREFUSED 0 None two_lookups) = 0
  /\ next_object
       (Reentrant.onAresGetAddrInfoCallback network_only (cancelling_callbacks 1)
          0 ARES_ECONNREFUSED 0 None two_lookups) = 2
  /\ List.filter is_channel_event
       (events_since two_lookups
          (Reentrant.onAresGetAddrInfoCallback network_only
             (cancelling_callbacks 1) 0 ARES_ECONNREFUSED 0 None two_lookups))
     = [].
Proof.
  exact (address_completion_keeps_channel network_only (cancelling_callbacks 1)
           0 ARES_ECONNREFUSED 0 None two_lookups
           (cancelling_callbacks_keep_channel 1)).
Defined.

(** X7: the completion callback of an SRV query does replace the channel
    when it finds it dirty: with a successful answer that parses to at
    least one target, the first thing that happens inside the callback is
    the destruction of the channel, then a new one is made and the lookup
    of the first target is issued on the new channel. *)
Theorem srv_completion_replaces_dirty_channel lib this base cb family timeouts
    buf reply replies w :
  objects w !! this = Some (PendingSrvResolution base cb family) ->
  ares_parse_srv_reply lib buf = (ARES_SUCCESS, reply :: replies) ->
  dirty_channel_ w = true ->
  exists tr1 tr2,
    events_since w (onAresSrvStartCallback lib this ARES_SUCCESS timeouts buf w)
    = EvAresDestroy (channel_ w) :: tr1
      ++ EvAresInit (S (channel_ w))
         :: EvGetAddrInfo (S (channel_ w))
              (next_object (ares_destroy lib (channel_ w) w)) (host reply)
              (match family with V4Only => AF_INET | _ => AF_INET6 end)
         :: tr2.
Proof.
  intros Hobj Hparse Hdirty.
  unfold onAresSrvStartCallback. cbn [Z.eqb ARES_SUCCESS ARES_EDESTRUCTION].
  rewrite Hparse. cbn [Z.eqb ARES_SUCCESS]. cbv zeta. cbn [fold_left].
  match goal with
  | |- context [fold_left ?f replies ?x] => set (step1 := x); set (fan := f)
  end.
  assert (Hrest : extends step1 (fold_left fan replies step1)).
  { apply extends_fold_left. intros w0 r. apply extends_srv_fan_out_step. }
  destruct Hrest as [tr3 E3].
  set (recs := map _ (reply :: replies)) in *.
  assert (Hs : step1
               = snd (resolve lib (host reply) family
                        (SrvSubResolveCb this 0 recs reply) w)).
  { unfold step1, srv_fan_out_step. rewrite Hobj. reflexivity. }
  destruct (resolve_resets_dirty_channel lib (host reply) family
              (SrvSubResolveCb this 0 recs reply) w Hdirty)
    as (tr1 & tr2 & E).
  exists tr1, (tr2 ++ tr3).
  apply events_since_app. rewrite E3, Hs, E. rewrite <- !app_assoc. cbn.
  rewrite <- !app_assoc. reflexivity.
Qed.

Lemma srv_completion_replaces_dirty_channel_witness :
  dirty_channel_ srv_pending_on_dirty_channel = true
  /\ exists tr1 tr2,
       events_since srv_pending_on_dirty_channel
         (onAresSrvStartCallback (srv_library [target_a]) 0 ARES_SUCCESS 0 []
            srv_pending_on_dirty_channel)
       = EvAresDestroy 0 :: tr1
         ++ EvAresInit 1 :: EvGetAddrInfo 1 2 "a.example" AF_INET :: tr2.
Proof.
  split; [reflexivity|].
  exact (srv_completion_replaces_dirty_channel (srv_library [target_a]) 0
           {| ares_channel_ := 0; dns_name_ := "_svc._tcp.example";
              completed_ := false; owned_ := true; cancelled_ := false |}
           9 V4Only 0 [] target_a [] srv_pending_on_dirty_channel
           eq_refl eq_refl eq_refl).
Defined.

(** *** The dirty flag *)

Section ReentrantDirtyFlag.
Variable lib : AresLibrary.
Variable callers : CallerCallbacks.
Hypothesis keep_dirty : callbacks_keep_dirty_flag callers.

Lemma dirty_reentrant_onAresSrvFinishCallback this srv_records w :
  dirty_channel_ (Reentrant.onAresSrvFinishCallback callers this srv_records w)
  = dirty_channel_ w.
Proof.
  unfold Reentrant.onAresSrvFinishCallback.
  destruct (objects w !! this) as [[|base cb fam]|]; try reflexivity.
  cbv zeta.
  set (base1 := if is_nil srv_records then base else set_completed true base).
  set (w1 := store this _ w).
  destruct (completed_ base1); [|reflexivity].
  set (w2 := if cancelled_ base1 then w1 else _).
  assert (H2 : dirty_channel_ w2 = dirty_channel_ w).
  { subst w2. destruct (cancelled_ base1); [reflexivity|].
    destruct keep_dirty as [_ Hs]. rewrite Hs. reflexivity. }
  destruct (objects w2 !! this) as [q|]; [destruct (owned_ (query_base q))|];
    exact H2.
Qed.

Lemma dirty_reentrant_invoke_ResolveCb query cb status response w :
  dirty_channel_ (Reentrant.invoke_ResolveCb callers query cb status response w)
  = dirty_channel_ w.
Proof.
  destruct cb; cbn [Reentrant.invoke_ResolveCb].
  - destruct keep_dirty as [Hr _]. rewrite Hr. reflexivity.
  - cbv zeta. destruct (_ =? _);
      [apply dirty_reentrant_onAresSrvFinishCallback|reflexivity].
Qed.

Lemma dirty_reentrant_body this base cb fb status timeouts addrinfo w :
  objects w !! this = Some (PendingResolution base cb fb) ->
  dirty_channel_
    (fst (Reentrant.onAresGetAddrInfoCallback_body callers this status timeouts
            addrinfo w))
  = dirty_channel_ w || (negb fb && (status =? ARES_ECONNREFUSED)%Z).
Proof.
  intros Hobj. unfold Reentrant.onAresGetAddrInfoCallback_body. rewrite Hobj.
  destruct (Z.eqb_spec status ARES_EDESTRUCTION) as [->|Hst].
  { cbn [fst]. replace (ARES_EDESTRUCTION =? ARES_ECONNREFUSED)%Z with false
      by reflexivity.
    rewrite andb_false_r, orb_false_r.
    destruct (cancelled_ base); cbn [delete_this emit set_objects dirty_channel_];
      [reflexivity|apply dirty_reentrant_invoke_ResolveCb]. }
  cbv zeta.
  assert (Hm : dirty_channel_ (mark_dirty_if_refused fb status w)
               = dirty_channel_ w || (negb fb && (status =? ARES_ECONNREFUSED)%Z)).
  { unfold mark_dirty_if_refused.
    destruct (negb fb && (status =? ARES_ECONNREFUSED)%Z); cbn;
      [rewrite orb_true_r|rewrite orb_false_r]; reflexivity. }
  rewrite <- Hm.
  set (w1 := mark_dirty_if_refused fb status w).
  match goal with |- context [completed_ ?b] => set (base2 := b) end.
  set (w2 := store this (PendingResolution base2 cb fb) w1).
  destruct (completed_ base2).
  - set (w3 := if cancelled_ base2 then w2 else _).
    assert (H3 : dirty_channel_ w3 = dirty_channel_ w1).
    { subst w3. destruct (cancelled_ base2); [reflexivity|].
      rewrite dirty_reentrant_invoke_ResolveCb. reflexivity. }
    destruct (objects w3 !! this) as [q|];
      [destruct (owned_ (query_base q))|]; exact H3.
  - destruct fb; reflexivity.
Qed.

End ReentrantDirtyFlag.

Lemma cancelling_callbacks_keep_dirty_flag h :
  callbacks_keep_dirty_flag (cancelling_callbacks h).
Proof.
  split; intros; cbn; unfold cancel; destruct (objects w !! h); reflexivity.
Defined.

(** X8: a refused connection marks the channel dirty exactly on an attempt
    that has no fallback left.  For a live address query whose callbacks
    leave the flag alone (a callback that calls [resolve] would clear
    it), after the completion callback the flag is the old flag or-ed
    with "no fallback and status [ARES_ECONNREFUSED]"; in particular the
    first attempt of an [Auto] query never marks the channel (the fallback
    request is assumed to go to the network), and the completion does not
    clear the flag. *)
Theorem refused_marks_dirty_without_fallback lib callers this base cb fb status
    timeouts addrinfo w :
  callbacks_keep_dirty_flag callers ->
  objects w !! this = Some (PendingResolution base cb fb) ->
  (fb = true -> ares_getaddrinfo_now lib (dns_name_ base) AF_INET = None) ->
  dirty_channel_
    (Reentrant.onAresGetAddrInfoCallback lib callers this status timeouts
       addrinfo w)
  = dirty_channel_ w || (negb fb && (status =? ARES_ECONNREFUSED)%Z).
Proof.
  intros Hkeep Hobj Hnet. unfold Reentrant.onAresGetAddrInfoCallback.
  pose proof (dirty_reentrant_body callers Hkeep this base cb fb status timeouts
                addrinfo w Hobj) as Hd.
  destruct (Reentrant.onAresGetAddrInfoCallback_body callers this status
              timeouts addrinfo w) as [w1 again] eqn:Hb.
  cbn [fst] in Hd. destruct again; [|exact Hd].
  rewrite <- Hd.
  destruct (reentrant_body_again callers _ _ _ _ _ _ Hb)
    as (base' & cb' & Hobj' & _ & base2 & Hw1 & Hname & _).
  rewrite Hobj in Hobj'. injection Hobj' as <- <- ->.
  specialize (Hnet eq_refl).
  assert (Hobj1 : objects w1 !! this = Some (PendingResolution base2 cb false))
    by (rewrite Hw1; apply lookup_insert_eq).
  unfold Reentrant.getAddrInfo.
  rewrite (reentrant_getAddrInfo_fuel_S lib callers 1), Hobj1.
  cbn [query_base]. cbv zeta. rewrite Hname, Hnet. reflexivity.
Qed.

Lemma refused_marks_dirty_without_fallback_witness :
  dirty_channel_
    (Reentrant.onAresGetAddrInfoCallback network_only (cancelling_callbacks 1)
       0 ARES_ECONNREFUSED 0 None one_auto_query) = false
  /\ dirty_channel_
       (Reentrant.onAresGetAddrInfoCallback network_only
          (cancelling_callbacks 1) 0 ARES_ECONNREFUSED 0 None two_lookups)
     = true.
Proof.
  split.
  - exact (refused_marks_dirty_without_fallback network_only
             (cancelling_callbacks 1) 0
             {| ares_channel_ := 0; dns_name_ := "upstream.example";
                completed_ := false; owned_ := true; cancelled_ := false |}
             (CallerResolveCb 7) true ARES_ECONNREFUSED 0 None one_auto_query
             (cancelling_callbacks_keep_dirty_flag 1)
             eq_refl (fun _ => eq_refl)).
  - exact (refused_marks_dirty_without_fallback network_only
             (cancelling_callbacks 1) 0
             {| ares_channel_ := 0; dns_name_ := "a.example";
                completed_ := false; owned_ := true; cancelled_ := false |}
             (CallerResolveCb 1) false ARES_ECONNREFUSED 0 None two_lookups
             (cancelling_callbacks_keep_dirty_flag 1)
             eq_refl (fun _ => eq_refl)).
Defined.

(** Both conditions are needed: a callback that calls [resolve] when it is
    told of the refused connection finds the channel dirty, so that the
    channel is destroyed and made anew, and the flag cleared, inside the
    completion. *)
Lemma resolving_callback_replaces_channel :
  events_since one_lookup_taken
    (Reentrant.onAresGetAddrInfoCallback network_only
       (resolving_callbacks network_only "b.example") 0 ARES_ECONNREFUSED 0 None
       one_lookup_taken)
  = [EvResolveCb 0 1 Failure []; EvAresDestroy 0; EvAresInit 1;
     EvGetAddrInfo 1 1 "b.example" AF_INET; EvDelete 0]
  /\ channel_
       (Reentrant.onAresGetAddrInfoCallback network_only
          (resolving_callbacks network_only "b.example") 0 ARES_ECONNREFUSED 0
          None one_lookup_taken) = 1
  /\ dirty_channel_
       (Reentrant.onAresGetAddrInfoCallback network_only
          (resolving_callbacks network_only "b.example") 0 ARES_ECONNREFUSED 0
          None one_lookup_taken) = false.
Proof. repeat split; reflexivity. Qed.

(** *** The fan-out of an SRV answer *)

Section FanOut.
Variable lib : AresLibrary.

(** [resolve] on a clean channel when c-ares keeps the request. *)
Lemma resolve_kept_eq name family cb w :
  dirty_channel_ w = false ->
  ares_getaddrinfo_now lib name (first_family family) = None ->
  resolve lib name family cb w
  = (Some (next_object w),
     {| dirty_channel_ := dirty_channel_ w; channel_ := channel_ w;
        objects :=
          <[next_object w :=
              PendingResolution
                {| ares_channel_ := channel_ w; dns_name_ := name;
                   completed_ := false; owned_ := true; cancelled_ := false |}
                cb (match family with Auto => true | _ => false end)]>
            (objects w);
        next_object := S (next_object w);
        requests :=
          requests w ++ [{| req_channel := channel_ w; req_arg := next_object w;
                            req_kind := ReqGetAddrInfo (first_family family) |}];
        trace := trace w ++ [EvGetAddrInfo (channel_ w) (next_object w) name
                               (first_family family)] |}).
Proof.
  intros Hdirty Hnet. unfold resolve. rewrite Hdirty. cbn [alloc].
  match goal with
  | |- context [getAddrInfo lib ?t AF_INET ?x] => set (w2 := x); set (this := t)
  end.
  assert (Hw3 : match family with
                | V4Only => getAddrInfo lib this AF_INET w2
                | _ => getAddrInfo lib this AF_INET6 w2
                end = getAddrInfo lib this (first_family family) w2)
    by (destruct family; reflexivity).
  rewrite Hw3. clear Hw3.
  rewrite getAddrInfo_eq. unfold w2 at 1. cbn [objects].
  rewrite lookup_insert_eq. cbn [query_base ares_channel_ dns_name_]. cbv zeta.
  rewrite Hnet. unfold preparePendingResolution.
  cbn [add_request set_requests emit objects]. unfold w2 at 1. cbn [objects].
  rewrite lookup_insert_eq. cbn [query_base completed_].
  f_equal. unfold store, set_objects, w2. cbn. f_equal;
    [exact Hdirty|apply insert_insert_eq].
Qed.

Lemma resolve_kept name family cb w :
  dirty_channel_ w = false ->
  ares_getaddrinfo_now lib name (first_family family) = None ->
  let w' := snd (resolve lib name family cb w) in
  fst (resolve lib name family cb w) = Some (next_object w)
  /\ dirty_channel_ w' = false
  /\ channel_ w' = channel_ w
  /\ next_object w' = S (next_object w)
  /\ requests w'
     = requests w ++ [{| req_channel := channel_ w; req_arg := next_object w;
                         req_kind := ReqGetAddrInfo (first_family family) |}]
  /\ trace w'
     = trace w ++ [EvGetAddrInfo (channel_ w) (next_object w) name
                     (first_family family)]
  /\ forall i, i <> next_object w -> objects w' !! i = objects w !! i.
Proof.
  intros Hdirty Hnet w'. subst w'.
  rewrite (resolve_kept_eq name family cb w Hdirty Hnet). cbn [fst snd].
  repeat split; try assumption.
  intros i Hi. cbn. rewrite lookup_insert_ne by congruence. reflexivity.
Qed.

Lemma fan_out_kept this base cb family srv_records replies : forall w,
  objects w !! this = Some (PendingSrvResolution base cb family) ->
  this < next_object w ->
  dirty_channel_ w = false ->
  (forall reply, reply ∈ replies ->
     ares_getaddrinfo_now lib (host reply) (first_family family) = None) ->
  let w' := fold_left (srv_fan_out_step lib this srv_records) replies w in
  trace w' = trace w ++ fan_out_events (channel_ w) (next_object w) family replies
  /\ requests w'
     = requests w ++ fan_out_requests (channel_ w) (next_object w) family replies
  /\ next_object w' = next_object w + length replies
  /\ objects w' !! this = Some (PendingSrvResolution base cb family).
Proof.
  induction replies as [|reply l IH]; intros w Hobj Hlt Hdirty Hnet w'; subst w'.
  - cbn. rewrite !app_nil_r. repeat split; [lia|exact Hobj].
  - cbn [fold_left].
    assert (Hs : srv_fan_out_step lib this srv_records w reply
                 = snd (resolve lib (host reply) family
                          (SrvSubResolveCb this 0 srv_records reply) w)).
    { unfold srv_fan_out_step. rewrite Hobj. reflexivity. }
    rewrite Hs. clear Hs.
    destruct (resolve_kept (host reply) family
                (SrvSubResolveCb this 0 srv_records reply) w Hdirty
                (Hnet reply (list_elem_of_here reply l)))
      as (_ & Hd1 & Hc1 & Hn1 & Hr1 & Ht1 & Ho1).
    set (w1 := snd (resolve lib (host reply) family
                      (SrvSubResolveCb this 0 srv_records reply) w)) in *.
    assert (Hobj1 : objects w1 !! this = Some (PendingSrvResolution base cb family)).
    { rewrite Ho1 by lia. exact Hobj. }
    assert (Hlt1 : this < next_object w1) by lia.
    assert (Hnet1 : forall r, r ∈ l ->
              ares_getaddrinfo_now lib (host r) (first_family family) = None).
    { intros r Hr. apply Hnet. right. exact Hr. }
    destruct (IH w1 Hobj1 Hlt1 Hd1 Hnet1) as (Ht & Hr & Hn & Ho).
    split; [|split; [|split; [|exact Ho]]].
    + rewrite Ht, Ht1, Hc1, Hn1, <- app_assoc. f_equal.
      unfold fan_out_events. rewrite imap_cons. cbn [app]. f_equal.
      * rewrite Nat.add_0_r. reflexivity.
      * apply imap_ext. intros i r _. cbn. f_equal. lia.
    + rewrite Hr, Hr1, Hc1, Hn1, <- app_assoc. f_equal.
      unfold fan_out_requests. rewrite imap_cons. cbn [app]. f_equal.
      * rewrite Nat.add_0_r. reflexivity.
      * apply imap_ext. intros i r _. cbn. f_equal. lia.
    + rewrite Hn, Hn1. cbn [length]. lia.
Qed.

End FanOut.

(** X9: a successful SRV answer is fanned out into one address lookup per
    target.  On a clean channel, when c-ares keeps every lookup, the
    completion callback of a live SRV query issues exactly one
    [ares_getaddrinfo] per answer record, in the order of the answer, for
    the record's host and the family of the SRV query ([AF_INET] for
    [V4Only], else [AF_INET6]), all on the channel of the resolver; no
    callback is raised and the SRV query stays as it is. *)
Theorem srv_fan_out_one_lookup_per_target lib this base cb family timeouts buf
    replies w :
  objects w !! this = Some (PendingSrvResolution base cb family) ->
  this < next_object w ->
  dirty_channel_ w = false ->
  ares_parse_srv_reply lib buf = (ARES_SUCCESS, replies) ->
  (forall reply, reply ∈ replies ->
     ares_getaddrinfo_now lib (host reply) (first_family family) = None) ->
  let w' := onAresSrvStartCallback lib this ARES_SUCCESS timeouts buf w in
  events_since w w'
  = fan_out_events (channel_ w) (next_object w) family replies
  /\ requests w'
     = requests w ++ fan_out_requests (channel_ w) (next_object w) family replies
  /\ objects w' !! this = Some (PendingSrvResolution base cb family).
Proof.
  intros Hobj Hlt Hdirty Hparse Hnet w'. subst w'.
  unfold onAresSrvStartCallback. cbn [Z.eqb ARES_SUCCESS ARES_EDESTRUCTION].
  rewrite Hparse. cbn [Z.eqb ARES_SUCCESS]. cbv zeta.
  destruct (fan_out_kept lib this base cb family
              (map (fun current_reply : ares_srv_reply =>
                      SrvDnsResponse (host current_reply) (port current_reply)
                        (ttl current_reply) (weight current_reply)) replies)
              replies w Hobj Hlt Hdirty Hnet) as (Ht & Hr & _ & Ho).
  split; [apply events_since_app; exact Ht|]. split; [exact Hr|exact Ho].
Qed.

Lemma srv_fan_out_one_lookup_per_target_witness :
  events_since srv_pending
    (onAresSrvStartCallback (srv_library [target_a; target_b]) 0
       ARES_SUCCESS 0 [] srv_pending)
  = [EvGetAddrInfo 0 1 "a.example" AF_INET; EvGetAddrInfo 0 2 "b.example" AF_INET]
  /\ length (requests
               (onAresSrvStartCallback (srv_library [target_a; target_b]) 0
                  ARES_SUCCESS 0 [] srv_pending)) = 3.
Proof.
  destruct (srv_fan_out_one_lookup_per_target
              (srv_library [target_a; target_b]) 0
              {| ares_channel_ := 0; dns_name_ := "_svc._tcp.example";
                 completed_ := false; owned_ := true; cancelled_ := false |}
              9 V4Only 0 [] [target_a; target_b] srv_pending
              eq_refl (Nat.lt_0_succ 0) eq_refl eq_refl (fun _ _ => eq_refl))
    as (He & Hr & _).
  split; [exact He|]. rewrite Hr. reflexivity.
Defined.

(** *** The handle and the callback *)

(** X10: the handle that [resolve] returns to a caller is null exactly
    when the callback has been invoked before [resolve] returned, exactly
    when nothing was left in flight, and exactly when the query object is
    already freed; a non-null handle is the address of the new query.  The
    world [w1] is the one after the channel was replaced, if it was
    dirty. *)
Theorem resolve_null_handle_iff_answered lib name family c w :
  let w1 := if dirty_channel_ w
            then initializeChannel (ares_destroy lib (channel_ w) w) else w in
  let r := resolve lib name family (CallerResolveCb c) w in
  callback_count (events_since w1 (snd r))
  = match fst r with None => 1 | Some _ => 0 end
  /\ (fst r = None <-> requests (snd r) = requests w1)
  /\ (fst r = None <-> objects (snd r) !! next_object w1 = None)
  /\ (fst r = None \/ fst r = Some (next_object w1)).
Proof.
  intros w1 r.
  destruct (resolve_handle lib name family c w)
    as [(Hf & Hr & (st & resp & Hcb) & Ho)|(Hf & (ch & fam & Hr) & Hcb & Ho)];
    fold w1 in Hr, Hcb, Ho; fold r in Hf, Hr, Hcb, Ho; rewrite Hf.
  - split; [unfold callback_count; rewrite Hcb; reflexivity|].
    split; [tauto|]. split; [tauto|]. left. reflexivity.
  - destruct Ho as (base & fb & Ho & _).
    split; [exact Hcb|]. split; [|split; [|right; reflexivity]].
    + split; [discriminate|]. intros E. rewrite Hr in E.
      apply (f_equal length) in E. rewrite length_app in E. cbn in E. lia.
    + split; [discriminate|]. intros E. rewrite Ho in E. discriminate.
Qed.

(** *** One lookup family *)

Section SingleFamily.
Variable lib : AresLibrary.
Variable f : DnsLookupFamily.
Hypothesis f_not_Auto : f <> Auto.

Lemma issued_families_app tr1 tr2 :
  issued_families (tr1 ++ tr2) = issued_families tr1 ++ issued_families tr2.
Proof. apply omap_app. Qed.

Lemma same_kind_refl q : same_kind q q.
Proof. destruct q; cbn; auto. Qed.

Lemma same_kind_trans q1 q2 q3 :
  same_kind q1 q2 -> same_kind q2 q3 -> same_kind q1 q3.
Proof. destruct q1, q2, q3; cbn; try tauto. congruence. Qed.

Lemma keeps_refl w : keeps w w.
Proof.
  split.
  - intros i q H. exists q. split; [exact H|apply same_kind_refl].
  - exists []. split; [symmetry; apply app_nil_r|reflexivity].
Qed.

Lemma keeps_trans w1 w2 w3 : keeps w1 w2 -> keeps w2 w3 -> keeps w1 w3.
Proof.
  intros [O1 (t1 & E1 & F1)] [O2 (t2 & E2 & F2)]. split.
  - intros i q3 H3. destruct (O2 i q3 H3) as (q2 & H2 & K2).
    destruct (O1 i q2 H2) as (q1 & H1 & K1).
    exists q1. split; [exact H1|eapply same_kind_trans; eauto].
  - exists (t1 ++ t2). split.
    + rewrite E2, E1. symmetry. apply app_assoc.
    + rewrite issued_families_app, F1, F2. reflexivity.
Qed.

Lemma keeps_same w w' :
  objects w' = objects w -> trace w' = trace w -> keeps w w'.
Proof.
  intros O T. split.
  - intros i q H. rewrite O in H. exists q. split; [exact H|apply same_kind_refl].
  - exists []. split; [rewrite T; symmetry; apply app_nil_r|reflexivity].
Qed.

Lemma keeps_emit e w : issued_families [e] = [] -> keeps w (emit e w).
Proof.
  intros He. split.
  - intros i q H. exists q. split; [exact H|apply same_kind_refl].
  - exists [e]. split; [reflexivity|exact He].
Qed.

Lemma keeps_delete_this this w : keeps w (delete_this this w).
Proof.
  split.
  - intros i q H. cbn in H. apply lookup_delete_Some in H as [_ H].
    exists q. split; [exact H|apply same_kind_refl].
  - exists [EvDelete this]. split; reflexivity.
Qed.

Lemma keeps_store this q q' w :
  objects w !! this = Some q -> same_kind q q' -> keeps w (store this q' w).
Proof.
  intros Hobj Hk. split.
  - intros i qi H. cbn in H. destruct (decide (i = this)) as [->|Hne].
    + rewrite lookup_insert_eq in H. injection H as <-. eauto.
    + rewrite lookup_insert_ne in H by congruence.
      exists qi. split; [exact H|apply same_kind_refl].
  - exists []. split; [symmetry; apply app_nil_r|reflexivity].
Qed.

Lemma keeps_onAresSrvFinishCallback this srv_records w :
  keeps w (onAresSrvFinishCallback this srv_records w).
Proof.
  unfold onAresSrvFinishCallback.
  destruct (objects w !! this) as [[|base cb fam]|] eqn:Hobj;
    try (apply keeps_emit; reflexivity).
  cbv zeta.
  set (base1 := if is_nil srv_records then base else set_completed true base).
  assert (Hs : keeps w (store this (PendingSrvResolution base1 cb fam) w)).
  { eapply keeps_store; [exact Hobj|reflexivity]. }
  destruct (completed_ base1); [|exact Hs].
  destruct (cancelled_ base1), (owned_ base1);
    repeat first [exact Hs
                 | eapply keeps_trans; [|apply keeps_delete_this]
                 | eapply keeps_trans; [|apply keeps_emit; reflexivity] ].
Qed.

Lemma keeps_invoke_ResolveCb query cb status response w :
  keeps w (invoke_ResolveCb query cb status response w).
Proof.
  destruct cb; cbn [invoke_ResolveCb]; [apply keeps_emit; reflexivity|].
  cbv zeta. destruct (_ =? _);
    [apply keeps_onAresSrvFinishCallback|apply keeps_refl].
Qed.

Lemma keeps_body this status timeouts addrinfo w :
  keeps w (fst (onAresGetAddrInfoCallback_body this status timeouts addrinfo w)).
Proof.
  unfold onAresGetAddrInfoCallback_body.
  destruct (objects w !! this) as [[base cb fb|]|] eqn:Hobj;
    try (apply keeps_emit; reflexivity).
  destruct (status =? ARES_EDESTRUCTION)%Z.
  { cbn [fst]. eapply keeps_trans; [|apply keeps_delete_this].
    destruct (cancelled_ base);
      [apply keeps_refl|apply keeps_invoke_ResolveCb]. }
  cbv zeta.
  set (w1 := mark_dirty_if_refused fb status w).
  match goal with |- context [completed_ ?b] => set (base2 := b) end.
  set (w2 := store this (PendingResolution base2 cb fb) w1).
  assert (H1 : keeps w w1).
  { unfold w1, mark_dirty_if_refused.
    destruct (negb fb && (status =? ARES_ECONNREFUSED)%Z);
      [apply keeps_same; reflexivity|apply keeps_refl]. }
  assert (Hobj1 : objects w1 !! this = Some (PendingResolution base cb fb)).
  { unfold w1, mark_dirty_if_refused.
    destruct (negb fb && (status =? ARES_ECONNREFUSED)%Z); exact Hobj. }
  assert (H2 : keeps w w2).
  { eapply keeps_trans; [exact H1|].
    eapply keeps_store; [exact Hobj1|]. cbn. auto. }
  destruct (completed_ base2).
  - assert (H3 : keeps w (if cancelled_ base2 then w2
                          else invoke_ResolveCb this cb (answer_status status)
                                 (answer_addresses status addrinfo) w2)).
    { destruct (cancelled_ base2); [exact H2|].
      eapply keeps_trans; [exact H2|apply keeps_invoke_ResolveCb]. }
    destruct (owned_ base2); cbn [fst]; [|exact H3].
    eapply keeps_trans; [exact H3|apply keeps_delete_this].
  - destruct fb; cbn [fst]; [|exact H2].
    eapply keeps_trans; [exact H2|].
    eapply keeps_store; [apply lookup_insert_eq|]. cbn. discriminate.
Qed.

Lemma body_again_needs_fallback this status timeouts addrinfo w w1 :
  onAresGetAddrInfoCallback_body this status timeouts addrinfo w = (w1, true) ->
  exists base cb, objects w !! this = Some (PendingResolution base cb true).
Proof.
  unfold onAresGetAddrInfoCallback_body.
  destruct (objects w !! this) as [[base cb fb|]|]; [|discriminate..].
  destruct (status =? ARES_EDESTRUCTION)%Z; [discriminate|].
  cbv zeta.
  match goal with |- context [completed_ ?b] => set (base2 := b) end.
  destruct (completed_ base2); [destruct (owned_ base2); discriminate|].
  destruct fb; [eauto|discriminate].
Qed.

Lemma Single_keeps w w' : Single f w -> keeps w w' -> Single f w'.
Proof.
  intros [HO HT] [O (tr & E & F)]. split.
  - intros i q' H. destruct (O i q' H) as (q & Hq & K).
    specialize (HO i q Hq). destruct q, q'; cbn in K; try contradiction.
    + destruct fallback_if_failed_0; [|reflexivity].
      rewrite (K eq_refl) in HO. discriminate HO.
    + congruence.
  - rewrite E, issued_families_app, F, app_nil_r. exact HT.
Qed.

Lemma Single_onAresGetAddrInfoCallback this status timeouts addrinfo w :
  Single f w ->
  Single f (onAresGetAddrInfoCallback lib this status timeouts addrinfo w).
Proof.
  intros HS. unfold onAresGetAddrInfoCallback.
  pose proof (keeps_body this status timeouts addrinfo w) as Hk.
  pose proof (body_again_needs_fallback this status timeouts addrinfo w) as Ha.
  destruct (onAresGetAddrInfoCallback_body _ _ _ _ _) as [w1 [|]];
    cbn [fst] in Hk.
  - destruct (Ha w1 eq_refl) as (base & cb & Hobj).
    destruct HS as [HO _]. specialize (HO _ _ Hobj). discriminate HO.
  - eapply Single_keeps; eauto.
Qed.

Lemma Single_getAddrInfo this w :
  Single f w -> Single f (getAddrInfo lib this (first_family f) w).
Proof.
  intros HS. rewrite getAddrInfo_eq.
  destruct (objects w !! this) as [q|];
    [|eapply Single_keeps; [exact HS|apply keeps_emit; reflexivity]].
  cbv zeta. set (e := EvGetAddrInfo _ _ _ _).
  assert (HS1 : Single f (emit e w)).
  { destruct HS as [HO HT]. split; [exact HO|].
    change (trace (emit e w)) with (trace w ++ [e]).
    rewrite issued_families_app. apply Forall_app. split; [exact HT|].
    repeat constructor. }
  destruct (ares_getaddrinfo_now lib _ _) as [a|].
  - apply Single_onAresGetAddrInfoCallback, HS1.
  - eapply Single_keeps; [exact HS1|apply keeps_same; reflexivity].
Qed.

Lemma Single_fold_left {A} (g : World -> A -> World) (l : list A) :
  (forall w a, Single f w -> Single f (g w a)) ->
  forall w, Single f w -> Single f (fold_left g l w).
Proof.
  intros Hg. induction l as [|a l IH]; intros w HS; cbn [fold_left];
    [exact HS|].
  apply IH, Hg, HS.
Qed.

Lemma Single_ares_destroy channel w :
  Single f w -> Single f (ares_destroy lib channel w).
Proof.
  intros HS. unfold ares_destroy. cbv zeta.
  apply Single_fold_left.
  - intros w' r HS'. unfold deliver_destruction, onAresSrvStartCallback_destruction.
    destruct (req_kind r).
    + apply Single_onAresGetAddrInfoCallback, HS'.
    + eapply Single_keeps; [exact HS'|apply keeps_delete_this].
  - eapply Single_keeps; [exact HS|].
    apply (keeps_trans _ (emit (EvAresDestroy channel) w));
      [apply keeps_emit; reflexivity|apply keeps_same; reflexivity].
Qed.

Lemma keeps_preparePendingResolution p w :
  keeps w (snd (preparePendingResolution p w)).
Proof.
  unfold preparePendingResolution.
  destruct (objects w !! p) as [q|] eqn:Hobj;
    [|apply keeps_emit; reflexivity].
  destruct (completed_ (query_base q)); cbn [snd];
    [apply keeps_delete_this|].
  eapply keeps_store; [exact Hobj|]. destruct q; cbn; auto.
Qed.

Lemma Single_alloc q w :
  Single f w ->
  match q with
  | PendingResolution _ _ fb => fb = false
  | PendingSrvResolution _ _ g => g = f
  end ->
  Single f (snd (alloc q w)).
Proof.
  intros [HO HT] Hq. split; [|exact HT].
  intros i qi H. cbn in H. destruct (decide (i = next_object w)) as [->|Hne].
  - rewrite lookup_insert_eq in H. injection H as <-. exact Hq.
  - rewrite lookup_insert_ne in H by congruence. eapply HO, H.
Qed.

Lemma Single_resolve name cb w :
  Single f w -> Single f (snd (resolve lib name f cb w)).
Proof.
  intros HS. unfold resolve.
  set (w1 := if dirty_channel_ w then _ else w).
  assert (HS1 : Single f w1).
  { subst w1. destruct (dirty_channel_ w); [|exact HS].
    eapply Single_keeps; [apply Single_ares_destroy, HS|].
    unfold initializeChannel. cbv zeta.
    eapply keeps_trans; [|apply keeps_emit; reflexivity].
    apply keeps_same; reflexivity. }
  cbv zeta. set (q := PendingResolution _ _ _).
  assert (HS2 : Single f (snd (alloc q w1))).
  { apply Single_alloc; [exact HS1|]. unfold q. destruct f; congruence. }
  destruct (alloc q w1) as [p w2]. cbn [snd] in HS2.
  eapply Single_keeps; [|apply keeps_preparePendingResolution].
  assert (E : match f with
              | V4Only => getAddrInfo lib p AF_INET w2
              | _ => getAddrInfo lib p AF_INET6 w2
              end = getAddrInfo lib p (first_family f) w2)
    by (destruct f; reflexivity).
  rewrite E. apply Single_getAddrInfo, HS2.
Qed.

Lemma Single_onAresSrvStartCallback this status timeouts buf w :
  Single f w -> Single f (onAresSrvStartCallback lib this status timeouts buf w).
Proof.
  intros HS. unfold onAresSrvStartCallback, onAresSrvStartCallback_destruction.
  destruct (status =? ARES_EDESTRUCTION)%Z;
    [eapply Single_keeps; [exact HS|apply keeps_delete_this]|].
  destruct (status =? ARES_SUCCESS)%Z;
    [|eapply Single_keeps; [exact HS|apply keeps_onAresSrvFinishCallback]].
  destruct (ares_parse_srv_reply lib buf) as [status1 srv_reply].
  destruct (status1 =? ARES_SUCCESS)%Z;
    [|eapply Single_keeps; [exact HS|apply keeps_onAresSrvFinishCallback]].
  cbv zeta. apply Single_fold_left; [|exact HS].
  intros w' r HS'. unfold srv_fan_out_step.
  destruct (objects w' !! this) as [[|base cb fam]|] eqn:Hobj;
    try (eapply Single_keeps; [exact HS'|apply keeps_emit; reflexivity]).
  destruct HS' as [HO HT]. pose proof (HO _ _ Hobj) as Hf. cbn in Hf. subst fam.
  apply Single_resolve. split; assumption.
Qed.

Lemma Single_resolveSrv name cb w :
  Single f w -> Single f (snd (resolveSrv lib name f cb w)).
Proof.
  intros HS. unfold resolveSrv.
  set (q := PendingSrvResolution _ _ _).
  assert (HS2 : Single f (snd (alloc q w))) by (apply Single_alloc; [exact HS|reflexivity]).
  destruct (alloc q w) as [p w2]. cbn [snd] in HS2.
  eapply Single_keeps; [|apply keeps_preparePendingResolution].
  unfold getSrvByName.
  destruct (objects w2 !! p) as [q'|];
    [|eapply Single_keeps; [exact HS2|apply keeps_emit; reflexivity]].
  cbv zeta. set (e := EvAresQuery _ _ _).
  assert (HS3 : Single f (emit e w2))
    by (eapply Single_keeps; [exact HS2|apply keeps_emit; reflexivity]).
  destruct (ares_query_now lib _) as [a|].
  - apply Single_onAresSrvStartCallback, HS3.
  - eapply Single_keeps; [exact HS3|apply keeps_same; reflexivity].
Qed.

Lemma Single_step w i : asks_for f i -> Single f w -> Single f (step lib w i).
Proof.
  intros Hi HS. destruct i; cbn [step]; cbn in Hi.
  - subst family. apply Single_resolve, HS.
  - subst family. apply Single_resolveSrv, HS.
  - eapply Single_keeps; [exact HS|]. unfold cancel.
    destruct (objects w !! handle) as [q|] eqn:Hobj;
      [|apply keeps_emit; reflexivity].
    eapply keeps_store; [exact Hobj|]. destruct q; cbn; auto.
  - unfold ares_process.
    destruct (take_request arg (requests w)) as [[r rest]|]; [|exact HS].
    cbv zeta.
    assert (HS1 : Single f (set_requests rest w))
      by (eapply Single_keeps; [exact HS|apply keeps_same; reflexivity]).
    destruct (req_kind r);
      [apply Single_onAresGetAddrInfoCallback|apply Single_onAresSrvStartCallback];
      exact HS1.
  - apply Single_ares_destroy, HS.
Qed.

Lemma Single_run inputs : forall w,
  Forall (asks_for f) inputs -> Single f w -> Single f (run lib w inputs).
Proof.
  induction inputs as [|i l IH]; intros w Hl HS; [exact HS|].
  apply Forall_cons in Hl as [Hi Hl].
  apply (IH _ Hl), Single_step; assumption.
Qed.

End SingleFamily.

(** X11: a resolver that is only ever asked for one family other than
    [Auto] only ever asks c-ares for that family: with [V4Only]
    throughout, every [ares_getaddrinfo] of the run is for [AF_INET], with
    [V6Only] throughout, for [AF_INET6], whatever the answers, also for
    the lookups that an SRV answer is fanned out into.  The only source of
    a second family is the fallback of [Auto]. *)
Theorem single_family_resolver_asks_one_family lib f inputs :
  f <> Auto ->
  Forall (asks_for f) inputs ->
  Forall (fun family => family = first_family f)
    (issued_families (trace (run lib initial_world inputs))).
Proof.
  intros Hf Hin.
  apply (Single_run lib f Hf inputs initial_world Hin).
  split; [|constructor].
  intros i q H. cbn in H. rewrite lookup_empty in H. discriminate H.
Qed.

Lemma single_family_resolver_asks_one_family_witness :
  issued_families
    (trace (run (srv_library [target_a; target_b]) initial_world v4_only_run))
  = [AF_INET; AF_INET; AF_INET]
  /\ Forall (fun family => family = AF_INET)
       (issued_families
          (trace (run (srv_library [target_a; target_b]) initial_world
                    v4_only_run))).
Proof.
  split; [reflexivity|].
  apply (single_family_resolver_asks_one_family
           (srv_library [target_a; target_b]) V4Only v4_only_run).
  - discriminate.
  - repeat constructor.
Defined.

(** *** The life of an address query *)

Section AddressLifecycle.
Variable lib : AresLibrary.
Hypothesis lib_sane : no_destruction_inside_request lib.

Lemma touches_refl this w : touches this w w.
Proof.
  split; [reflexivity|]. split; [reflexivity|].
  exists []. split; [symmetry; apply app_nil_r|constructor].
Qed.

Lemma touches_trans this w1 w2 w3 :
  touches this w1 w2 -> touches this w2 w3 -> touches this w1 w3.
Proof.
  intros (N1 & O1 & t1 & E1 & F1) (N2 & O2 & t2 & E2 & F2).
  split; [congruence|]. split.
  - intros i Hi. rewrite O2, O1 by exact Hi. reflexivity.
  - exists (t1 ++ t2). split.
    + rewrite E2, E1. symmetry. apply app_assoc.
    + apply Forall_app. auto.
Qed.

Lemma touches_same this w w' :
  next_object w' = next_object w -> objects w' = objects w ->
  trace w' = trace w -> touches this w w'.
Proof.
  intros N O T. split; [exact N|]. split; [intros i _; rewrite O; reflexivity|].
  exists []. split; [rewrite T; symmetry; apply app_nil_r|constructor].
Qed.

Lemma touches_emit this e w :
  is_use_after_free e = false -> touches this w (emit e w).
Proof.
  intros He. split; [reflexivity|]. split; [reflexivity|].
  exists [e]. split; [reflexivity|]. constructor; [exact He|constructor].
Qed.

Lemma touches_store this q w : touches this w (store this q w).
Proof.
  split; [reflexivity|]. split.
  - intros i Hi. cbn. apply lookup_insert_ne. congruence.
  - exists []. split; [symmetry; apply app_nil_r|constructor].
Qed.

Lemma touches_delete_this this w : touches this w (delete_this this w).
Proof.
  split; [reflexivity|]. split.
  - intros i Hi. cbn. apply lookup_delete_ne. congruence.
  - exists [EvDelete this]. split; [reflexivity|]. repeat constructor.
Qed.

Lemma touches_mark_dirty_if_refused this fb status w :
  touches this w (mark_dirty_if_refused fb status w).
Proof.
  unfold mark_dirty_if_refused.
  destruct (negb fb && (status =? ARES_ECONNREFUSED)%Z);
    [apply touches_same; reflexivity|apply touches_refl].
Qed.

Lemma objects_mark_dirty_if_refused fb status w :
  objects (mark_dirty_if_refused fb status w) = objects w.
Proof.
  unfold mark_dirty_if_refused.
  destruct (negb fb && (status =? ARES_ECONNREFUSED)%Z); reflexivity.
Qed.

(** The destruction sentinel frees the query. *)
Lemma destruction_frees this base c fb timeouts addrinfo w :
  objects w !! this = Some (PendingResolution base (CallerResolveCb c) fb) ->
  let w' := onAresGetAddrInfoCallback lib this ARES_EDESTRUCTION timeouts
              addrinfo w in
  touches this w w' /\ requests w' = requests w /\ objects w' !! this = None.
Proof.
  intros Hobj w'. subst w'. unfold onAresGetAddrInfoCallback.
  rewrite (body_destruction _ _ _ _ _ _ _ Hobj).
  split; [|split].
  - eapply touches_trans; [|apply touches_delete_this].
    destruct (cancelled_ base); [apply touches_refl|].
    apply touches_emit. reflexivity.
  - destruct (cancelled_ base); reflexivity.
  - cbn. apply lookup_delete_eq.
Qed.

(** A final attempt: the query is freed if the resolver owns it, else it
    stays, completed. *)
Lemma final_attempt this base c fb status timeouts addrinfo w :
  objects w !! this = Some (PendingResolution base (CallerResolveCb c) fb) ->
  status <> ARES_EDESTRUCTION ->
  fb = false \/ answer_addresses status addrinfo <> [] ->
  let w' := onAresGetAddrInfoCallback lib this status timeouts addrinfo w in
  touches this w w' /\ requests w' = requests w
  /\ objects w' !! this
     = if owned_ base then None
       else Some (PendingResolution (set_completed true base)
                    (CallerResolveCb c) fb).
Proof.
  intros Hobj Hst Hfin w'. subst w'. unfold onAresGetAddrInfoCallback.
  rewrite (body_final _ _ _ _ _ _ _ _ Hobj Hst Hfin). cbv zeta.
  set (w1 := mark_dirty_if_refused fb status w).
  set (w2 := store this _ w1).
  assert (H2 : touches this w w2).
  { eapply touches_trans; [apply touches_mark_dirty_if_refused|].
    apply touches_store. }
  assert (R2 : requests w2 = requests w)
    by apply requests_mark_dirty_if_refused.
  assert (O2 : objects w2 !! this
               = Some (PendingResolution (set_completed true base)
                         (CallerResolveCb c) fb))
    by apply lookup_insert_eq.
  set (w3 := if cancelled_ base then w2 else _).
  assert (H3 : touches this w w3 /\ requests w3 = requests w
               /\ objects w3 = objects w2).
  { subst w3. destruct (cancelled_ base); [auto|].
    split; [|split; [exact R2|reflexivity]].
    eapply touches_trans; [exact H2|]. apply touches_emit. reflexivity. }
  destruct H3 as (H3 & R3 & O3).
  destruct (owned_ base).
  - split; [eapply touches_trans; [exact H3|apply touches_delete_this]|].
    split; [exact R3|]. cbn. apply lookup_delete_eq.
  - split; [exact H3|]. split; [exact R3|]. rewrite O3. exact O2.
Qed.

(** A request for a query whose fallback is consumed. *)
Lemma request_without_fallback this base c family w :
  objects w !! this = Some (PendingResolution base (CallerResolveCb c) false) ->
  completed_ base = false ->
  (owned_ base = false ->
   forall a, ares_getaddrinfo_now lib (dns_name_ base) family = Some a ->
             ans_status a <> ARES_EDESTRUCTION) ->
  let w' := getAddrInfo lib this family w in
  touches this w w'
  /\ ((requests w' = requests w
       /\ if owned_ base then objects w' !! this = None
          else address_query this false true w')
      \/ (waits this w w' /\ address_query this (owned_ base) false w')).
Proof.
  intros Hobj Hc Hsane w'. subst w'.
  rewrite getAddrInfo_eq, Hobj. cbn [query_base]. cbv zeta.
  set (e := EvGetAddrInfo _ _ _ _).
  assert (He : touches this w (emit e w)) by (apply touches_emit; reflexivity).
  destruct (ares_getaddrinfo_now lib (dns_name_ base) family) as [a|] eqn:Hnow.
  - destruct (Z.eqb_spec (ans_status a) ARES_EDESTRUCTION) as [Hd|Hd].
    + rewrite Hd.
      destruct (destruction_frees this base c false (ans_timeouts a)
                  (ans_addrinfo a) (emit e w) Hobj) as (T & R & O).
      split; [eapply touches_trans; eauto|]. left. split; [exact R|].
      destruct (owned_ base) eqn:Hown; [exact O|].
      exfalso. exact (Hsane eq_refl a eq_refl Hd).
    + destruct (final_attempt this base c false (ans_status a) (ans_timeouts a)
                  (ans_addrinfo a) (emit e w) Hobj Hd (or_introl eq_refl))
        as (T & R & O).
      split; [eapply touches_trans; eauto|]. left. split; [exact R|].
      destruct (owned_ base) eqn:Hown; [exact O|].
      eexists _, c, false. split; [exact O|]. cbn. auto.
  - split; [eapply touches_trans; [exact He|apply touches_same; reflexivity]|].
    right. split.
    + eexists _, family. split; [reflexivity|]. split; reflexivity.
    + exists base, c, false. split; [exact Hobj|]. split; [reflexivity|exact Hc].
Qed.

(** Any attempt of a live query that is not completed. *)
Lemma attempt_outcome this base c fb status timeouts addrinfo w :
  objects w !! this = Some (PendingResolution base (CallerResolveCb c) fb) ->
  completed_ base = false ->
  (owned_ base = false -> status <> ARES_EDESTRUCTION) ->
  let w' := onAresGetAddrInfoCallback lib this status timeouts addrinfo w in
  touches this w w'
  /\ ((requests w' = requests w
       /\ if owned_ base then objects w' !! this = None
          else address_query this false true w')
      \/ (waits this w w' /\ address_query this (owned_ base) false w')).
Proof.
  intros Hobj Hc Hsane w'. subst w'.
  destruct (Z.eqb_spec status ARES_EDESTRUCTION) as [Hd|Hd].
  { rewrite Hd.
    destruct (destruction_frees this base c fb timeouts addrinfo w Hobj)
      as (T & R & O).
    split; [exact T|]. left. split; [exact R|].
    destruct (owned_ base) eqn:Hown; [exact O|].
    exfalso. exact (Hsane eq_refl Hd). }
  assert (Hcase : (fb = false \/ answer_addresses status addrinfo <> [])
                  \/ (fb = true /\ answer_addresses status addrinfo = [])).
  { destruct fb; [|auto].
    destruct (answer_addresses status addrinfo); [right; auto|left; right].
    discriminate. }
  destruct Hcase as [Hfin|[-> Hnil]].
  - destruct (final_attempt this base c fb status timeouts addrinfo w Hobj Hd
                Hfin) as (T & R & O).
    split; [exact T|]. left. split; [exact R|].
    destruct (owned_ base) eqn:Hown; [exact O|].
    eexists _, c, fb. split; [exact O|]. cbn. auto.
  - unfold onAresGetAddrInfoCallback.
    rewrite (body_fallback _ _ _ _ _ _ _ Hobj Hd Hc Hnil).
    set (w2 := store this (PendingResolution base (CallerResolveCb c) false) w).
    assert (Hobj2 : objects w2 !! this
                    = Some (PendingResolution base (CallerResolveCb c) false))
      by apply lookup_insert_eq.
    assert (Hsane2 : owned_ base = false ->
              forall a, ares_getaddrinfo_now lib (dns_name_ base) AF_INET = Some a ->
                        ans_status a <> ARES_EDESTRUCTION).
    { intros _ a Ha. eapply lib_sane, Ha. }
    destruct (request_without_fallback this base c AF_INET w2 Hobj2 Hc Hsane2)
      as (T & H).
    split; [eapply touches_trans; [apply touches_store|exact T]|].
    exact H.
Qed.

(** A first request, any fallback flag. *)
Lemma request_outcome this base c fb family w :
  objects w !! this = Some (PendingResolution base (CallerResolveCb c) fb) ->
  completed_ base = false ->
  let w' := getAddrInfo lib this family w in
  touches this w w'
  /\ ((requests w' = requests w
       /\ if owned_ base then objects w' !! this = None
          else address_query this false true w')
      \/ (waits this w w' /\ address_query this (owned_ base) false w')).
Proof.
  intros Hobj Hc w'. subst w'.
  rewrite getAddrInfo_eq, Hobj. cbn [query_base]. cbv zeta.
  set (e := EvGetAddrInfo _ _ _ _).
  assert (He : touches this w (emit e w)) by (apply touches_emit; reflexivity).
  destruct (ares_getaddrinfo_now lib (dns_name_ base) family) as [a|] eqn:Hnow.
  - destruct (attempt_outcome this base c fb (ans_status a) (ans_timeouts a)
                (ans_addrinfo a) (emit e w) Hobj Hc) as (T & H).
    { intros _. eapply lib_sane, Hnow. }
    split; [eapply touches_trans; eauto|]. exact H.
  - split; [eapply touches_trans; [exact He|apply touches_same; reflexivity]|].
    right. split.
    + eexists _, family. split; [reflexivity|]. split; reflexivity.
    + exists base, c, fb. split; [exact Hobj|]. split; [reflexivity|exact Hc].
Qed.

Lemma address_query_frame this i owned completed w w' :
  touches this w w' -> i <> this ->
  address_query i owned completed w -> address_query i owned completed w'.
Proof.
  intros (_ & O & _) Hi (base & c & fb & Hobj & H).
  exists base, c, fb. rewrite O by exact Hi. auto.
Qed.

Lemma TidyWith_freed r l w w' :
  TidyWith (r :: l) w ->
  touches (req_arg r) w w' -> requests w' = requests w ->
  objects w' !! req_arg r = None ->
  TidyWith l w'.
Proof.
  intros (D & Q & L & U) T R O. pose proof T as (N & Ofr & tr & E & F).
  cbn [app map] in D. apply NoDup_cons in D as [Dr D].
  assert (Hne : forall x, x ∈ l ++ requests w -> req_arg x <> req_arg r).
  { intros x Hx Ex. apply Dr. rewrite <- Ex. apply list_elem_of_fmap. eauto. }
  split; [rewrite R; exact D|]. split; [|split].
  - intros x Hx. rewrite R in Hx. destruct (Q x) as [K A]; [right; exact Hx|].
    split; [exact K|]. eapply address_query_frame; eauto.
  - intros i Hi.
    assert (Hir : i <> req_arg r).
    { intros ->. rewrite O in Hi. destruct Hi as [? Hi]. discriminate Hi. }
    rewrite Ofr in Hi by exact Hir. destruct (L i Hi) as [Hlt (x & Hx & Ex)].
    split; [lia|]. exists x. split; [|exact Ex]. rewrite R.
    cbn [app] in Hx. apply elem_of_cons in Hx as [->|Hx]; [congruence|exact Hx].
  - rewrite E. apply Forall_app. auto.
Qed.

Lemma TidyWith_waiting r w w' :
  TidyWith [r] w ->
  touches (req_arg r) w w' -> waits (req_arg r) w w' ->
  address_query (req_arg r) true false w' ->
  TidyWith [] w'.
Proof.
  intros (D & Q & L & U) T (r' & fam & R & A' & K') Aq.
  pose proof T as (N & Ofr & tr & E & F).
  cbn [app map] in D. apply NoDup_cons in D as [Dr D].
  assert (Hne : forall x, x ∈ requests w -> req_arg x <> req_arg r).
  { intros x Hx Ex. apply Dr. rewrite <- Ex. apply list_elem_of_fmap. eauto. }
  unfold TidyWith. rewrite !app_nil_l.
  split; [|split; [|split]].
  - rewrite R, map_app. apply NoDup_app. split; [exact D|].
    split; [|apply NoDup_singleton].
    intros a Ha Ha'. cbn in Ha'. apply list_elem_of_singleton in Ha'. subst a.
    apply Dr. rewrite <- A'. exact Ha.
  - intros x Hx. rewrite R in Hx. apply elem_of_app in Hx as [Hx|Hx].
    + destruct (Q x) as [K A]; [right; exact Hx|].
      split; [exact K|]. eapply address_query_frame; eauto.
    + apply list_elem_of_singleton in Hx. subst x. rewrite A'.
      split; [eauto|exact Aq].
  - intros i Hi. destruct (decide (i = req_arg r)) as [->|Hir].
    + destruct (Q r) as [_ (b & c & fb & Hobj & _)]; [left|].
      destruct (L (req_arg r)) as [Hlt _]; [rewrite Hobj; eauto|].
      split; [lia|]. exists r'. split; [|exact A'].
      rewrite R. apply elem_of_app. right. left.
    + rewrite Ofr in Hi by exact Hir. destruct (L i Hi) as [Hlt (x & Hx & Ex)].
      split; [lia|]. exists x. split; [|exact Ex]. rewrite R.
      apply elem_of_cons in Hx as [->|Hx]; [congruence|].
      apply elem_of_app. left. exact Hx.
  - rewrite E. apply Forall_app. auto.
Qed.

Lemma TidyWith_fold_destruction l : forall w,
  TidyWith l w -> TidyWith [] (fold_left (deliver_destruction lib) l w).
Proof.
  induction l as [|r l IH]; intros w HT; cbn [fold_left]; [exact HT|].
  apply IH. pose proof HT as (D & Q & L & U).
  destruct (Q r) as [[fam K] (base & c & fb & Hobj & _)]; [left|].
  unfold deliver_destruction. rewrite K.
  destruct (destruction_frees (req_arg r) base c fb 0%Z None w Hobj)
    as (T & R & O).
  exact (TidyWith_freed r l w _ HT T R O).
Qed.

Lemma elem_of_filter_either (p : AresRequest -> bool) l x :
  x ∈ l ->
  x ∈ List.filter p l \/ x ∈ List.filter (fun r => negb (p r)) l.
Proof.
  induction l as [|y l IH]; intros Hx.
  - exfalso. eapply not_elem_of_nil; eauto.
  - cbn [List.filter]. apply elem_of_cons in Hx as [->|Hx].
    + destruct (p y); cbn [negb]; [left|right]; left.
    + destruct (IH Hx) as [H|H]; destruct (p y); cbn [negb]; auto;
        try (left; right; exact H); try (right; right; exact H).
Qed.

Lemma Tidy_ares_destroy channel w :
  Tidy w -> Tidy (ares_destroy lib channel w).
Proof.
  intros (D & Q & L & U). unfold Tidy, TidyWith in D, Q, L.
  rewrite !app_nil_l in *.
  unfold ares_destroy. cbv zeta.
  destruct (requests_by_channel (fun r => req_channel r =? channel)
              (requests w) D) as (D1 & D2 & Hdk & S1 & S2).
  apply TidyWith_fold_destruction.
  set (doomed := List.filter (fun r => req_channel r =? channel) (requests w)) in *.
  set (kept := List.filter (fun r => negb (req_channel r =? channel)) (requests w)) in *.
  assert (Hin : forall x, x ∈ doomed ++ kept -> x ∈ requests w).
  { intros x Hx. apply elem_of_app in Hx as [Hx|Hx]; auto. }
  split; [|split; [|split]]; cbn [requests set_requests emit].
  - rewrite map_app. apply NoDup_app. split; [exact D1|]. split; [|exact D2].
    intros a Ha Ha'. apply list_elem_of_fmap in Ha as (d & -> & Hd).
    apply list_elem_of_fmap in Ha' as (k & Ek & Hk).
    apply (Hdk d k Hd Hk). congruence.
  - intros x Hx. apply Q, Hin, Hx.
  - intros i Hi. destruct (L i Hi) as [Hlt (x & Hx & Ex)].
    split; [exact Hlt|]. exists x. split; [|exact Ex].
    apply elem_of_app.
    destruct (elem_of_filter_either (fun r => req_channel r =? channel) _ _ Hx);
      auto.
  - cbn. apply Forall_app. split; [exact U|]. repeat constructor.
Qed.

Lemma Tidy_same w w' :
  Tidy w -> requests w' = requests w -> objects w' = objects w ->
  next_object w' = next_object w ->
  (exists tr, trace w' = trace w ++ tr
              /\ Forall (fun e => is_use_after_free e = false) tr) ->
  Tidy w'.
Proof.
  intros (D & Q & L & U) R O N (tr & E & F).
  unfold Tidy, TidyWith in *. rewrite !app_nil_l in *.
  split; [rewrite R; exact D|]. split; [|split].
  - intros r Hr. rewrite R in Hr. destruct (Q r Hr) as [K (b & c & fb & H)].
    split; [exact K|]. exists b, c, fb. rewrite O. exact H.
  - intros i Hi. rewrite O in Hi. rewrite N, R. apply L, Hi.
  - rewrite E. apply Forall_app. auto.
Qed.

Lemma Tidy_cancel handle w :
  Tidy w -> is_Some (objects w !! handle) -> Tidy (cancel handle w).
Proof.
  intros (D & Q & L & U) [q Hq]. unfold Tidy, TidyWith in *.
  rewrite !app_nil_l in *. unfold cancel. rewrite Hq.
  split; [exact D|]. split; [|split; [|exact U]].
  - intros r Hr. destruct (Q r Hr) as [K (b & c & fb & Hobj & Ho & Hc)].
    split; [exact K|]. destruct (decide (req_arg r = handle)) as [E|Hne].
    + rewrite E in *. rewrite Hq in Hobj. injection Hobj as ->.
      exists (set_cancelled true b), c, fb. cbn. rewrite lookup_insert_eq. auto.
    + exists b, c, fb. cbn. rewrite lookup_insert_ne by congruence. auto.
  - intros i Hi. apply L. cbn in Hi.
    destruct (decide (i = handle)) as [->|Hne]; [eauto|].
    rewrite lookup_insert_ne in Hi by congruence. exact Hi.
Qed.

Lemma Tidy_ares_process arg a w : Tidy w -> Tidy (ares_process lib arg a w).
Proof.
  intros HT. pose proof HT as (D & Q & L & U). unfold Tidy, TidyWith in D, Q, L.
  rewrite !app_nil_l in *. unfold ares_process.
  destruct (take_request arg (requests w)) as [[r rest]|] eqn:Et; [|exact HT].
  destruct (take_request_spec arg _ _ _ Et) as (A & I & S & N).
  destruct (N D) as [N1 N2]. cbv zeta.
  destruct (Q r I) as [[fam K] (base & c & fb & Hobj & Hown & Hc)].
  rewrite K. rewrite A in Hobj.
  set (w0 := set_requests rest w).
  assert (HT0 : TidyWith [r] w0).
  { split; [|split; [|split; [|exact U]]].
    - cbn. apply NoDup_cons. split; [|exact N1].
      intros Hin. apply list_elem_of_fmap in Hin as (x & Ex & Hx).
      apply (N2 x Hx). congruence.
    - intros x Hx. cbn in Hx. apply Q.
      apply elem_of_cons in Hx as [->|Hx]; [exact I|apply S, Hx].
    - intros i Hi. destruct (L i Hi) as [Hlt (x & Hx & Ex)].
      split; [exact Hlt|].
      destruct (decide (i = arg)) as [->|Hne].
      + exists r. split; [left|exact A].
      + exists x. split; [|exact Ex]. right. cbn.
        clear - Et Hx Ex Hne. revert r rest Et.
        induction (requests w) as [|y l IH]; intros r rest Et;
          [exfalso; eapply not_elem_of_nil; eauto|].
        cbn [take_request] in Et.
        destruct (Nat.eqb_spec (req_arg y) arg) as [E|E].
        * injection Et as <- <-.
          apply elem_of_cons in Hx as [->|Hx]; [congruence|exact Hx].
        * destruct (take_request arg l) as [[r' rest']|]; [|discriminate].
          injection Et as <- <-.
          apply elem_of_cons in Hx as [->|Hx]; [left|right].
          eapply IH; eauto. }
  assert (Hobj0 : objects w0 !! arg
                  = Some (PendingResolution base (CallerResolveCb c) fb))
    by exact Hobj.
  destruct (attempt_outcome arg base c fb (ans_status a) (ans_timeouts a)
              (ans_addrinfo a) w0 Hobj0 Hc) as (T & H).
  { intros Hf. congruence. }
  rewrite Hown in H. rewrite <- A in T, H.
  destruct H as [[R O]|[W Aq]].
  - rewrite <- A. exact (TidyWith_freed r [] w0 _ HT0 T R O).
  - rewrite <- A. exact (TidyWith_waiting r w0 _ HT0 T W Aq).
Qed.

Lemma Tidy_resolve name family c w :
  Tidy w -> Tidy (snd (resolve lib name family (CallerResolveCb c) w)).
Proof.
  intros HT. unfold resolve.
  set (w1 := if dirty_channel_ w then _ else w).
  assert (HT1 : Tidy w1).
  { subst w1. destruct (dirty_channel_ w); [|exact HT].
    eapply Tidy_same; [apply (Tidy_ares_destroy (channel_ w)), HT|..];
      try reflexivity.
    eexists [_]. split; [reflexivity|]. repeat constructor. }
  clearbody w1. clear HT w.
  destruct HT1 as (D & Q & L & U). unfold Tidy, TidyWith in *.
  rewrite !app_nil_l in *.
  cbn [alloc]. set (this := next_object w1).
  set (base0 := {| ares_channel_ := channel_ w1; dns_name_ := name;
                   completed_ := false; owned_ := false; cancelled_ := false |}).
  set (fb := match family with Auto => true | _ => false end).
  match goal with
  | |- context [getAddrInfo lib this AF_INET ?x] => set (w2 := x)
  end.
  set (family0 := match family with V4Only => AF_INET | _ => AF_INET6 end).
  assert (Hw3 : match family with
                | V4Only => getAddrInfo lib this AF_INET w2
                | _ => getAddrInfo lib this AF_INET6 w2
                end = getAddrInfo lib this family0 w2)
    by (destruct family; reflexivity).
  rewrite Hw3. clear Hw3.
  assert (Hobj2 : objects w2 !! this
                  = Some (PendingResolution base0 (CallerResolveCb c) fb))
    by apply lookup_insert_eq.
  destruct (request_outcome this base0 c fb family0 w2 Hobj2 eq_refl)
    as ((N3 & O3 & tr & E3 & F3) & H).
  set (w3 := getAddrInfo lib this family0 w2) in *.
  assert (Hold : forall i, i <> this -> objects w3 !! i = objects w1 !! i).
  { intros i Hi. rewrite O3 by exact Hi. cbn. apply lookup_insert_ne. congruence. }
  assert (Hargs : forall r, r ∈ requests w1 -> req_arg r <> this).
  { intros r Hr. destruct (Q r Hr) as [_ (b & c' & fb' & Hobj & _)].
    destruct (L (req_arg r)) as [Hlt _]; [rewrite Hobj; eauto|]. unfold this. lia. }
  cbn [owned_ base0] in H. unfold preparePendingResolution.
  assert (N2 : next_object w2 = S this) by reflexivity.
  assert (R2 : requests w2 = requests w1) by reflexivity.
  assert (T2 : trace w2 = trace w1) by reflexivity.
  rewrite N2 in N3. rewrite T2 in E3. unfold waits in H. rewrite R2 in H.
  clearbody w3. clear Hobj2 O3. clearbody w2.
  destruct H as [[R (b3 & c3 & fb3 & Hobj3 & Ho3 & Hc3)]
                |[(r' & fam & R & A' & K') (b3 & c3 & fb3 & Hobj3 & Ho3 & Hc3)]];
    rewrite Hobj3; cbn [query_base]; rewrite Hc3; cbn [snd].
  - split; [cbn; rewrite R; exact D|]. split; [|split].
    + intros r Hr. cbn in Hr. rewrite R in Hr.
      destruct (Q r Hr) as [K (b & c' & fb' & Hobj & Hx)].
      split; [exact K|]. exists b, c', fb'. cbn.
      rewrite lookup_delete_ne by (apply not_eq_sym, Hargs, Hr).
      rewrite Hold by (apply Hargs, Hr). auto.
    + intros i Hi. cbn in Hi. cbn.
      destruct (decide (i = this)) as [->|Hne].
      { rewrite lookup_delete_eq in Hi. destruct Hi as [? Hi]. discriminate Hi. }
      rewrite lookup_delete_ne in Hi by congruence. rewrite Hold in Hi by exact Hne.
      destruct (L i Hi) as [Hlt Hr]. rewrite N3, R. split; [unfold this; lia|exact Hr].
    + cbn. rewrite E3. rewrite <- app_assoc. apply Forall_app. split; [exact U|].
      apply Forall_app. split; [exact F3|]. repeat constructor.
  - split; [|split; [|split]].
    + cbn. rewrite R, map_app. apply NoDup_app.
      split; [exact D|]. split; [|apply NoDup_singleton].
      intros x Hx Hx'. cbn in Hx'. apply list_elem_of_singleton in Hx'. subst x.
      apply list_elem_of_fmap in Hx as (r & Er & Hr).
      apply (Hargs r Hr). congruence.
    + intros r Hr. cbn in Hr. rewrite R in Hr.
      apply elem_of_app in Hr as [Hr|Hr].
      * destruct (Q r Hr) as [K (b & c' & fb' & Hobj & Hx)].
        split; [exact K|]. exists b, c', fb'. cbn.
        rewrite lookup_insert_ne by (apply not_eq_sym, Hargs, Hr).
        rewrite Hold by (apply Hargs, Hr). auto.
      * apply list_elem_of_singleton in Hr. subst r. rewrite A'.
        split; [eauto|]. exists (set_owned true b3), c3, fb3. cbn.
        rewrite lookup_insert_eq. auto.
    + intros i Hi. cbn in Hi. cbn. rewrite N3, R.
      destruct (decide (i = this)) as [->|Hne].
      { split; [unfold this; lia|]. exists r'. split; [|exact A'].
        apply elem_of_app. right. left. }
      rewrite lookup_insert_ne in Hi by congruence. rewrite Hold in Hi by exact Hne.
      destruct (L i Hi) as [Hlt (x & Hx & Ex)]. split; [unfold this; lia|].
      exists x. split; [|exact Ex]. apply elem_of_app. left. exact Hx.
    + cbn. rewrite E3. apply Forall_app. split; [exact U|exact F3].
Qed.

Lemma Tidy_run inputs : forall w,
  address_calls_only lib w inputs = true -> Tidy w -> Tidy (run lib w inputs).
Proof.
  induction inputs as [|i l IH]; intros w Hl HT; [exact HT|].
  cbn [address_calls_only] in Hl. apply andb_prop in Hl as [Hi Hl].
  apply (IH _ Hl). destruct i; cbn [step].
  - apply Tidy_resolve, HT.
  - discriminate Hi.
  - apply Tidy_cancel; [exact HT|].
    destruct (objects w !! handle); [eauto|discriminate Hi].
  - apply Tidy_ares_process, HT.
  - apply Tidy_ares_destroy, HT.
Qed.

Lemma Tidy_initial_world : Tidy initial_world.
Proof.
  split; [constructor|]. split; [|split; [|constructor]].
  - intros r Hr. exfalso. cbn in Hr. eapply not_elem_of_nil. exact Hr.
  - intros i [q Hi]. cbn in Hi. rewrite lookup_empty in Hi. discriminate Hi.
Qed.

End AddressLifecycle.

Lemma network_only_no_destruction_inside_request :
  no_destruction_inside_request network_only.
Proof. intros name family a H. discriminate H. Defined.

Lemma address_run_address_calls_only :
  address_calls_only network_only initial_world address_run = true.
Proof. reflexivity. Defined.

(** X12: in every run in which the caller uses [resolve] only and cancels
    only through handles whose query lives, the callbacks of the callers
    return without calling into the resolver (the runs of [run]), and
    c-ares does not report destruction from inside a request, no member
    function runs on a freed address query, whatever the answers and the
    order of completions, cancellations and the destruction of the
    resolver.  A run in which a callback calls [resolve] or [cancel] before
    it returns is not covered: [resolving_callback_replaces_channel] shows
    what such a callback does to the channel. *)
Theorem address_queries_never_used_after_free lib inputs :
  no_destruction_inside_request lib ->
  address_calls_only lib initial_world inputs = true ->
  List.filter is_use_after_free (trace (run lib initial_world inputs)) = [].
Proof.
  intros Hlib Hin.
  destruct (Tidy_run lib Hlib inputs initial_world Hin Tidy_initial_world)
    as (_ & _ & _ & U).
  induction U as [|e tr He _ IH]; [reflexivity|].
  cbn [List.filter]. rewrite He. exact IH.
Qed.

Lemma address_queries_never_used_after_free_witness :
  length (trace (run network_only initial_world address_run)) = 4
  /\ List.filter is_use_after_free
       (trace (run network_only initial_world address_run)) = [].
Proof.
  split; [reflexivity|].
  exact (address_queries_never_used_after_free network_only address_run
           network_only_no_destruction_inside_request
           address_run_address_calls_only).
Defined.

(** X13: no address query is leaked.  In every such run the live query
    objects are exactly the owners of the requests in flight: a query
    whose request has ended (answered, failed, or told of the
    destruction) has been freed, cancelled or not. *)
Theorem live_queries_are_in_flight lib inputs i :
  no_destruction_inside_request lib ->
  address_calls_only lib initial_world inputs = true ->
  let w := run lib initial_world inputs in
  is_Some (objects w !! i) <-> exists r, r ∈ requests w /\ req_arg r = i.
Proof.
  intros Hlib Hin w. subst w.
  destruct (Tidy_run lib Hlib inputs initial_world Hin Tidy_initial_world)
    as (_ & Q & L & _).
  unfold Tidy, TidyWith in *. rewrite !app_nil_l in *. split.
  - intros Hi. apply L, Hi.
  - intros (r & Hr & <-). destruct (Q r Hr) as [_ (b & c & fb & Hobj & _)].
    rewrite Hobj. eauto.
Qed.

Lemma live_queries_are_in_flight_witness :
  is_Some (objects (run network_only initial_world address_run) !! 1)
  /\ (is_Some (objects (run network_only initial_world address_run) !! 1)
      <-> exists r, r ∈ requests (run network_only initial_world address_run)
                    /\ req_arg r = 1).
Proof.
  split; [vm_compute; eexists; reflexivity|].
  exact (live_queries_are_in_flight network_only address_run 1
           network_only_no_destruction_inside_request
           address_run_address_calls_only).
Defined.



(** *** The outcome of [maybeBuildResolversCsv] *)

Lemma resolver_addrs_loop_outcome resolvers : forall acc,
  resolver_addrs_loop resolvers acc
  = match first_non_ip resolvers with
    | Some bad => Throws (not_an_IP_address bad)
    | None => Returns (acc ++ map format_resolver (omap ip resolvers))
    end.
Proof.
  induction resolvers as [|r l IH]; intros acc; cbn.
  - rewrite app_nil_r. reflexivity.
  - unfold first_non_ip. cbn [List.find].
    destruct (ip r) as [i|]; [|reflexivity].
    rewrite IH. unfold first_non_ip.
    destruct (List.find _ l); [reflexivity|].
    cbn. rewrite <- app_assoc. reflexivity.
Qed.

Lemma all_ip_when_no_first_non_ip resolvers :
  first_non_ip resolvers = None ->
  length (omap ip resolvers) = length resolvers.
Proof.
  unfold first_non_ip. induction resolvers as [|r l IH]; [reflexivity|].
  cbn [List.find]. cbn. destruct (ip r); [|discriminate].
  intros H. cbn. f_equal. apply IH, H.
Qed.


(** *** The watches of the event loop *)

Section EventBridge.
Variable ft : FileReadyType.

Lemma events_updateAresTimer t b : events_ (updateAresTimer t b) = events_ b.
Proof. destruct t; reflexivity. Qed.

Lemma state_change_watch b c fd :
  events_ (state_change ft b c) !! fd
  = if (sc_fd c =? fd)%Z then watch_after ft c else events_ b !! fd.
Proof.
  unfold state_change, onAresSocketStateChange, watch_after. cbv zeta.
  rewrite events_updateAresTimer.
  destruct (Z.eqb_spec (sc_fd c) fd) as [->|Hne];
    destruct ((sc_read c =? 0)%Z && (sc_write c =? 0)%Z);
    destruct (events_ b !! _) eqn:E; cbn [events_];
    rewrite ?events_updateAresTimer, ?lookup_insert_eq, ?lookup_delete_eq;
    rewrite ?lookup_insert_ne, ?lookup_delete_ne by exact Hne;
    rewrite ?events_updateAresTimer;
    rewrite ?lookup_insert_ne by exact Hne;
    rewrite ?events_updateAresTimer;
    try reflexivity; try exact E.
Qed.

Lemma calls_snoc_creations fd calls c :
  creations fd (calls ++ [c])
  = creations fd calls
    + match c with
      | CreateFileEvent fd' _ => if (fd' =? fd)%Z then 1 else 0
      | _ => 0
      end.
Proof.
  unfold creations. rewrite List.filter_app, length_app. f_equal.
  destruct c; try reflexivity. cbn. destruct (fd0 =? fd)%Z; reflexivity.
Qed.

Lemma calls_snoc_destructions fd calls c :
  destructions fd (calls ++ [c])
  = destructions fd calls
    + match c with
      | DestroyFileEvent fd' => if (fd' =? fd)%Z then 1 else 0
      | _ => 0
      end.
Proof.
  unfold destructions. rewrite List.filter_app, length_app. f_equal.
  destruct c; try reflexivity. cbn. destruct (fd0 =? fd)%Z; reflexivity.
Qed.

Lemma calls_updateAresTimer t b fd :
  creations fd (dispatcher_calls (updateAresTimer t b))
  = creations fd (dispatcher_calls b)
  /\ destructions fd (dispatcher_calls (updateAresTimer t b))
     = destructions fd (dispatcher_calls b).
Proof.
  destruct t; cbn [updateAresTimer dispatcher_calls]; cbv zeta;
    cbn [dispatcher_calls];
    rewrite calls_snoc_creations, calls_snoc_destructions; lia.
Qed.

Lemma balanced_state_change b c : balanced b -> balanced (state_change ft b c).
Proof.
  intros Hb fd. specialize (Hb fd).
  pose proof (state_change_watch b c fd) as Hw.
  destruct (calls_updateAresTimer (sc_timeout c) b fd) as [Hc Hd].
  revert Hw. unfold state_change, onAresSocketStateChange, watch_after.
  cbv zeta. rewrite events_updateAresTimer.
  destruct ((sc_read c =? 0)%Z && (sc_write c =? 0)%Z).
  - destruct (events_ b !! sc_fd c) eqn:E; cbn [events_ dispatcher_calls];
      intros Hw; rewrite Hw.
    + rewrite calls_snoc_creations, calls_snoc_destructions, Hc, Hd.
      destruct (Z.eqb_spec (sc_fd c) fd) as [<-|Hne].
      * rewrite E in Hb. lia.
      * lia.
    + rewrite Hc, Hd.
      destruct (Z.eqb_spec (sc_fd c) fd) as [<-|Hne]; [|exact Hb].
      rewrite E in Hb. exact Hb.
  - destruct (events_ b !! sc_fd c) eqn:E; cbn [events_ dispatcher_calls];
      intros Hw; rewrite Hw.
    + rewrite calls_snoc_creations, calls_snoc_destructions, Hc, Hd.
      destruct (Z.eqb_spec (sc_fd c) fd) as [<-|Hne].
      * rewrite E in Hb. lia.
      * lia.
    + rewrite !calls_snoc_creations, !calls_snoc_destructions, Hc, Hd.
      destruct (Z.eqb_spec (sc_fd c) fd) as [<-|Hne].
      * rewrite E in Hb. lia.
      * lia.
Qed.

End EventBridge.


(** X17: file events are neither leaked nor made twice: after any
    sequence of socket state changes on a new resolver, for every
    descriptor the number of file events created is the number destroyed,
    plus one exactly if the descriptor is watched. *)
Theorem file_events_balanced ft l fd :
  let b := state_changes ft no_bridge l in
  creations fd (dispatcher_calls b)
  = destructions fd (dispatcher_calls b)
    + (match events_ b !! fd with Some _ => 1 | None => 0 end).
Proof.
  intros b. subst b.
  assert (H : forall l b, balanced b -> balanced (state_changes ft b l)).
  { clear. induction l as [|c l IH]; intros b Hb; [exact Hb|].
    apply IH, balanced_state_change, Hb. }
  apply (H l no_bridge). intros fd'. reflexivity.
Qed.
